(** * Circle FFT over F_31: a shallow embedding of [circle_fft.ipynb]

    The notebook's classes [FieldElement] and [CirclePoint], the domain
    builders and the forward / inverse transform are rendered as Rocq
    functions.  Python integers are [Z]; Python lists are [list]; a raised
    exception is the [Err] branch of [result]. *)

From Stdlib Require Import ZArith List Lia Bool Morphisms.
Import ListNotations.
Open Scope Z_scope.

(** ** Exceptions *)

(** The notebook raises [ValueError] with four different messages; the
    message is kept so that the failures can be told apart. *)
Inductive message :=
  | NotOnCircle        (* "Point does not lie on the circle: x^2 + y^2 != 1" *)
  | NegativeExponent   (* "Negative exponents are not supported" *)
  | SubgroupSize       (* "Cannot generate subgroup of size 2^{logn}" *)
  | LengthMismatch     (* "... must have equal power-of-2 length" *)
  | NegativeShift.     (* the interpreter's "negative shift count" *)

Inductive exn :=
  | ValueError (m : message)
  | ZeroDivisionError
  | AssertionError
  | IndexError
  | RecursionError.

Inductive result (A : Type) :=
  | Ok (a : A)
  | Err (e : exn).
Arguments Ok {A} a.
Arguments Err {A} e.

Definition bind {A B} (r : result A) (f : A -> result B) : result B :=
  match r with
  | Ok a => f a
  | Err e => Err e
  end.

Notation "x <- r ;; k" := (bind r (fun x => k))
  (at level 61, r at next level, right associativity).

(** A list comprehension whose body may raise: elements are evaluated left
    to right and the first exception aborts the whole comprehension. *)
Fixpoint mapM {A B} (f : A -> result B) (l : list A) : result (list B) :=
  match l with
  | [] => Ok []
  | a :: l' => b <- f a ;; bs <- mapM f l' ;; Ok (b :: bs)
  end.

(** [l[i]] for a non-negative index. *)
Definition getitem {A} (l : list A) (i : nat) : result A :=
  match nth_error l i with
  | Some a => Ok a
  | None => Err IndexError
  end.

(** [range(lo, hi)] *)
Definition range (lo hi : Z) : list Z :=
  map (fun i => lo + Z.of_nat i) (seq 0 (Z.to_nat (hi - lo))).

(** ** Finite field element class *)

Definition MOD : Z := 31.

Module FieldElement.

Record t := mk { value : Z }.

(** [__init__] *)
Definition init (v : Z) : t := mk (v mod MOD).

(** [__add__] *)
Definition add (self other : t) : t :=
  init ((value self + value other) mod MOD).

(** [__sub__] *)
Definition sub (self other : t) : t :=
  init ((value self - value other) mod MOD).

(** [__mul__] *)
Definition mul (self other : t) : t :=
  init ((value self * value other) mod MOD).

(** [__neg__]: Python parses [-self.value % MOD] as [(-self.value) % MOD]. *)
Definition neg (self : t) : t :=
  init ((- value self) mod MOD).

(** [inv]; the three-argument builtin [pow(b, e, m)] is [b ^ e mod m]. *)
Definition inv (self : t) : result t :=
  if value self =? 0 then Err ZeroDivisionError
  else Ok (init ((value self ^ (MOD - 2)) mod MOD)).

(** [__truediv__] *)
Definition truediv (self other : t) : result t :=
  i <- inv other ;; Ok (mul self i).

Definition square (self : t) : t := mul self self.
Definition double (self : t) : t := add self self.
Definition one : t := init 1.
Definition zero : t := init 0.

(** [__eq__] *)
Definition eqb (self other : t) : bool := value self =? value other.

(** The [while exponent > 0] loop of [__pow__]; [res] is the source's
    [result], consumed one binary digit of [exponent] per iteration. *)
Fixpoint pow_loop (exponent : positive) (res base : t) : t :=
  match exponent with
  | xI q => pow_loop q (mul res base) (square base)
  | xO q => pow_loop q res (square base)
  | xH => mul res base
  end.

(** [__pow__] *)
Definition pow (self : t) (exponent : Z) : result t :=
  if exponent <? 0 then Err (ValueError NegativeExponent)
  else
    match exponent with
    | Zpos p => Ok (pow_loop p (init 1) self)
    | _ => Ok (init 1)
    end.

End FieldElement.

Abbreviation FE := FieldElement.t.

(** ** Circle point class *)

Module CirclePoint.

Record t := mk { x : FE; y : FE }.

(** [__init__]: the constructor checks the circle equation. *)
Definition init (x y : FE) : result t :=
  if negb (FieldElement.value
             (FieldElement.add (FieldElement.square x) (FieldElement.square y)) =? 1)
  then Err (ValueError NotOnCircle)
  else Ok (mk x y).

Definition identity : result t :=
  init FieldElement.one FieldElement.zero.

(** Group operation. *)
Definition add (self other : t) : result t :=
  let nx := FieldElement.sub (FieldElement.mul (x self) (x other))
                             (FieldElement.mul (y self) (y other)) in
  let ny := FieldElement.add (FieldElement.mul (x self) (y other))
                             (FieldElement.mul (x other) (y self)) in
  init nx ny.

(** Squaring map. *)
Definition double (self : t) : result t :=
  let xx := FieldElement.sub (FieldElement.double (FieldElement.square (x self)))
                             FieldElement.one in
  let yy := FieldElement.mul (FieldElement.double (x self)) (y self) in
  init xx yy.

(** The [while tmp > 0] loop of [power].  [tmp] is positive here and is
    consumed one binary digit per iteration ([tmp & 1], [tmp //= 2]), which
    is the structure of [positive]. *)
Fixpoint power_loop (tmp : positive) (out base : t) : result t :=
  match tmp with
  | xI q =>
      out' <- add out base ;;
      base' <- double base ;;
      power_loop q out' base'
  | xO q =>
      base' <- double base ;;
      power_loop q out base'
  | xH =>
      out' <- add out base ;;
      _ <- double base ;;
      Ok out'
  end.

Definition power (self : t) (n : Z) : result t :=
  if n <? 0 then Err (ValueError NegativeExponent)
  else
    out <- identity ;;
    base <- init (x self) (y self) ;;
    match n with
    | Zpos p => power_loop p out base
    | _ => Ok out
    end.

Definition inverse (self : t) : result t :=
  init (x self) (FieldElement.neg (y self)).

(** [__eq__] between two circle points. *)
Definition eqb (self other : t) : bool :=
  FieldElement.eqb (x self) (x other) && FieldElement.eqb (y self) (y other).

End CirclePoint.

Abbreviation Point := CirclePoint.t.

(** Shorthand for the point with coordinates [FieldElement(a), FieldElement(b)]
    when it is known to lie on the circle. *)
Definition pt (a b : Z) : Point :=
  CirclePoint.mk (FieldElement.init a) (FieldElement.init b).

Definition find_generator : result Point :=
  match find (fun '(xx, yy) => (xx * xx + yy * yy) mod MOD =? 1)
             (list_prod (range 1 MOD) (range 1 MOD)) with
  | Some (xx, yy) => CirclePoint.init (FieldElement.init xx) (FieldElement.init yy)
  | None => CirclePoint.identity
  end.

(** [1 << k]; a negative shift count raises [ValueError]. *)
Definition shl1 (k : Z) : result Z :=
  if k <? 0 then Err (ValueError NegativeShift) else Ok (Z.shiftl 1 k).

Definition get_nth_generator (logn : Z) : result Point :=
  size <- shl1 logn ;;
  if negb ((MOD + 1) mod size =? 0) then Err (ValueError SubgroupSize)
  else
    let step := (MOD + 1) / size in
    g <- find_generator ;;
    CirclePoint.power g step.

(** ** Generate subgroup *)

(** The comprehension [[(p := p.add(g_k)) if i else p for i in range(1 << k)]]:
    the running point [p] is state threaded through the iteration. *)
Fixpoint subgroup_loop (g_k : Point) (p : Point) (idx : list Z) : result (list Point) :=
  match idx with
  | [] => Ok []
  | i :: rest =>
      p' <- (if negb (i =? 0) then CirclePoint.add p g_k else Ok p) ;;
      tl <- subgroup_loop g_k p' rest ;;
      Ok (p' :: tl)
  end.

Definition generate_subgroup (k : Z) : result (list Point) :=
  g_k <- get_nth_generator k ;;
  p <- CirclePoint.identity ;;
  size <- shl1 k ;;
  subgroup_loop g_k p (range 0 size).

(** ** Cosets *)

Definition generate_twin_coset (Q : Point) (G_n_minus_1 : list Point) : result (list Point) :=
  Q_inv <- CirclePoint.inverse Q ;;
  coset_Q <- mapM (fun g => CirclePoint.add Q g) G_n_minus_1 ;;
  coset_Q_inv <- mapM (fun g => CirclePoint.add Q_inv g) G_n_minus_1 ;;
  Ok (coset_Q ++ coset_Q_inv).

Definition generate_standard_position_coset (Q : Point) (G_n : list Point) : result (list Point) :=
  mapM (fun g => CirclePoint.add Q g) G_n.

(** [decompose_to_twin_cosets(D, n, m)].  The body reads the notebook's
    module-level variable [Q]; that global is the first argument here, the
    other three are the function's own parameters. *)
Definition decompose_to_twin_cosets (Q : Point) (D : list Point) (n m : Z)
  : result (list (list Point)) :=
  size_m <- shl1 m ;;
  if negb (Z.of_nat (length D) =? size_m) then Err AssertionError
  else
    G_n_minus_1 <- generate_subgroup (n - 1) ;;
    size_m' <- shl1 m ;;
    size_n <- shl1 n ;;
    mapM (fun k =>
            Q_k <- CirclePoint.power Q (4 * k + 1) ;;
            generate_twin_coset Q_k G_n_minus_1)
         (range 0 (size_m' / size_n)).

(** ** Halve a standard position coset using the squaring map *)

Definition key_eqb (a b : Z * Z) : bool :=
  (fst a =? fst b) && (snd a =? snd b).

(** Python compares tuples lexicographically. *)
Definition key_leb (a b : Z * Z) : bool :=
  (fst a <? fst b) || ((fst a =? fst b) && (snd a <=? snd b)).

(** [d[k] = v] on a dictionary kept in insertion order: an existing key keeps
    its position and gets the new value, a new key goes to the end. *)
Fixpoint dict_set (d : list (Z * Z * Point)) (k : Z * Z) (v : Point)
  : list (Z * Z * Point) :=
  match d with
  | [] => [(k, v)]
  | (k', v') :: d' =>
      if key_eqb k k' then (k', v) :: d' else (k', v') :: dict_set d' k v
  end.

Definition point_key (p : Point) : Z * Z :=
  (FieldElement.value (CirclePoint.x p), FieldElement.value (CirclePoint.y p)).

(** [list.sort(key=...)] is a stable sort; it is rendered as a stable
    insertion sort on the keys. *)
Fixpoint insert_by_key (p : Point) (l : list Point) : list Point :=
  match l with
  | [] => [p]
  | q :: l' =>
      if key_leb (point_key p) (point_key q) then p :: q :: l'
      else q :: insert_by_key p l'
  end.

Fixpoint sort_by_key (l : list Point) : list Point :=
  match l with
  | [] => []
  | p :: l' => insert_by_key p (sort_by_key l')
  end.

Definition halve_standard_position_coset_by_squaring_map (standard_coset : list Point)
  : result (list Point) :=
  new_points <- mapM CirclePoint.double standard_coset ;;
  let unique_dict :=
    fold_left (fun d p => dict_set d (point_key p) p) new_points [] in
  let unique := map snd unique_dict in
  Ok (sort_by_key unique).

(** ** Circle FFT and IFFT *)

Definition two : FE := FieldElement.init 2.

(** [coefficients[::2]] and [coefficients[1::2]] *)
Fixpoint stride_even {A} (l : list A) : list A :=
  match l with
  | [] => []
  | [a] => [a]
  | a :: _ :: l' => a :: stride_even l'
  end.

Definition stride_odd {A} (l : list A) : list A :=
  match l with
  | [] => []
  | _ :: l' => stride_even l'
  end.

(** [[coeff for pair in zip(a, b) for coeff in pair]] *)
Definition zip_flatten {A} (a b : list A) : list A :=
  flat_map (fun pr => [fst pr; snd pr]) (combine a b).

(** pi on an x-coordinate: [x.square().double() - FieldElement.one()] *)
Definition next_x (x : FE) : FE :=
  FieldElement.sub (FieldElement.double (FieldElement.square x)) FieldElement.one.

(** The even and odd parts computed by both forward layers; [factors] are the
    y-coordinates in the top layer and the x-coordinates below. *)
Definition even_part (left right : list FE) (half : nat) : result (list FE) :=
  mapM (fun i =>
          l <- getitem left i ;;
          r <- getitem right i ;;
          FieldElement.truediv (FieldElement.add l r) two)
       (seq 0 half).

Definition odd_part (left right factors : list FE) (half : nat) : result (list FE) :=
  mapM (fun i =>
          l <- getitem left i ;;
          r <- getitem right i ;;
          f <- getitem factors i ;;
          FieldElement.truediv (FieldElement.sub l r) (FieldElement.mul f two))
       (seq 0 half).

(** [fuel] bounds the depth of nested calls, as the interpreter's recursion
    limit does; running out of it is [RecursionError]. *)
Fixpoint _fft_squaring_map_x (fuel : nat) (values x_domain : list FE) : result (list FE) :=
  match fuel with
  | O => Err RecursionError
  | S fuel' =>
      let n := length values in
      if (n =? 1)%nat then
        v0 <- getitem values 0 ;; Ok [v0]
      else
        let half := (n / 2)%nat in
        let left := firstn half values in
        let right := rev (skipn half values) in
        let x_factors := firstn half x_domain in
        f_even_x <- even_part left right half ;;
        f_odd_x <- odd_part left right x_factors half ;;
        let next_x_domain := map next_x (firstn half x_domain) in
        coeffs_even <- _fft_squaring_map_x fuel' f_even_x next_x_domain ;;
        coeffs_odd <- _fft_squaring_map_x fuel' f_odd_x next_x_domain ;;
        Ok (zip_flatten coeffs_even coeffs_odd)
  end.

Definition _fft_quotient_map_y (fuel : nat) (values : list FE) (circle_domain : list Point)
  : result (list FE) :=
  let n := length values in
  if (n =? 1)%nat then
    v0 <- getitem values 0 ;; Ok [v0]
  else
    let half := (n / 2)%nat in
    let left := firstn half values in
    let right := rev (skipn half values) in
    let y_factors := map CirclePoint.y (firstn half circle_domain) in
    f_even_y <- even_part left right half ;;
    f_odd_y <- odd_part left right y_factors half ;;
    let x_domain := map CirclePoint.x circle_domain in
    let half_x_domain := firstn half x_domain in
    coeffs_even <- _fft_squaring_map_x fuel f_even_y half_x_domain ;;
    coeffs_odd <- _fft_squaring_map_x fuel f_odd_y half_x_domain ;;
    Ok (zip_flatten coeffs_even coeffs_odd).

(** The guard shared by [circle_fft] and [circle_ifft]:
    [len(a) != len(b) or len(a) & (len(a) - 1)]. *)
Definition bad_length {A B} (a : list A) (b : list B) : bool :=
  let n := Z.of_nat (length a) in
  negb (length a =? length b)%nat || negb (Z.land n (n - 1) =? 0).

Definition circle_fft (fuel : nat) (evaluations : list Z) (circle_domain : list Point)
  : result (list Z) :=
  if bad_length evaluations circle_domain then Err (ValueError LengthMismatch)
  else
    let arr := map FieldElement.init evaluations in
    coefficients <- _fft_quotient_map_y fuel arr circle_domain ;;
    Ok (map FieldElement.value coefficients).

(** The reconstruction step of both inverse layers. *)
Definition rebuild (sign : FE -> FE -> FE) (f_even f_odd factors : list FE) (half : nat)
  : result (list FE) :=
  mapM (fun i =>
          e <- getitem f_even i ;;
          f <- getitem factors i ;;
          o <- getitem f_odd i ;;
          Ok (sign e (FieldElement.mul f o)))
       (seq 0 half).

Fixpoint _ifft_squaring_map_x (fuel : nat) (coefficients x_domain : list FE)
  : result (list FE) :=
  match fuel with
  | O => Err RecursionError
  | S fuel' =>
      let n := length coefficients in
      if (n =? 1)%nat then
        c0 <- getitem coefficients 0 ;; Ok [c0]
      else
        let half := (n / 2)%nat in
        let coeffs_even := stride_even coefficients in
        let coeffs_odd := stride_odd coefficients in
        let x_factors := firstn half x_domain in
        let next_x_domain := map next_x (firstn half x_domain) in
        f_even_x <- _ifft_squaring_map_x fuel' coeffs_even next_x_domain ;;
        f_odd_x <- _ifft_squaring_map_x fuel' coeffs_odd next_x_domain ;;
        evaluations_left <- rebuild FieldElement.add f_even_x f_odd_x x_factors half ;;
        evaluations_right <- rebuild FieldElement.sub f_even_x f_odd_x x_factors half ;;
        Ok (evaluations_left ++ rev evaluations_right)
  end.

Definition _ifft_quotient_map_y (fuel : nat) (coefficients : list FE)
  (circle_domain : list Point) : result (list FE) :=
  let n := length coefficients in
  if (n =? 1)%nat then
    c0 <- getitem coefficients 0 ;; Ok [c0]
  else
    let half := (n / 2)%nat in
    let coeffs_even := stride_even coefficients in
    let coeffs_odd := stride_odd coefficients in
    let x_domain := map CirclePoint.x circle_domain in
    let y_factors := map CirclePoint.y circle_domain in
    let half_x_domain := firstn half x_domain in
    f_even_y <- _ifft_squaring_map_x fuel coeffs_even half_x_domain ;;
    f_odd_y <- _ifft_squaring_map_x fuel coeffs_odd half_x_domain ;;
    evaluations_left <- rebuild FieldElement.add f_even_y f_odd_y y_factors half ;;
    evaluations_right <- rebuild FieldElement.sub f_even_y f_odd_y y_factors half ;;
    Ok (evaluations_left ++ rev evaluations_right).

Definition circle_ifft (fuel : nat) (coefficients : list Z) (circle_domain : list Point)
  : result (list Z) :=
  if bad_length coefficients circle_domain then Err (ValueError LengthMismatch)
  else
    let arr := map FieldElement.init coefficients in
    evaluations <- _ifft_quotient_map_y fuel arr circle_domain ;;
    Ok (map FieldElement.value evaluations).

(** ** Verify FFT with basis functions *)

(** [repeated_vn]: the loop [for _ in range(k - 1)]. *)
Definition repeated_vn (x : FE) (k : Z) : FE :=
  fold_left (fun tmp _ => next_x tmp) (range 0 (k - 1)) x.

(** One iteration of the [while tmp > 0] loop of [basis_func], when the lowest
    bit of [tmp] is set. *)
Definition basis_step (pt : Point) (bitpos : Z) (b : FE) : FE :=
  if bitpos =? 0 then FieldElement.mul b (CirclePoint.y pt)
  else FieldElement.mul b (repeated_vn (CirclePoint.x pt) bitpos).

Fixpoint basis_loop (pt : Point) (tmp : positive) (bitpos : Z) (b : FE) : FE :=
  match tmp with
  | xI q => basis_loop pt q (bitpos + 1) (basis_step pt bitpos b)
  | xO q => basis_loop pt q (bitpos + 1) b
  | xH => basis_step pt bitpos b
  end.

Definition basis_func (pt : Point) (idx : Z) : FE :=
  match idx with
  | Zpos p => basis_loop pt p 0 (FieldElement.init 1)
  | _ => FieldElement.init 1
  end.

(** [enumerate(l)] *)
Definition enumerate {A} (l : list A) : list (Z * A) :=
  combine (range 0 (Z.of_nat (length l))) l.

Definition check_with_basis (coefs : list Z) (circle_domain : list Point) : list Z :=
  let arrC := map FieldElement.init coefs in
  map (fun pt =>
         FieldElement.value
           (fold_left (fun acc ic =>
                         FieldElement.add acc
                           (FieldElement.mul (snd ic) (basis_func pt (fst ic))))
                      (enumerate arrC) (FieldElement.init 0)))
      circle_domain.

(** * Specification vocabulary *)

(** The predicates, example values and decidable checks the properties below
    are stated with. *)

(** Congruence modulo [MOD], with the Standard Library's setoid structure. *)
Definition cong (a b : Z) : Prop := eqm MOD a b.
Infix "==m" := cong (at level 70, no associativity).

#[local] Instance cong_equiv : Equivalence cong := eqm_setoid MOD.
#[local] Instance cong_add : Proper (cong ==> cong ==> cong) Z.add := Zplus_eqm MOD.
#[local] Instance cong_sub : Proper (cong ==> cong ==> cong) Z.sub := Zminus_eqm MOD.
#[local] Instance cong_mul : Proper (cong ==> cong ==> cong) Z.mul := Zmult_eqm MOD.
#[local] Instance cong_opp : Proper (cong ==> cong) Z.opp := Zopp_eqm MOD.

(** A field element is canonical when its representative lies in [[0, MOD)];
    the constructor only ever builds canonical elements. *)
Definition canonical (a : FE) : Prop := 0 <= FieldElement.value a < MOD.

Definition on_circle (P : Point) : Prop :=
  FieldElement.value
    (FieldElement.add (FieldElement.square (CirclePoint.x P))
                      (FieldElement.square (CirclePoint.y P))) = 1.

(** A circle point as the constructor builds it from field elements:
    canonical coordinates that satisfy the circle equation. *)
Definition valid_point (P : Point) : Prop :=
  canonical (CirclePoint.x P) /\ canonical (CirclePoint.y P) /\ on_circle P.

Definition on_circle_b (P : Point) : bool :=
  FieldElement.value
    (FieldElement.add (FieldElement.square (CirclePoint.x P))
                      (FieldElement.square (CirclePoint.y P))) =? 1.

Definition circle_points : list Point :=
  filter on_circle_b
    (map (fun ab => CirclePoint.mk (FieldElement.mk (fst ab)) (FieldElement.mk (snd ab)))
         (list_prod (range 0 MOD) (range 0 MOD))).

Definition memb (P : Point) (l : list Point) : bool := existsb (CirclePoint.eqb P) l.

Definition same_set (a b : list Point) : bool :=
  forallb (fun P => memb P b) a && forallb (fun P => memb P a) b.

Fixpoint distinct (l : list Point) : bool :=
  match l with
  | [] => true
  | P :: l' => negb (memb P l') && distinct l'
  end.

Definition list_eqb (a b : list Point) : bool :=
  (length a =? length b)%nat && forallb (fun pr => CirclePoint.eqb (fst pr) (snd pr)) (combine a b).

(** The notebook's example objects: the size-8 subgroup, and the standard
    position cosets of [Q = (13, 7)] and of [Q = (24, 18)] over it. *)
Definition G3 : list Point :=
  [pt 1 0; pt 4 27; pt 0 30; pt 27 27; pt 30 0; pt 27 4; pt 0 1; pt 4 4].

Definition D_13_7 : list Point :=
  [pt 13 7; pt 18 7; pt 7 18; pt 7 13; pt 18 24; pt 13 24; pt 24 13; pt 24 18].

Definition D_24_18 : list Point :=
  [pt 24 18; pt 13 7; pt 18 7; pt 7 18; pt 7 13; pt 18 24; pt 13 24; pt 24 13].

(** Everything C7 says about [generate_subgroup k], as one decidable check. *)
Definition subgroup_check (k : Z) : bool :=
  match get_nth_generator k, generate_subgroup k with
  | Ok g, Ok G =>
      (Z.of_nat (length G) =? 2 ^ k)
      && distinct G
      && forallb (fun P => forallb (fun R =>
            match CirclePoint.add P R with
            | Ok W => memb W G
            | Err _ => false
            end) G) G
      && forallb (fun i =>
            match CirclePoint.power g i, nth_error G (Z.to_nat i) with
            | Ok P, Some P' => CirclePoint.eqb P P'
            | _, _ => false
            end) (range 0 (2 ^ k))
  | _, _ => false
  end.

Definition is_subgroup_of_generator (k : Z) (g : Point) (G : list Point) : Prop :=
  Z.of_nat (length G) = 2 ^ k /\
  NoDup G /\
  (forall P R, In P G -> In R G -> exists S, CirclePoint.add P R = Ok S /\ In S G) /\
  (forall i, 0 <= i < 2 ^ k ->
     exists P, CirclePoint.power g i = Ok P /\ nth_error G (Z.to_nat i) = Some P).


Definition standard_coset_of (Q : Point) (n : Z) : result (list Point) :=
  G <- generate_subgroup n ;; generate_standard_position_coset Q G.



Definition point_le (P R : Point) : Prop :=
  key_leb (point_key P) (point_key R) = true.

Inductive ascending : list Point -> Prop :=
  | ascending_nil : ascending []
  | ascending_one P : ascending [P]
  | ascending_cons P R l : point_le P R -> ascending (R :: l) -> ascending (P :: R :: l).

Definition halve_check (Q : Point) (n : Z) : bool :=
  match standard_coset_of Q n with
  | Ok D =>
      match halve_standard_position_coset_by_squaring_map D with
      | Ok H =>
          (2 * length H =? length D)%nat
          && distinct H
          && forallb (fun P => existsb (fun R =>
                match CirclePoint.double R with
                | Ok P' => CirclePoint.eqb P' P
                | Err _ => false
                end) D) H
          && forallb (fun R =>
                match CirclePoint.double R with
                | Ok P' => memb P' H
                | Err _ => false
                end) D
      | Err _ => false
      end
  | Err _ => false
  end.

Definition in_field (z : Z) : Prop := 0 <= z < MOD.

(** The value [inv] returns when it does not raise. *)
Definition inv_value (a : FE) : FE :=
  FieldElement.init ((FieldElement.value a ^ (MOD - 2)) mod MOD).

(** A divisor [f * two] the odd part can be divided by. *)
Definition good_factor (f : FE) : bool :=
  negb (FieldElement.value (FieldElement.mul f two) =? 0).

Definition even_of (l r : FE) : FE :=
  FieldElement.mul (FieldElement.add l r) (inv_value two).

Definition odd_of (l r f : FE) : FE :=
  FieldElement.mul (FieldElement.sub l r) (inv_value (FieldElement.mul f two)).

(** The x-coordinates handed to a squaring-map layer of size [2^k]: the
    factors the layer divides by are good, and so are those of the layers
    below, which work on the images under [next_x]. *)
Fixpoint x_domain_ok (k : nat) (xs : list FE) : bool :=
  match k with
  | O => true
  | S k' =>
      let h := (2 ^ k')%nat in
      (h <=? length xs)%nat
      && forallb good_factor (firstn h xs)
      && x_domain_ok k' (map next_x (firstn h xs))
  end.

(** The same for the top layer of size [2^k], which divides by y-coordinates. *)
Definition domain_ok (k : nat) (D : list Point) : bool :=
  match k with
  | O => true
  | S k' =>
      let h := (2 ^ k')%nat in
      (h <=? length D)%nat
      && forallb good_factor (map CirclePoint.y (firstn h D))
      && x_domain_ok k' (firstn h (map CirclePoint.x D))
  end.

(** The coset [Q * G_k] has [2^k] points, and unless [k >= 1] and [Q] lies in
    [G_k] it holds no bad divisor. *)
Definition coset_domain_check (Q : Point) (k : Z) : bool :=
  match generate_subgroup k with
  | Ok G =>
      match generate_standard_position_coset Q G with
      | Ok D =>
          (length D =? 2 ^ Z.to_nat k)%nat
          && ((negb (k =? 0) && memb Q G) || domain_ok (Z.to_nat k) D)
      | Err _ => false
      end
  | Err _ => false
  end.

Definition coset_in_subgroup_check (Q : Point) (k : Z) : bool :=
  match generate_subgroup k with
  | Ok G =>
      match generate_standard_position_coset Q G with
      | Ok D =>
          negb (memb Q G)
          || negb (forallb good_factor
                     (map CirclePoint.y (firstn (2 ^ (Z.to_nat k - 1)) D)))
      | Err _ => false
      end
  | Err _ => false
  end.

(** The coordinates [add] and [inverse] compute, without the constructor's
    check. *)
Definition add_pt (P R : Point) : Point :=
  CirclePoint.mk
    (FieldElement.sub (FieldElement.mul (CirclePoint.x P) (CirclePoint.x R))
                      (FieldElement.mul (CirclePoint.y P) (CirclePoint.y R)))
    (FieldElement.add (FieldElement.mul (CirclePoint.x P) (CirclePoint.y R))
                      (FieldElement.mul (CirclePoint.x R) (CirclePoint.y P))).

Definition neg_pt (P : Point) : Point :=
  CirclePoint.mk (CirclePoint.x P) (FieldElement.neg (CirclePoint.y P)).

(** The [n]-fold product [identity * P * ... * P]. *)
Definition pow_pt (P : Point) (n : Z) : Point :=
  Nat.iter (Z.to_nat n) (fun A => add_pt A P) (pt 1 0).

Definition result_eqb (a b : result Point) : bool :=
  match a, b with
  | Ok P, Ok R => CirclePoint.eqb P R
  | _, _ => false
  end.


Definition generator_check : bool :=
  match find_generator with
  | Ok g =>
      on_circle_b g
      && forallb (fun P =>
            existsb (fun i => result_eqb (CirclePoint.power g i) (Ok P))
                    (range 0 (MOD + 1)))
           circle_points
  | Err _ => false
  end.

Definition nth_generator_check (k : Z) : bool :=
  match get_nth_generator k with
  | Ok g =>
      on_circle_b g
      && result_eqb (CirclePoint.power g (2 ^ k)) CirclePoint.identity
      && forallb (fun j =>
            negb (result_eqb (CirclePoint.power g (2 ^ j)) CirclePoint.identity))
           (range 0 k)
  | Err _ => false
  end.

Definition nested_check (k : Z) : bool :=
  match generate_subgroup k, generate_subgroup (k + 1) with
  | Ok G, Ok G' =>
      list_eqb G (stride_even G')
      && result_eqb (get_nth_generator k)
           (match get_nth_generator (k + 1) with
            | Ok g => CirclePoint.double g
            | Err e => Err e
            end)
  | _, _ => false
  end.

(** [D[N-1-i]] is the inverse of [D[i]], for every index [i]. *)
Definition conjugate_symmetric (D : list Point) : bool :=
  forallb (fun i =>
     match nth_error D i, nth_error D (length D - 1 - i) with
     | Some P, Some R => result_eqb (CirclePoint.inverse P) (Ok R)
     | _, _ => false
     end) (seq 0 (length D)).

Definition symmetry_check (Q : Point) (k : Z) : bool :=
  match standard_coset_of Q k with
  | Ok D =>
      Bool.eqb (conjugate_symmetric D)
               (result_eqb (CirclePoint.double Q) (get_nth_generator k))
  | Err _ => false
  end.

Definition partition_check (Q : Point) (n m : Z) : bool :=
  match standard_coset_of Q m with
  | Ok D =>
      match decompose_to_twin_cosets Q D n m with
      | Ok tcs =>
          Bool.eqb (same_set (concat tcs) D && distinct (concat tcs))
                   (result_eqb (CirclePoint.power Q (2 ^ m)) (Ok (pt (-1) 0)))
      | Err _ => false
      end
  | Err _ => false
  end.

Definition halved_coset_check (Q : Point) (n : Z) : bool :=
  match standard_coset_of Q n, CirclePoint.double Q with
  | Ok D, Ok Q2 =>
      match halve_standard_position_coset_by_squaring_map D,
            standard_coset_of Q2 (n - 1) with
      | Ok H, Ok D' => same_set H D'
      | _, _ => false
      end
  | _, _ => false
  end.

(** Entrywise linear combination [a * c + b * c'] of two vectors, of field
    elements and of integers reduced modulo [MOD]. *)
Definition lin (a b : FE) (c c' : list FE) : list FE :=
  map (fun p => FieldElement.add (FieldElement.mul a (fst p)) (FieldElement.mul b (snd p)))
      (combine c c').

Definition lin_comb (a b : Z) (c c' : list Z) : list Z :=
  map (fun p => (a * fst p + b * snd p) mod MOD) (combine c c').

(** The sum [check_with_basis] accumulates for one domain point. *)
Definition basis_eval (arrC : list FE) (pt : Point) : FE :=
  fold_left (fun acc ic =>
               FieldElement.add acc
                 (FieldElement.mul (snd ic) (basis_func pt (fst ic))))
            (enumerate arrC) (FieldElement.init 0).

(** The [i]-th unit vector of length [n], and the vector that keeps the first
    [m] entries of [c] (reduced modulo [MOD]) and is zero from there on. *)
Definition unit_vec (n i : nat) : list Z :=
  map (fun j => if (j =? i)%nat then 1 else 0) (seq 0 n).

Definition head_part (n m : nat) (c : list Z) : list Z :=
  map (fun j => if (j <? m)%nat then nth j c 0 mod MOD else 0) (seq 0 n).

Definition zlist_eqb (a b : list Z) : bool :=
  (length a =? length b)%nat && forallb (fun p => fst p =? snd p) (combine a b).

(** On every unit vector the inverse transform agrees with the basis
    re-evaluation - exactly for the coset points singled out on the right. *)
Definition basis_check (extra : nat) (Q : Point) (k : Z) : bool :=
  match standard_coset_of Q k with
  | Ok D =>
      Bool.eqb
        (forallb (fun i =>
            match circle_ifft (Z.to_nat k + extra) (unit_vec (length D) i) D with
            | Ok v => zlist_eqb v (check_with_basis (unit_vec (length D) i) D)
            | Err _ => false
            end) (seq 0 (length D)))
        ((k <=? 1) || result_eqb (CirclePoint.double Q) (get_nth_generator k))
  | Err _ => false
  end.

Definition symmetric_outside_check (Q : Point) (k : Z) : bool :=
  match generate_subgroup k with
  | Ok G =>
      negb (result_eqb (CirclePoint.double Q) (get_nth_generator k))
      || (k =? 0) || negb (memb Q G)
  | Err _ => false
  end.

(** A dictionary whose keys are the keys of its values. *)
Definition keyed (d : list (Z * Z * Point)) : Prop :=
  forall k v, In (k, v) d -> k = point_key v.

(** The reconstruction step as a plain list, when its three inputs are long
    enough. *)
Definition rebuilt (sign : FE -> FE -> FE) (E O fs : list FE) (h : nat) : list FE :=
  map (fun i => sign (nth i E FieldElement.zero)
                     (FieldElement.mul (nth i fs FieldElement.zero)
                                       (nth i O FieldElement.zero)))
      (seq 0 h).

(** The x-domain is long enough for a squaring-map layer of size [2^k]. *)
Definition long_enough (k : nat) (xs : list FE) : Prop :=
  match k with
  | O => True
  | S k' => (2 ^ k' <= length xs)%nat
  end.

(** * Properties *)

(** ** Field arithmetic modulo [MOD] *)

Lemma MOD_gt_1 : 1 < MOD.
Proof. reflexivity. Qed.

Lemma MOD_nz : MOD <> 0.
Proof. discriminate. Qed.

Lemma mod_cong (a : Z) : a mod MOD ==m a.
Proof. apply Zmod_eqm. Qed.

Lemma cong_mod_eq (a b : Z) : a ==m b -> a mod MOD = b mod MOD.
Proof. exact (fun H => H). Qed.

Lemma init_canonical (v : Z) : canonical (FieldElement.init v).
Proof. unfold canonical, FieldElement.init; cbn. apply Z.mod_pos_bound. reflexivity. Qed.

Lemma init_value (a : FE) : canonical a -> FieldElement.init (FieldElement.value a) = a.
Proof.
  destruct a as [v]; unfold canonical, FieldElement.init; cbn; intros H.
  now rewrite Z.mod_small.
Qed.

Lemma FE_eq (a b : FE) : FieldElement.value a = FieldElement.value b -> a = b.
Proof. destruct a, b; cbn; congruence. Qed.

Lemma init_cong (a b : Z) : a ==m b -> FieldElement.init a = FieldElement.init b.
Proof. intros H. unfold FieldElement.init. f_equal. exact H. Qed.

Lemma value_init (v : Z) : FieldElement.value (FieldElement.init v) = v mod MOD.
Proof. reflexivity. Qed.

Lemma value_add a b :
  FieldElement.value (FieldElement.add a b) ==m FieldElement.value a + FieldElement.value b.
Proof. unfold FieldElement.add. rewrite value_init. now rewrite !mod_cong. Qed.

Lemma value_sub a b :
  FieldElement.value (FieldElement.sub a b) ==m FieldElement.value a - FieldElement.value b.
Proof. unfold FieldElement.sub. rewrite value_init. now rewrite !mod_cong. Qed.

Lemma value_mul a b :
  FieldElement.value (FieldElement.mul a b) ==m FieldElement.value a * FieldElement.value b.
Proof. unfold FieldElement.mul. rewrite value_init. now rewrite !mod_cong. Qed.

Lemma value_neg a :
  FieldElement.value (FieldElement.neg a) ==m - FieldElement.value a.
Proof. unfold FieldElement.neg. rewrite value_init. now rewrite !mod_cong. Qed.

Lemma value_square a :
  FieldElement.value (FieldElement.square a) ==m FieldElement.value a * FieldElement.value a.
Proof. apply value_mul. Qed.

Lemma value_double a :
  FieldElement.value (FieldElement.double a) ==m FieldElement.value a + FieldElement.value a.
Proof. apply value_add. Qed.

Lemma value_one : FieldElement.value FieldElement.one = 1.
Proof. reflexivity. Qed.

Lemma value_zero : FieldElement.value FieldElement.zero = 0.
Proof. reflexivity. Qed.

Lemma add_canonical a b : canonical (FieldElement.add a b).
Proof. apply init_canonical. Qed.
Lemma sub_canonical a b : canonical (FieldElement.sub a b).
Proof. apply init_canonical. Qed.
Lemma mul_canonical a b : canonical (FieldElement.mul a b).
Proof. apply init_canonical. Qed.

(** Two canonical elements with congruent representatives are equal. *)
Lemma canonical_cong_eq a b :
  canonical a -> canonical b ->
  FieldElement.value a ==m FieldElement.value b -> a = b.
Proof.
  unfold canonical, cong, eqm; intros Ha Hb H.
  apply FE_eq. rewrite !Z.mod_small in H; assumption.
Qed.

(** Rewrites the representative of every compound field expression into the
    integer expression it is congruent to. *)
Ltac push_value :=
  repeat first
    [ rewrite value_square | rewrite value_double
    | rewrite value_add | rewrite value_sub | rewrite value_mul | rewrite value_neg
    | rewrite value_one | rewrite value_zero ].

(** ** The circle group *)

Lemma on_circle_cong (P : Point) :
  on_circle P <->
  FieldElement.value (CirclePoint.x P) * FieldElement.value (CirclePoint.x P)
  + FieldElement.value (CirclePoint.y P) * FieldElement.value (CirclePoint.y P) ==m 1.
Proof.
  unfold on_circle. split; intros H.
  - transitivity (FieldElement.value
                    (FieldElement.add (FieldElement.square (CirclePoint.x P))
                                      (FieldElement.square (CirclePoint.y P)))).
    + symmetry. push_value. reflexivity.
    + rewrite H. reflexivity.
  - pose proof (add_canonical (FieldElement.square (CirclePoint.x P))
                              (FieldElement.square (CirclePoint.y P))) as Hc.
    revert Hc. unfold canonical.
    set (v := FieldElement.value _). intros Hc.
    assert (Hv : v ==m 1) by (subst v; push_value; exact H).
    unfold cong, eqm in Hv. rewrite (Z.mod_small v), (Z.mod_small 1) in Hv; auto.
    pose proof MOD_gt_1; lia.
Qed.

Lemma init_ok (a b : FE) :
  on_circle (CirclePoint.mk a b) -> CirclePoint.init a b = Ok (CirclePoint.mk a b).
Proof.
  unfold on_circle, CirclePoint.init; cbn [CirclePoint.x CirclePoint.y].
  intros ->. reflexivity.
Qed.

Lemma init_inv (a b : FE) (P : Point) :
  CirclePoint.init a b = Ok P -> P = CirclePoint.mk a b /\ on_circle P.
Proof.
  unfold CirclePoint.init.
  destruct (Z.eqb_spec (FieldElement.value
              (FieldElement.add (FieldElement.square a) (FieldElement.square b))) 1) as [E|E];
    cbn; intros H; inversion H; subst. split; [reflexivity | exact E].
Qed.

Lemma add_on_circle (P R : Point) :
  on_circle P -> on_circle R ->
  exists S, CirclePoint.add P R = Ok S /\ on_circle S.
Proof.
  intros HP HR. unfold CirclePoint.add.
  eexists; split; [apply init_ok | ]; apply on_circle_cong;
    apply on_circle_cong in HP, HR; cbn [CirclePoint.x CirclePoint.y];
    push_value;
    set (x1 := FieldElement.value (CirclePoint.x P)) in *;
    set (y1 := FieldElement.value (CirclePoint.y P)) in *;
    set (x2 := FieldElement.value (CirclePoint.x R)) in *;
    set (y2 := FieldElement.value (CirclePoint.y R)) in *;
    (replace ((x1 * x2 - y1 * y2) * (x1 * x2 - y1 * y2)
              + (x1 * y2 + x2 * y1) * (x1 * y2 + x2 * y1))
       with ((x1 * x1 + y1 * y1) * (x2 * x2 + y2 * y2)) by ring);
    rewrite HP, HR; reflexivity.
Qed.

Lemma double_on_circle (P : Point) :
  on_circle P -> exists S, CirclePoint.double P = Ok S /\ on_circle S.
Proof.
  intros HP. unfold CirclePoint.double.
  eexists; split; [apply init_ok | ]; apply on_circle_cong;
    apply on_circle_cong in HP; cbn [CirclePoint.x CirclePoint.y];
    push_value;
    set (x1 := FieldElement.value (CirclePoint.x P)) in *;
    set (y1 := FieldElement.value (CirclePoint.y P)) in *;
    (replace ((x1 * x1 + x1 * x1 - 1) * (x1 * x1 + x1 * x1 - 1)
              + (x1 + x1) * y1 * ((x1 + x1) * y1))
       with (4 * (x1 * x1) * (x1 * x1 + y1 * y1) - 4 * (x1 * x1) + 1) by ring);
    rewrite HP; (replace (4 * (x1 * x1) * 1 - 4 * (x1 * x1) + 1) with 1 by ring);
    reflexivity.
Qed.

Lemma inverse_on_circle (P : Point) :
  on_circle P -> exists S, CirclePoint.inverse P = Ok S /\ on_circle S.
Proof.
  intros HP. unfold CirclePoint.inverse.
  eexists; split; [apply init_ok | ]; apply on_circle_cong;
    apply on_circle_cong in HP; cbn [CirclePoint.x CirclePoint.y];
    push_value;
    (rewrite Z.mul_opp_opp); exact HP.
Qed.

Lemma identity_ok : CirclePoint.identity = Ok (pt 1 0).
Proof. reflexivity. Qed.

Lemma identity_on_circle : on_circle (pt 1 0).
Proof. reflexivity. Qed.

Lemma power_loop_on_circle (tmp : positive) :
  forall out base, on_circle out -> on_circle base ->
  exists S, CirclePoint.power_loop tmp out base = Ok S /\ on_circle S.
Proof.
  induction tmp as [q IH | q IH | ]; intros out base Ho Hb; cbn [CirclePoint.power_loop].
  - destruct (add_on_circle out base Ho Hb) as (o' & -> & Ho').
    destruct (double_on_circle base Hb) as (b' & -> & Hb').
    cbn [bind]. now apply IH.
  - destruct (double_on_circle base Hb) as (b' & -> & Hb').
    cbn [bind]. now apply IH.
  - destruct (add_on_circle out base Ho Hb) as (o' & -> & Ho').
    destruct (double_on_circle base Hb) as (b' & -> & Hb').
    cbn [bind]. eauto.
Qed.

Lemma power_on_circle (P : Point) (n : Z) :
  on_circle P -> 0 <= n -> exists S, CirclePoint.power P n = Ok S /\ on_circle S.
Proof.
  intros HP Hn. unfold CirclePoint.power.
  destruct (Z.ltb_spec n 0) as [?|_]; [lia|].
  rewrite identity_ok. cbn [bind].
  rewrite init_ok by (destruct P; exact HP). cbn [bind].
  destruct n as [|p|p].
  - eexists; split; [reflexivity | exact identity_on_circle].
  - apply power_loop_on_circle; [exact identity_on_circle | destruct P; exact HP].
  - lia.
Qed.

(** C9: the group operations keep the circle equation, so the constructor's
    validation never raises inside [add], [double], [inverse] or [power]
    (for a non-negative exponent) when the operands are on the circle. *)
Theorem group_operations_stay_on_circle (P R : Point) :
  on_circle P -> on_circle R ->
  (exists S, CirclePoint.add P R = Ok S /\ on_circle S) /\
  (exists S, CirclePoint.double P = Ok S /\ on_circle S) /\
  (exists S, CirclePoint.inverse P = Ok S /\ on_circle S) /\
  (forall n, 0 <= n -> exists S, CirclePoint.power P n = Ok S /\ on_circle S).
Proof.
  intros HP HR. repeat split.
  - now apply add_on_circle.
  - now apply double_on_circle.
  - now apply inverse_on_circle.
  - intros n Hn. now apply power_on_circle.
Qed.

Lemma group_operations_stay_on_circle_witness :
  on_circle (pt 13 7) /\ on_circle (pt 30 0) /\
  (exists S, CirclePoint.add (pt 13 7) (pt 30 0) = Ok S /\ on_circle S) /\
  (exists S, CirclePoint.power (pt 13 7) 32 = Ok S /\ on_circle S).
Proof.
  assert (H1 : on_circle (pt 13 7)) by reflexivity.
  assert (H2 : on_circle (pt 30 0)) by reflexivity.
  destruct (group_operations_stay_on_circle (pt 13 7) (pt 30 0) H1 H2)
    as (Ha & _ & _ & Hp).
  split; [exact H1 | split; [exact H2 | split; [exact Ha | apply Hp; lia]]].
Defined.

(** The two results agree as computed values: [double] and [add] build the
    same constructor call on a point of the circle. *)
Lemma double_agrees_with_add (P : Point) :
  on_circle P -> CirclePoint.double P = CirclePoint.add P P.
Proof.
  intros HP. apply on_circle_cong in HP.
  unfold CirclePoint.double, CirclePoint.add.
  set (x1 := FieldElement.value (CirclePoint.x P)) in *.
  set (y1 := FieldElement.value (CirclePoint.y P)) in *.
  f_equal.
  - apply canonical_cong_eq; try apply sub_canonical.
    push_value. fold x1 y1.
    replace (x1 * x1 - y1 * y1) with (x1 * x1 + x1 * x1 - (x1 * x1 + y1 * y1)) by ring.
    now rewrite HP.
  - apply canonical_cong_eq; [apply mul_canonical | apply add_canonical | ].
    push_value. fold x1 y1.
    replace ((x1 + x1) * y1) with (x1 * y1 + x1 * y1) by ring. reflexivity.
Qed.

(** The coordinates of the point [double] builds, as residues. *)
Lemma double_builds_squaring_map (a b : FE) :
  FieldElement.value
    (FieldElement.sub (FieldElement.double (FieldElement.square a)) FieldElement.one)
  = (2 * (FieldElement.value a * FieldElement.value a) - 1) mod MOD /\
  FieldElement.value (FieldElement.mul (FieldElement.double a) b)
  = (2 * FieldElement.value a * FieldElement.value b) mod MOD.
Proof.
  split.
  - rewrite <- (Z.mod_small _ MOD (sub_canonical _ _)). apply cong_mod_eq.
    push_value. set (x1 := FieldElement.value a).
    replace (x1 * x1 + x1 * x1 - 1) with (2 * (x1 * x1) - 1) by ring. reflexivity.
  - rewrite <- (Z.mod_small _ MOD (mul_canonical _ _)). apply cong_mod_eq.
    push_value. set (x1 := FieldElement.value a). set (y1 := FieldElement.value b).
    replace ((x1 + x1) * y1) with (2 * x1 * y1) by ring. reflexivity.
Qed.

(** The point [double] builds lies on the circle whenever its argument does. *)
Lemma squaring_map_on_circle (a b : FE) :
  on_circle (CirclePoint.mk a b) ->
  on_circle
    (CirclePoint.mk
       (FieldElement.sub (FieldElement.double (FieldElement.square a)) FieldElement.one)
       (FieldElement.mul (FieldElement.double a) b)).
Proof.
  intros HP. apply on_circle_cong. apply on_circle_cong in HP.
  cbn [CirclePoint.x CirclePoint.y] in *. push_value.
  set (x1 := FieldElement.value a) in *. set (y1 := FieldElement.value b) in *.
  replace ((x1 * x1 + x1 * x1 - 1) * (x1 * x1 + x1 * x1 - 1)
           + (x1 + x1) * y1 * ((x1 + x1) * y1))
    with (4 * (x1 * x1) * (x1 * x1 + y1 * y1) - 4 * (x1 * x1) + 1) by ring.
  rewrite HP. replace (4 * (x1 * x1) * 1 - 4 * (x1 * x1) + 1) with 1 by ring.
  reflexivity.
Qed.

(** [double] returns the point of the squaring map. *)
Lemma double_returns_squaring_map (a b : FE) :
  on_circle (CirclePoint.mk a b) ->
  CirclePoint.double (CirclePoint.mk a b)
  = Ok (CirclePoint.mk
          (FieldElement.sub (FieldElement.double (FieldElement.square a)) FieldElement.one)
          (FieldElement.mul (FieldElement.double a) b)).
Proof.
  intros HP. unfold CirclePoint.double. cbn [CirclePoint.x CirclePoint.y].
  apply init_ok. now apply squaring_map_on_circle.
Qed.

(** C8: on a point of the circle, [double] and [add] of the point with itself
    both return a point, the same one; it lies on the circle and its
    coordinates are those of the squaring map, [(2x^2 - 1, 2xy)] modulo
    [MOD]. *)
Theorem double_is_add_self (P : Point) :
  on_circle P ->
  exists S,
    CirclePoint.double P = Ok S /\
    CirclePoint.add P P = Ok S /\
    on_circle S /\
    FieldElement.value (CirclePoint.x S)
    = (2 * (FieldElement.value (CirclePoint.x P) * FieldElement.value (CirclePoint.x P)) - 1)
        mod MOD /\
    FieldElement.value (CirclePoint.y S)
    = (2 * FieldElement.value (CirclePoint.x P) * FieldElement.value (CirclePoint.y P))
        mod MOD.
Proof.
  intros HP. pose proof (double_agrees_with_add P HP) as Ea.
  destruct P as [a b].
  pose proof (double_returns_squaring_map a b HP) as Ed.
  pose proof (squaring_map_on_circle a b HP) as Hc.
  pose proof (double_builds_squaring_map a b) as (Ex & Ey).
  eexists. split; [exact Ed | ].
  split; [rewrite <- Ea; exact Ed | ].
  split; [exact Hc | ].
  split; [exact Ex | exact Ey].
Qed.

Lemma double_is_add_self_witness :
  on_circle (pt 13 7) /\
  exists S,
    CirclePoint.double (pt 13 7) = Ok S /\
    CirclePoint.add (pt 13 7) (pt 13 7) = Ok S /\
    on_circle S /\
    FieldElement.value (CirclePoint.x S) = (2 * (13 * 13) - 1) mod MOD /\
    FieldElement.value (CirclePoint.y S) = (2 * 13 * 7) mod MOD.
Proof.
  assert (H : on_circle (pt 13 7)) by reflexivity.
  split; [exact H | exact (double_is_add_self (pt 13 7) H)].
Defined.

(** ** Enumerating the circle *)

Lemma range_In (lo hi a : Z) : In a (range lo hi) <-> lo <= a < hi.
Proof.
  unfold range. rewrite in_map_iff. split.
  - intros (i & <- & Hi). apply in_seq in Hi. lia.
  - intros H. exists (Z.to_nat (a - lo)). split; [lia | apply in_seq; lia].
Qed.

Lemma valid_point_enumerated (P : Point) : valid_point P <-> In P circle_points.
Proof.
  unfold circle_points. rewrite filter_In, in_map_iff. split.
  - intros (Hx & Hy & Hc). split.
    + exists (FieldElement.value (CirclePoint.x P), FieldElement.value (CirclePoint.y P)).
      split; [destruct P as [[a] [b]]; reflexivity | ].
      apply in_prod; apply range_In; assumption.
    + unfold on_circle_b. now apply Z.eqb_eq.
  - intros (((a, b) & <- & Hab) & Hc).
    apply in_prod_iff in Hab. destruct Hab as (Ha%range_In & Hb%range_In).
    repeat split; cbn; try lia. now apply Z.eqb_eq in Hc.
Qed.

Lemma point_eqb_eq (P R : Point) : CirclePoint.eqb P R = true <-> P = R.
Proof.
  unfold CirclePoint.eqb, FieldElement.eqb. rewrite andb_true_iff, !Z.eqb_eq.
  destruct P as [[a] [b]], R as [[c] [d]]; cbn. split.
  - intros (-> & ->); reflexivity.
  - intros H; inversion H; auto.
Qed.

Lemma memb_In (P : Point) (l : list Point) : memb P l = true <-> In P l.
Proof.
  unfold memb. rewrite existsb_exists. split.
  - intros (R & HR & E). apply point_eqb_eq in E. now subst.
  - intros H. exists P. split; [assumption | now apply point_eqb_eq].
Qed.

Lemma same_set_spec (a b : list Point) :
  same_set a b = true <-> (forall P, In P a <-> In P b).
Proof.
  unfold same_set. rewrite andb_true_iff, !forallb_forall. split.
  - intros (H1 & H2) P. split; intros H; apply memb_In; auto.
  - intros H. split; intros P HP; apply memb_In, H, HP.
Qed.

Lemma distinct_NoDup (l : list Point) : distinct l = true -> NoDup l.
Proof.
  induction l as [|P l IH]; cbn; intros H; constructor;
    apply andb_true_iff in H; destruct H as (H1 & H2).
  - intros Hin. apply memb_In in Hin. rewrite Hin in H1. discriminate.
  - auto.
Qed.

Lemma list_eqb_eq (a b : list Point) : list_eqb a b = true <-> a = b.
Proof.
  unfold list_eqb. rewrite andb_true_iff, Nat.eqb_eq. revert b.
  induction a as [|P a IH]; intros [|R b]; cbn; split; try easy.
  - intros (Hl & H). apply andb_true_iff in H. destruct H as (E & H).
    apply point_eqb_eq in E. subst. f_equal. apply IH. split; [lia | assumption].
  - intros H; inversion H; subst. split; [reflexivity | ].
    apply andb_true_iff. split; [now apply point_eqb_eq | now apply IH].
Qed.

(** A subgroup size that divides [MOD + 1] is one of [2^0 .. 2^5]. *)
Lemma subgroup_exponent_bound (k : Z) :
  0 <= k -> (MOD + 1) mod 2 ^ k = 0 -> k <= 5.
Proof.
  intros Hk Hd. destruct (Z_le_gt_dec k 5) as [|Hgt]; [assumption | exfalso].
  assert (H64 : 2 ^ 6 <= 2 ^ k) by (apply Z.pow_le_mono_r; lia).
  change (2 ^ 6) with 64 in H64.
  rewrite Z.mod_small in Hd by (change (MOD + 1) with 32; lia).
  discriminate.
Qed.

Lemma small_exponent_cases (k : Z) :
  0 <= k <= 5 -> k = 0 \/ k = 1 \/ k = 2 \/ k = 3 \/ k = 4 \/ k = 5.
Proof. lia. Qed.

Lemma pt_valid (a b : Z) : on_circle (pt a b) -> valid_point (pt a b).
Proof. intros H. split; [ | split]; [apply init_canonical | apply init_canonical | exact H]. Qed.

Lemma valid_13_7 : valid_point (pt 13 7).
Proof. apply pt_valid. reflexivity. Qed.

(** ** Subgroups *)

Lemma subgroup_check_sound (k : Z) :
  subgroup_check k = true ->
  exists g G, get_nth_generator k = Ok g /\ generate_subgroup k = Ok G /\
              is_subgroup_of_generator k g G.
Proof.
  unfold subgroup_check.
  destruct (get_nth_generator k) as [g|]; [|discriminate].
  destruct (generate_subgroup k) as [G|]; [|discriminate].
  rewrite !andb_true_iff. intros (((Hlen & Hd) & Hclosed) & Hidx).
  exists g, G. repeat split; try reflexivity.
  - now apply Z.eqb_eq.
  - now apply distinct_NoDup.
  - intros P R HP HR. rewrite forallb_forall in Hclosed.
    specialize (Hclosed P HP). rewrite forallb_forall in Hclosed.
    specialize (Hclosed R HR).
    destruct (CirclePoint.add P R) as [W|]; [|discriminate].
    exists W. split; [reflexivity | now apply memb_In].
  - intros i Hi. rewrite forallb_forall in Hidx.
    specialize (Hidx i (proj2 (range_In 0 (2 ^ k) i) Hi)).
    destruct (CirclePoint.power g i) as [P|]; [|discriminate].
    destruct (nth_error G (Z.to_nat i)) as [P'|]; [|discriminate].
    apply point_eqb_eq in Hidx. subst. eauto.
Qed.

(** C7: when [2^k] divides [MOD + 1], [generate_subgroup k] returns [2^k]
    pairwise distinct points, closed under the group law, with [i * g_k] at
    index [i] for the generator [g_k] returned by [get_nth_generator k]. *)
Theorem generate_subgroup_is_subgroup (k : Z) :
  0 <= k -> (MOD + 1) mod 2 ^ k = 0 ->
  exists g G, get_nth_generator k = Ok g /\ generate_subgroup k = Ok G /\
              is_subgroup_of_generator k g G.
Proof.
  intros Hk Hd. pose proof (subgroup_exponent_bound k Hk Hd) as Hb.
  apply subgroup_check_sound.
  destruct (small_exponent_cases k (conj Hk Hb)) as [-> | [-> | [-> | [-> | [-> | ->]]]]];
    vm_compute; reflexivity.
Qed.

Lemma generate_subgroup_is_subgroup_witness :
  exists g G, get_nth_generator 3 = Ok g /\ generate_subgroup 3 = Ok G /\
              is_subgroup_of_generator 3 g G.
Proof.
  apply (generate_subgroup_is_subgroup 3); [lia | reflexivity].
Defined.

Lemma generate_subgroup_exponent (k : Z) (G : list Point) :
  generate_subgroup k = Ok G -> 0 <= k <= 5.
Proof.
  unfold generate_subgroup, get_nth_generator, shl1.
  destruct (Z.ltb_spec k 0) as [|Hk]; [discriminate | cbn [bind]].
  rewrite Z.shiftl_1_l.
  destruct (Z.eqb_spec ((MOD + 1) mod 2 ^ k) 0) as [Hd|]; [|discriminate].
  intros _. split; [assumption | now apply subgroup_exponent_bound].
Qed.

(** ** Twin cosets and standard position cosets *)





(** ** Halving by the squaring map *)

Lemma key_leb_total (a b : Z * Z) : key_leb a b = false -> key_leb b a = true.
Proof.
  unfold key_leb. rewrite orb_false_iff, orb_true_iff, andb_false_iff, andb_true_iff.
  rewrite !Z.ltb_lt, !Z.ltb_ge, !Z.eqb_eq, Z.eqb_neq, Z.leb_le, Z.leb_gt. lia.
Qed.

Lemma insert_by_key_ascending (p : Point) (l : list Point) :
  ascending l -> ascending (insert_by_key p l).
Proof.
  induction 1 as [ | P | P R l HPR Hl IH]; cbn [insert_by_key].
  - constructor.
  - destruct (key_leb (point_key p) (point_key P)) eqn:E.
    + constructor; [exact E | constructor].
    + constructor; [exact (key_leb_total _ _ E) | constructor].
  - destruct (key_leb (point_key p) (point_key P)) eqn:E.
    + constructor; [exact E | now constructor].
    + cbn [insert_by_key] in IH.
      destruct (key_leb (point_key p) (point_key R)) eqn:E'.
      * constructor; [exact (key_leb_total _ _ E) | now constructor].
      * constructor; assumption.
Qed.

Lemma sort_by_key_ascending (l : list Point) : ascending (sort_by_key l).
Proof.
  induction l as [|p l IH]; cbn [sort_by_key];
    [constructor | now apply insert_by_key_ascending].
Qed.

Lemma halve_ascending (D H : list Point) :
  halve_standard_position_coset_by_squaring_map D = Ok H -> ascending H.
Proof.
  unfold halve_standard_position_coset_by_squaring_map.
  destruct (mapM CirclePoint.double D) as [new_points|]; cbn [bind]; [|discriminate].
  intros E; inversion E. apply sort_by_key_ascending.
Qed.

Lemma halve_check_all :
  forallb (fun Q => forallb (halve_check Q) (range 1 6)) circle_points = true.
Proof. vm_compute. reflexivity. Qed.

(** C6: halving a standard position coset of size [2^n], [n >= 1], gives
    [len(D) / 2] pairwise distinct points, the image of [D] under the squaring
    map, in ascending order of [(x.value, y.value)]. *)
Theorem halve_standard_position_coset (Q : Point) (n : Z) (G D : list Point) :
  valid_point Q -> 1 <= n ->
  generate_subgroup n = Ok G ->
  generate_standard_position_coset Q G = Ok D ->
  exists H,
    halve_standard_position_coset_by_squaring_map D = Ok H /\
    Z.of_nat (length D) = 2 ^ n /\
    (2 * length H = length D)%nat /\
    NoDup H /\
    (forall P, In P H <-> exists R, In R D /\ CirclePoint.double R = Ok P) /\
    ascending H.
Proof.
  intros HQ Hn HG HD.
  pose proof (generate_subgroup_exponent n G HG) as Hb.
  pose proof halve_check_all as Hall.
  rewrite forallb_forall in Hall.
  specialize (Hall Q (proj1 (valid_point_enumerated Q) HQ)).
  rewrite forallb_forall in Hall.
  specialize (Hall n (proj2 (range_In 1 6 n) ltac:(lia))).
  unfold halve_check, standard_coset_of in Hall.
  rewrite HG in Hall. cbn [bind] in Hall. rewrite HD in Hall.
  destruct (halve_standard_position_coset_by_squaring_map D) as [H|] eqn:EH; [|discriminate].
  rewrite !andb_true_iff in Hall. destruct Hall as (((Hlen & Hd) & Himg) & Hcov).
  apply Nat.eqb_eq in Hlen.
  exists H. split; [reflexivity | ].
  split; [ | split; [exact Hlen | split; [now apply distinct_NoDup | split]]].
  - assert (Hs : subgroup_check n = true).
    { destruct (small_exponent_cases n ltac:(lia)) as [-> | [-> | [-> | [-> | [-> | ->]]]]];
        vm_compute; reflexivity. }
    apply subgroup_check_sound in Hs. destruct Hs as (g & G' & _ & HG' & HlenG & _).
    rewrite HG in HG'. inversion HG'; subst G'.
    rewrite <- HlenG. f_equal.
    clear -HD. unfold generate_standard_position_coset in HD.
    revert D HD. induction G as [|a G IH]; cbn; intros D HD.
    + inversion HD. reflexivity.
    + destruct (CirclePoint.add Q a); cbn in HD; [|discriminate].
      destruct (mapM _ G) as [D'|]; cbn in HD; [|discriminate].
      inversion HD. cbn. f_equal. now apply IH.
  - intros P. split.
    + intros HP. rewrite forallb_forall in Himg. specialize (Himg P HP).
      apply existsb_exists in Himg. destruct Himg as (R & HR & E).
      exists R. split; [assumption | ].
      destruct (CirclePoint.double R) as [P'|]; [|discriminate].
      apply point_eqb_eq in E. now subst.
    + intros (R & HR & E). rewrite forallb_forall in Hcov. specialize (Hcov R HR).
      rewrite E in Hcov. now apply memb_In.
  - now apply halve_ascending with (D := D).
Qed.

Lemma halve_standard_position_coset_witness :
  valid_point (pt 13 7) /\
  generate_subgroup 3 = Ok G3 /\
  generate_standard_position_coset (pt 13 7) G3 = Ok D_13_7 /\
  exists H,
    halve_standard_position_coset_by_squaring_map D_13_7 = Ok H /\
    Z.of_nat (length D_13_7) = 2 ^ 3 /\
    (2 * length H = length D_13_7)%nat /\
    NoDup H /\
    (forall P, In P H <-> exists R, In R D_13_7 /\ CirclePoint.double R = Ok P) /\
    ascending H.
Proof.
  assert (HQ : valid_point (pt 13 7)) by exact valid_13_7.
  assert (HG : generate_subgroup 3 = Ok G3) by reflexivity.
  assert (HD : generate_standard_position_coset (pt 13 7) G3 = Ok D_13_7) by reflexivity.
  split; [exact HQ | split; [exact HG | split; [exact HD | ]]].
  apply (halve_standard_position_coset (pt 13 7) 3 G3 D_13_7 HQ); [lia | exact HG | exact HD].
Defined.

(** ** Decomposition into twin cosets *)

(** Only the length of [D] is read; its points are not. *)
Lemma decompose_reads_only_the_length (Q : Point) (D D' : list Point) (n m : Z) :
  length D = length D' ->
  decompose_to_twin_cosets Q D n m = decompose_to_twin_cosets Q D' n m.
Proof. intros E. unfold decompose_to_twin_cosets. now rewrite E. Qed.

Lemma decompose_length_assertion (Q : Point) (D : list Point) (n m : Z) :
  0 <= m -> Z.of_nat (length D) <> 2 ^ m ->
  decompose_to_twin_cosets Q D n m = Err AssertionError.
Proof.
  intros Hm Hlen. unfold decompose_to_twin_cosets, shl1.
  destruct (Z.ltb_spec m 0); [lia | cbn [bind]].
  rewrite Z.shiftl_1_l.
  destruct (Z.eqb_spec (Z.of_nat (length D)) (2 ^ m)); [contradiction | reflexivity].
Qed.

(** With the module-level [Q] equal to the coset point of [D], the notebook's
    call returns the two twin cosets it prints. *)
Example decompose_with_matching_global :
  decompose_to_twin_cosets (pt 13 7) D_13_7 2 3
  = Ok [[pt 13 7; pt 18 24; pt 13 24; pt 18 7];
        [pt 24 13; pt 7 18; pt 24 18; pt 7 13]].
Proof. reflexivity. Qed.

(** C4: the routine has no coset-point parameter.  With the module-level [Q]
    bound to [(2, 11)] and [D] the standard position coset of [(13, 7)], it
    returns twin cosets of [(2, 11)], which contain points outside [D]. *)
Theorem decompose_uses_the_global_coset_point :
  generate_standard_position_coset (pt 13 7) G3 = Ok D_13_7 /\
  exists tcs,
    decompose_to_twin_cosets (pt 2 11) D_13_7 2 3 = Ok tcs /\
    nth_error tcs 0 = Some [pt 2 11; pt 29 20; pt 2 20; pt 29 11] /\
    ~ In (pt 2 11) D_13_7.
Proof.
  split; [reflexivity | ].
  eexists. split; [vm_compute; reflexivity | ].
  split; [reflexivity | ].
  intros H. repeat (destruct H as [H | H]; [discriminate H | ]). exact H.
Qed.

(** ** The length guard of the transforms *)

Lemma land_double_l (a b : Z) : Z.land (2 * a) (2 * b + 1) = 2 * Z.land a b.
Proof.
  apply Z.bits_inj'. intros i Hi. rewrite Z.land_spec.
  destruct (Z.eq_dec i 0) as [-> | Hne].
  - rewrite !Z.testbit_even_0. reflexivity.
  - replace i with (Z.succ (i - 1)) by lia.
    rewrite !Z.testbit_even_succ, Z.testbit_odd_succ, Z.land_spec by lia. reflexivity.
Qed.

Lemma land_pred_pow2 (p : positive) :
  Z.land (Zpos p) (Zpos p - 1) = 0 -> exists k, 0 <= k /\ Zpos p = 2 ^ k.
Proof.
  induction p as [q IH | q IH | ]; intros H.
  - exfalso. rewrite Pos2Z.inj_xI in H.
    replace (2 * Z.pos q + 1 - 1) with (2 * Z.pos q) in H by lia.
    rewrite Z.land_comm, land_double_l, Z.land_diag in H. lia.
  - rewrite Pos2Z.inj_xO in H.
    replace (2 * Z.pos q - 1) with (2 * (Z.pos q - 1) + 1) in H by lia.
    rewrite land_double_l in H.
    destruct IH as (k & Hk & E); [lia | ].
    exists (k + 1). split; [lia | ].
    rewrite Pos2Z.inj_xO, E, Z.pow_add_r by lia. lia.
  - exists 0. split; [lia | reflexivity].
Qed.

Lemma land_pow2_pred (k : Z) : 0 <= k -> Z.land (2 ^ k) (2 ^ k - 1) = 0.
Proof.
  intros Hk. rewrite Z.sub_1_r, <- Z.ones_equiv.
  rewrite Z.land_ones by assumption. apply Z.mod_same.
  apply Z.pow_nonzero; lia.
Qed.

(** The guard lets through the equal lengths that are a power of two - and
    the length zero. *)
Lemma bad_length_spec {A B} (a : list A) (b : list B) :
  bad_length a b = false <->
  length a = length b /\
  (length a = 0%nat \/ exists k, 0 <= k /\ Z.of_nat (length a) = 2 ^ k).
Proof.
  unfold bad_length. rewrite orb_false_iff, !negb_false_iff, Nat.eqb_eq, Z.eqb_eq.
  split; intros (Hl & H); (split; [exact Hl | ]).
  - destruct (length a) as [|n] eqn:E; [now left | right].
    rewrite <- E in *.
    assert (Hp : exists p, Z.of_nat (length a) = Zpos p).
    { rewrite E. exists (Pos.of_succ_nat n). reflexivity. }
    destruct Hp as (p & Hp). rewrite Hp in *. now apply land_pred_pow2.
  - destruct H as [-> | (k & Hk & ->)]; [reflexivity | now apply land_pow2_pred].
Qed.

Lemma fft_squaring_map_empty (fuel : nat) :
  _fft_squaring_map_x fuel [] [] = Err RecursionError.
Proof. induction fuel as [|fuel IH]; [reflexivity | cbn; rewrite IH; reflexivity]. Qed.

Lemma ifft_squaring_map_empty (fuel : nat) :
  _ifft_squaring_map_x fuel [] [] = Err RecursionError.
Proof. induction fuel as [|fuel IH]; [reflexivity | cbn; rewrite IH; reflexivity]. Qed.

(** C3: the guard [len(v) & (len(v) - 1)] is zero for the empty vector, so
    an empty vector with an empty domain is not rejected; the squaring-map
    layer then calls itself on the empty list at every depth. *)
Theorem empty_vector_passes_the_length_guard (fuel : nat) :
  bad_length (@nil Z) (@nil Point) = false /\
  circle_fft fuel [] [] = Err RecursionError /\
  circle_ifft fuel [] [] = Err RecursionError.
Proof.
  split; [reflexivity | ].
  unfold circle_fft, circle_ifft, _fft_quotient_map_y, _ifft_quotient_map_y.
  cbn. rewrite fft_squaring_map_empty, ifft_squaring_map_empty. split; reflexivity.
Qed.

(** Apart from the empty vector the guard is as the message says. *)
Lemma size_mismatch_raised (fuel : nat) (v : list Z) (D : list Point) :
  length v <> length D \/
  (length v <> 0%nat /\ ~ exists k, 0 <= k /\ Z.of_nat (length v) = 2 ^ k) ->
  circle_fft fuel v D = Err (ValueError LengthMismatch) /\
  circle_ifft fuel v D = Err (ValueError LengthMismatch).
Proof.
  intros H. unfold circle_fft, circle_ifft.
  destruct (bad_length v D) eqn:E; [split; reflexivity | exfalso].
  apply bad_length_spec in E. destruct E as (Hl & Hp).
  destruct H as [H | (H0 & Hk)]; [contradiction | ].
  destruct Hp as [Hp | Hp]; contradiction.
Qed.

(** ** The notebook's round trip *)

(** C2: over the standard position coset of [Q = (24, 18)] and the size-8
    subgroup, the forward transform of [[1,2,4,8,16,1,2,4]] is
    [[28,16,16,27,20,12,28,27]] and the inverse transform gives the
    evaluations back.  Three nested calls of the squaring-map layer are needed
    (sizes 4, 2 and 1). *)
Theorem notebook_round_trip (fuel : nat) :
  (3 <= fuel)%nat ->
  generate_subgroup 3 = Ok G3 /\
  generate_standard_position_coset (pt 24 18) G3 = Ok D_24_18 /\
  circle_fft fuel [1; 2; 4; 8; 16; 1; 2; 4] D_24_18
    = Ok [28; 16; 16; 27; 20; 12; 28; 27] /\
  circle_ifft fuel [28; 16; 16; 27; 20; 12; 28; 27] D_24_18
    = Ok [1; 2; 4; 8; 16; 1; 2; 4].
Proof.
  intros Hf. destruct fuel as [|[|[|fuel]]]; try lia.
  repeat split; vm_compute; reflexivity.
Qed.

Lemma notebook_round_trip_witness :
  generate_subgroup 3 = Ok G3 /\
  generate_standard_position_coset (pt 24 18) G3 = Ok D_24_18 /\
  circle_fft 1000 [1; 2; 4; 8; 16; 1; 2; 4] D_24_18
    = Ok [28; 16; 16; 27; 20; 12; 28; 27] /\
  circle_ifft 1000 [28; 16; 16; 27; 20; 12; 28; 27] D_24_18
    = Ok [1; 2; 4; 8; 16; 1; 2; 4].
Proof.
  apply (notebook_round_trip 1000). apply Nat.leb_le. reflexivity.
Defined.

(** ** Comprehensions, slices and strides *)

Section ListFacts.
Context {A B : Type}.

Lemma mapM_length (f : A -> result B) (l : list A) (bs : list B) :
  mapM f l = Ok bs -> length bs = length l.
Proof.
  revert bs. induction l as [|a l IH]; cbn; intros bs H.
  - inversion H. reflexivity.
  - destruct (f a); cbn in H; [|discriminate].
    destruct (mapM f l); cbn in H; [|discriminate].
    inversion H. cbn. f_equal. now apply IH.
Qed.

Lemma mapM_Forall (P : B -> Prop) (f : A -> result B) (l : list A) (bs : list B) :
  (forall a b, f a = Ok b -> P b) -> mapM f l = Ok bs -> Forall P bs.
Proof.
  intros Hf. revert bs. induction l as [|a l IH]; cbn; intros bs H.
  - inversion H. constructor.
  - destruct (f a) eqn:Ea; cbn in H; [|discriminate].
    destruct (mapM f l); cbn in H; [|discriminate].
    inversion H. constructor; eauto.
Qed.

Lemma mapM_seq_pure (f : nat -> result B) (g : nat -> B) (len start : nat) :
  (forall i, (start <= i < start + len)%nat -> f i = Ok (g i)) ->
  mapM f (seq start len) = Ok (map g (seq start len)).
Proof.
  revert start. induction len as [|len IH]; intros start Hf; cbn; [reflexivity | ].
  rewrite Hf by lia. cbn [bind]. rewrite IH; [reflexivity | ].
  intros i Hi. apply Hf. lia.
Qed.

Lemma getitem_nth (l : list A) (i : nat) (d : A) :
  (i < length l)%nat -> getitem l i = Ok (nth i l d).
Proof. intros H. unfold getitem. now rewrite nth_error_nth' with (d := d). Qed.

Lemma getitem_some (l : list A) (i : nat) (a : A) :
  nth_error l i = Some a -> getitem l i = Ok a.
Proof. intros H. unfold getitem. now rewrite H. Qed.

Lemma getitem_In (l : list A) (i : nat) (a : A) : getitem l i = Ok a -> In a l.
Proof.
  unfold getitem. destruct (nth_error l i) eqn:E; intros H; inversion H; subst.
  eapply nth_error_In; eassumption.
Qed.

Lemma getitem_map_seq (g : nat -> A) (h i : nat) :
  (i < h)%nat -> getitem (map g (seq 0 h)) i = Ok (g i).
Proof.
  intros H. apply getitem_some. rewrite nth_error_map.
  rewrite nth_error_nth' with (d := 0%nat) by (rewrite length_seq; exact H).
  rewrite seq_nth by exact H. reflexivity.
Qed.

Lemma map_nth_seq (l : list A) (d : A) :
  map (fun i => nth i l d) (seq 0 (length l)) = l.
Proof.
  apply nth_ext with (d := d) (d' := d).
  - now rewrite length_map, length_seq.
  - intros n Hn. rewrite length_map, length_seq in Hn.
    rewrite nth_indep with (d' := nth 0 l d) by (now rewrite length_map, length_seq).
    rewrite (map_nth (fun i => nth i l d) (seq 0 (length l)) 0%nat n).
    now rewrite seq_nth.
Qed.

Lemma Forall_firstn (P : A -> Prop) (n : nat) (l : list A) :
  Forall P l -> Forall P (firstn n l).
Proof. intros H. rewrite <- (firstn_skipn n l) in H. now apply Forall_app in H. Qed.

Lemma Forall_skipn (P : A -> Prop) (n : nat) (l : list A) :
  Forall P l -> Forall P (skipn n l).
Proof. intros H. rewrite <- (firstn_skipn n l) in H. now apply Forall_app in H. Qed.

Lemma Forall_nth_in (P : A -> Prop) (l : list A) (i : nat) (d : A) :
  Forall P l -> (i < length l)%nat -> P (nth i l d).
Proof. intros H Hi. rewrite Forall_forall in H. apply H. now apply nth_In. Qed.

Lemma zip_flatten_length (a b : list A) :
  length a = length b -> length (zip_flatten a b) = (2 * length a)%nat.
Proof.
  revert b. induction a as [|x a IH]; intros [|y b] H; cbn in *; try discriminate.
  - reflexivity.
  - unfold zip_flatten in IH. rewrite IH by lia. lia.
Qed.

Lemma zip_flatten_Forall (P : A -> Prop) (a b : list A) :
  Forall P a -> Forall P b -> Forall P (zip_flatten a b).
Proof.
  intros Ha. revert b. induction Ha as [|x a Hx Ha IH]; intros b Hb; [constructor | ].
  destruct Hb as [|y b Hy Hb]; [constructor | ].
  cbn. constructor; [assumption | constructor; [assumption | now apply IH]].
Qed.

Lemma stride_even_zip_flatten (a b : list A) :
  length a = length b -> stride_even (zip_flatten a b) = a.
Proof.
  revert b. induction a as [|x a IH]; intros [|y b] H; cbn in *; try discriminate.
  - reflexivity.
  - f_equal. apply IH. lia.
Qed.

Lemma stride_odd_zip_flatten (a b : list A) :
  length a = length b -> stride_odd (zip_flatten a b) = b.
Proof.
  revert b. induction a as [|x a IH]; intros [|y b] H; cbn in *; try discriminate.
  - reflexivity.
  - destruct a as [|x' a], b as [|y' b]; cbn in *; try discriminate; [reflexivity | ].
    f_equal. specialize (IH (y' :: b)). cbn in IH. apply IH. lia.
Qed.

End ListFacts.

(** ** Canonical representatives through the transforms *)

Lemma truediv_canonical (a b q : FE) : FieldElement.truediv a b = Ok q -> canonical q.
Proof.
  unfold FieldElement.truediv. destruct (FieldElement.inv b); cbn [bind]; intros H;
    inversion H. apply mul_canonical.
Qed.

Lemma even_part_canonical (left right : list FE) (half : nat) (E : list FE) :
  even_part left right half = Ok E -> Forall canonical E.
Proof.
  apply mapM_Forall. intros i q.
  destruct (getitem left i); cbn [bind]; [|discriminate].
  destruct (getitem right i); cbn [bind]; [|discriminate].
  apply truediv_canonical.
Qed.

Lemma odd_part_canonical (left right fs : list FE) (half : nat) (O : list FE) :
  odd_part left right fs half = Ok O -> Forall canonical O.
Proof.
  apply mapM_Forall. intros i q.
  destruct (getitem left i); cbn [bind]; [|discriminate].
  destruct (getitem right i); cbn [bind]; [|discriminate].
  destruct (getitem fs i); cbn [bind]; [|discriminate].
  apply truediv_canonical.
Qed.

Lemma rebuild_canonical (sign : FE -> FE -> FE) (E O fs : list FE) (half : nat) (l : list FE) :
  (forall a b, canonical (sign a b)) ->
  rebuild sign E O fs half = Ok l -> Forall canonical l.
Proof.
  intros Hs. apply mapM_Forall. intros i q.
  destruct (getitem E i); cbn [bind]; [|discriminate].
  destruct (getitem fs i); cbn [bind]; [|discriminate].
  destruct (getitem O i); cbn [bind]; [|discriminate].
  intros H; inversion H. apply Hs.
Qed.

Lemma singleton_canonical (l : list FE) (out : list FE) :
  Forall canonical l ->
  (v0 <- getitem l 0 ;; Ok [v0]) = Ok out -> Forall canonical out.
Proof.
  intros Hl. destruct (getitem l 0) as [v0|] eqn:E; cbn [bind]; intros H; inversion H.
  constructor; [ | constructor].
  rewrite Forall_forall in Hl. apply Hl. eapply getitem_In; eassumption.
Qed.

Lemma fft_squaring_map_canonical (fuel : nat) :
  forall values x_domain out,
    Forall canonical values ->
    _fft_squaring_map_x fuel values x_domain = Ok out -> Forall canonical out.
Proof.
  induction fuel as [|fuel IH]; intros values x_domain out Hv; cbn [_fft_squaring_map_x];
    [discriminate | ].
  destruct (length values =? 1)%nat; [now apply singleton_canonical | ].
  destruct (even_part _ _ _) as [E|] eqn:HE; cbn [bind]; [|discriminate].
  destruct (odd_part _ _ _ _) as [O|] eqn:HO; cbn [bind]; [|discriminate].
  destruct (_fft_squaring_map_x fuel E _) as [ce|] eqn:Hce; cbn [bind]; [|discriminate].
  destruct (_fft_squaring_map_x fuel O _) as [co|] eqn:Hco; cbn [bind]; [|discriminate].
  intros H; inversion H. apply zip_flatten_Forall.
  - eapply IH; [ | exact Hce]. eapply even_part_canonical; eassumption.
  - eapply IH; [ | exact Hco]. eapply odd_part_canonical; eassumption.
Qed.

Lemma fft_quotient_map_canonical (fuel : nat) (values : list FE) (D : list Point)
  (out : list FE) :
  Forall canonical values ->
  _fft_quotient_map_y fuel values D = Ok out -> Forall canonical out.
Proof.
  intros Hv. unfold _fft_quotient_map_y.
  destruct (length values =? 1)%nat; [now apply singleton_canonical | ].
  destruct (even_part _ _ _) as [E|] eqn:HE; cbn [bind]; [|discriminate].
  destruct (odd_part _ _ _ _) as [O|] eqn:HO; cbn [bind]; [|discriminate].
  destruct (_fft_squaring_map_x fuel E _) as [ce|] eqn:Hce; cbn [bind]; [|discriminate].
  destruct (_fft_squaring_map_x fuel O _) as [co|] eqn:Hco; cbn [bind]; [|discriminate].
  intros H; inversion H. apply zip_flatten_Forall.
  - eapply fft_squaring_map_canonical; [ | exact Hce]. eapply even_part_canonical; eassumption.
  - eapply fft_squaring_map_canonical; [ | exact Hco]. eapply odd_part_canonical; eassumption.
Qed.

Lemma rebuilt_halves_canonical (E O fs : list FE) (half : nat) (out : list FE) :
  (l <- rebuild FieldElement.add E O fs half ;;
   r <- rebuild FieldElement.sub E O fs half ;;
   Ok (l ++ rev r)) = Ok out ->
  Forall canonical out.
Proof.
  destruct (rebuild FieldElement.add _ _ _ _) as [l|] eqn:Hl; cbn [bind]; [|discriminate].
  destruct (rebuild FieldElement.sub _ _ _ _) as [r|] eqn:Hr; cbn [bind]; [|discriminate].
  intros H; inversion H. apply Forall_app. split.
  - eapply rebuild_canonical; [ | exact Hl]. apply add_canonical.
  - apply Forall_rev. eapply rebuild_canonical; [ | exact Hr]. apply sub_canonical.
Qed.

Lemma ifft_squaring_map_canonical (fuel : nat) (coefficients x_domain out : list FE) :
  Forall canonical coefficients ->
  _ifft_squaring_map_x fuel coefficients x_domain = Ok out -> Forall canonical out.
Proof.
  destruct fuel as [|fuel]; intros Hc; cbn [_ifft_squaring_map_x]; [discriminate | ].
  destruct (length coefficients =? 1)%nat; [now apply singleton_canonical | ].
  destruct (_ifft_squaring_map_x fuel _ _) as [E|]; cbn [bind]; [|discriminate].
  destruct (_ifft_squaring_map_x fuel _ _) as [O|]; cbn [bind]; [|discriminate].
  apply rebuilt_halves_canonical.
Qed.

Lemma ifft_quotient_map_canonical (fuel : nat) (coefficients : list FE) (D : list Point)
  (out : list FE) :
  Forall canonical coefficients ->
  _ifft_quotient_map_y fuel coefficients D = Ok out -> Forall canonical out.
Proof.
  intros Hc. unfold _ifft_quotient_map_y.
  destruct (length coefficients =? 1)%nat; [now apply singleton_canonical | ].
  destruct (_ifft_squaring_map_x fuel _ _) as [E|]; cbn [bind]; [|discriminate].
  destruct (_ifft_squaring_map_x fuel _ _) as [O|]; cbn [bind]; [|discriminate].
  apply rebuilt_halves_canonical.
Qed.

Lemma map_init_canonical (v : list Z) : Forall canonical (map FieldElement.init v).
Proof. induction v; cbn; constructor; [apply init_canonical | assumption]. Qed.

Lemma map_value_in_field (l : list FE) :
  Forall canonical l -> Forall in_field (map FieldElement.value l).
Proof. induction 1; cbn; constructor; assumption. Qed.

Lemma map_init_congruent (v w : list Z) :
  Forall2 (fun a b => a mod MOD = b mod MOD) v w ->
  map FieldElement.init v = map FieldElement.init w.
Proof.
  induction 1 as [|a b v w Hab _ IH]; cbn; [reflexivity | ].
  f_equal; [now apply init_cong | exact IH].
Qed.

(** C10: both transforms read their input only through [FieldElement(e)],
    so entrywise congruent vectors give the same outcome, and every entry
    they return is a canonical representative in [[0, MOD)]. *)
Theorem transforms_work_modulo_MOD (fuel : nat) (v w : list Z) (D : list Point) :
  Forall2 (fun a b => a mod MOD = b mod MOD) v w ->
  circle_fft fuel v D = circle_fft fuel w D /\
  circle_ifft fuel v D = circle_ifft fuel w D /\
  (forall out, circle_fft fuel v D = Ok out -> Forall in_field out) /\
  (forall out, circle_ifft fuel v D = Ok out -> Forall in_field out).
Proof.
  intros Hvw. pose proof (map_init_congruent v w Hvw) as Hmap.
  pose proof (Forall2_length Hvw) as Hlen.
  assert (Hbad : bad_length v D = bad_length w D) by (unfold bad_length; now rewrite Hlen).
  unfold circle_fft, circle_ifft. rewrite <- Hbad, <- Hmap.
  split; [reflexivity | split; [reflexivity | split]]; intros out;
    destruct (bad_length v D); try discriminate.
  - destruct (_fft_quotient_map_y _ _ _) as [c|] eqn:Hc; cbn [bind]; [|discriminate].
    intros H; inversion H. apply map_value_in_field.
    eapply fft_quotient_map_canonical; [apply map_init_canonical | exact Hc].
  - destruct (_ifft_quotient_map_y _ _ _) as [c|] eqn:Hc; cbn [bind]; [|discriminate].
    intros H; inversion H. apply map_value_in_field.
    eapply ifft_quotient_map_canonical; [apply map_init_canonical | exact Hc].
Qed.

Lemma transforms_work_modulo_MOD_witness :
  circle_fft 3 [32; -29; 4; 8; 16; 1; 2; 4] D_24_18
    = circle_fft 3 [1; 2; 4; 8; 16; 1; 2; 4] D_24_18 /\
  circle_fft 3 [32; -29; 4; 8; 16; 1; 2; 4] D_24_18 = Ok [28; 16; 16; 27; 20; 12; 28; 27] /\
  Forall in_field [28; 16; 16; 27; 20; 12; 28; 27].
Proof.
  assert (H : Forall2 (fun a b => a mod MOD = b mod MOD)
                [32; -29; 4; 8; 16; 1; 2; 4] [1; 2; 4; 8; 16; 1; 2; 4]).
  { repeat constructor. }
  destruct (transforms_work_modulo_MOD 3 _ _ D_24_18 H) as (E & _ & Hr & _).
  split; [exact E | split; [reflexivity | apply Hr; reflexivity]].
Defined.

(** ** Inverses and one butterfly *)

Lemma fermat_inverse_all :
  forallb (fun d => (d * ((d ^ (MOD - 2)) mod MOD)) mod MOD =? 1) (range 1 MOD) = true.
Proof. vm_compute. reflexivity. Qed.

Lemma inv_correct (a : FE) :
  canonical a -> FieldElement.value a <> 0 ->
  FieldElement.inv a = Ok (inv_value a) /\
  FieldElement.value a * FieldElement.value (inv_value a) ==m 1.
Proof.
  intros Hc Hnz. unfold FieldElement.inv.
  destruct (Z.eqb_spec (FieldElement.value a) 0) as [|_]; [contradiction | ].
  split; [reflexivity | ].
  unfold inv_value. rewrite value_init, mod_cong.
  pose proof fermat_inverse_all as Hall. rewrite forallb_forall in Hall.
  specialize (Hall (FieldElement.value a)).
  rewrite range_In, Z.eqb_eq in Hall. unfold canonical in Hc.
  unfold cong, eqm. rewrite Hall by lia. reflexivity.
Qed.

Lemma even_of_ok (l r : FE) :
  FieldElement.truediv (FieldElement.add l r) two = Ok (even_of l r).
Proof. reflexivity. Qed.

Lemma odd_of_ok (l r f : FE) :
  good_factor f = true ->
  FieldElement.truediv (FieldElement.sub l r) (FieldElement.mul f two) = Ok (odd_of l r f).
Proof.
  unfold good_factor. rewrite negb_true_iff, Z.eqb_neq. intros H.
  unfold FieldElement.truediv.
  destruct (inv_correct (FieldElement.mul f two) (mul_canonical _ _) H) as (-> & _).
  reflexivity.
Qed.

Lemma cancel_two (X Y : Z) : 2 * X ==m 2 * Y -> X ==m Y.
Proof.
  intros H.
  assert (H16 : 16 * (2 * X) ==m 16 * (2 * Y)) by now rewrite H.
  assert (E : forall Z0, 16 * (2 * Z0) ==m Z0).
  { intros Z0. unfold cong, eqm. replace (16 * (2 * Z0)) with (Z0 + Z0 * MOD)
      by (unfold MOD; ring). apply Z_mod_plus_full. }
  now rewrite !E in H16.
Qed.

Lemma butterfly_cong (vl vr vf i2 id : Z) :
  2 * i2 ==m 1 -> vf * 2 * id ==m 1 ->
  (vl + vr) * i2 + vf * ((vl - vr) * id) ==m vl /\
  (vl + vr) * i2 - vf * ((vl - vr) * id) ==m vr.
Proof.
  intros H2 Hd. split; apply cancel_two.
  - replace (2 * ((vl + vr) * i2 + vf * ((vl - vr) * id)))
      with ((vl + vr) * (2 * i2) + (vl - vr) * (vf * 2 * id)) by ring.
    rewrite H2, Hd. replace ((vl + vr) * 1 + (vl - vr) * 1) with (2 * vl) by ring.
    reflexivity.
  - replace (2 * ((vl + vr) * i2 - vf * ((vl - vr) * id)))
      with ((vl + vr) * (2 * i2) - (vl - vr) * (vf * 2 * id)) by ring.
    rewrite H2, Hd. replace ((vl + vr) * 1 - (vl - vr) * 1) with (2 * vr) by ring.
    reflexivity.
Qed.

(** The algebra of one butterfly: the reconstruction of the inverse layer
    undoes the even/odd split of the forward layer. *)
Lemma butterfly_round_trip (l r f : FE) :
  canonical l -> canonical r -> good_factor f = true ->
  FieldElement.add (even_of l r) (FieldElement.mul f (odd_of l r f)) = l /\
  FieldElement.sub (even_of l r) (FieldElement.mul f (odd_of l r f)) = r.
Proof.
  intros Hl Hr Hf.
  destruct (inv_correct two (init_canonical 2) ltac:(discriminate)) as (_ & H2).
  unfold good_factor in Hf. rewrite negb_true_iff, Z.eqb_neq in Hf.
  destruct (inv_correct (FieldElement.mul f two) (mul_canonical _ _) Hf) as (_ & Hd).
  rewrite value_mul in Hd. change (FieldElement.value two) with 2 in H2, Hd.
  destruct (butterfly_cong (FieldElement.value l) (FieldElement.value r) _ _ _ H2 Hd)
    as (Ha & Hs).
  unfold even_of, odd_of.
  split; (apply canonical_cong_eq;
          [first [apply add_canonical | apply sub_canonical] | assumption | ]);
    push_value; assumption.
Qed.

(** ** One layer *)

(** [fs] are the factors the forward layer indexes, [fs'] those the inverse
    layer indexes; they agree on the first [h] positions. *)
Lemma layer_round_trip (h : nat) (values fs fs' : list FE) :
  length values = (2 * h)%nat ->
  Forall canonical values ->
  (forall i, (i < h)%nat ->
     exists f, nth_error fs i = Some f /\ nth_error fs' i = Some f /\ good_factor f = true) ->
  let left := firstn h values in
  let right := rev (skipn h values) in
  exists E O,
    even_part left right h = Ok E /\
    odd_part left right fs h = Ok O /\
    length E = h /\ length O = h /\
    rebuild FieldElement.add E O fs' h = Ok left /\
    rebuild FieldElement.sub E O fs' h = Ok right.
Proof.
  intros Hlen Hcan Hfs left right.
  assert (Hll : length left = h) by (subst left; rewrite firstn_length_le; lia).
  assert (Hlr : length right = h) by (subst right; rewrite length_rev, length_skipn; lia).
  assert (Hcl : Forall canonical left) by (subst left; now apply Forall_firstn).
  assert (Hcr : Forall canonical right) by (subst right; now apply Forall_rev, Forall_skipn).
  set (d := FieldElement.zero).
  set (e := fun i => even_of (nth i left d) (nth i right d)).
  set (o := fun i => odd_of (nth i left d) (nth i right d) (nth i fs d)).
  exists (map e (seq 0 h)), (map o (seq 0 h)).
  split; [ | split; [ | split; [ | split; [ | split]]]].
  - apply mapM_seq_pure. intros i Hi.
    rewrite (getitem_nth left i d), (getitem_nth right i d) by lia. reflexivity.
  - apply mapM_seq_pure. intros i Hi.
    destruct (Hfs i ltac:(lia)) as (f & Hf & _ & Hg).
    rewrite (getitem_nth left i d), (getitem_nth right i d) by lia.
    rewrite (getitem_some fs i f Hf). cbn [bind]. subst o. cbn beta.
    rewrite (nth_error_nth fs i d Hf). now apply odd_of_ok.
  - now rewrite length_map, length_seq.
  - now rewrite length_map, length_seq.
  - pose proof (map_nth_seq left d) as Em. rewrite Hll in Em. rewrite <- Em at 1.
    apply mapM_seq_pure. intros i Hi.
    destruct (Hfs i ltac:(lia)) as (f & Hf & Hf' & Hg).
    rewrite !getitem_map_seq by lia. rewrite (getitem_some fs' i f Hf'). cbn [bind].
    subst e o. cbn beta. rewrite (nth_error_nth fs i d Hf). f_equal.
    apply butterfly_round_trip; [ | | assumption]; apply Forall_nth_in; (assumption || lia).
  - pose proof (map_nth_seq right d) as Em. rewrite Hlr in Em. rewrite <- Em at 1.
    apply mapM_seq_pure. intros i Hi.
    destruct (Hfs i ltac:(lia)) as (f & Hf & Hf' & Hg).
    rewrite !getitem_map_seq by lia. rewrite (getitem_some fs' i f Hf'). cbn [bind].
    subst e o. cbn beta. rewrite (nth_error_nth fs i d Hf). f_equal.
    apply butterfly_round_trip; [ | | assumption]; apply Forall_nth_in; (assumption || lia).
Qed.

(** ** Domains on which no division fails *)

Lemma good_factors_indexed (h : nat) (fs : list FE) :
  (h <= length fs)%nat -> forallb good_factor (firstn h fs) = true ->
  forall i, (i < h)%nat ->
    exists f, nth_error (firstn h fs) i = Some f /\ nth_error fs i = Some f /\
              good_factor f = true.
Proof.
  intros Hle Hg i Hi. rewrite forallb_forall in Hg.
  assert (Hl : (i < length (firstn h fs))%nat) by (rewrite firstn_length_le; lia).
  exists (nth i (firstn h fs) FieldElement.zero). split; [ | split].
  - now apply nth_error_nth'.
  - rewrite <- (nth_error_nth' _ FieldElement.zero Hl), nth_error_firstn.
    destruct (Nat.ltb_spec i h); [reflexivity | lia].
  - apply Hg. now apply nth_In.
Qed.

Lemma pow2_pos (k : nat) : (0 < 2 ^ k)%nat.
Proof. induction k; cbn; lia. Qed.

Lemma half_of_double (h : nat) : (2 * h / 2 = h)%nat.
Proof. rewrite Nat.mul_comm. apply Nat.div_mul. discriminate. Qed.

Lemma double_is_not_one (h : nat) : (0 < h)%nat -> (2 * h =? 1)%nat = false.
Proof. intros H. apply Nat.eqb_neq. lia. Qed.

(** ** The squaring-map layers invert each other *)

Lemma squaring_layers_round_trip (k : nat) :
  forall fuel values xs,
    (k < fuel)%nat ->
    length values = (2 ^ k)%nat ->
    Forall canonical values ->
    x_domain_ok k xs = true ->
    exists c,
      _fft_squaring_map_x fuel values xs = Ok c /\
      length c = (2 ^ k)%nat /\
      Forall canonical c /\
      _ifft_squaring_map_x fuel c xs = Ok values.
Proof.
  induction k as [|k IH]; intros fuel values xs Hf Hlen Hcan Hok;
    (destruct fuel as [|fuel]; [lia | ]).
  - destruct values as [|v [|? ?]]; try discriminate Hlen.
    exists [v]. repeat split; assumption.
  - cbn [x_domain_ok] in Hok. rewrite !andb_true_iff in Hok.
    destruct Hok as ((Hle & Hg) & Hnext). apply Nat.leb_le in Hle.
    rewrite Nat.pow_succ_r' in *. pose proof (pow2_pos k) as Hpos.
    remember (2 ^ k)%nat as h eqn:Eh.
    destruct (layer_round_trip h values (firstn h xs) (firstn h xs) Hlen Hcan)
      as (E & O & HE & HO & HlE & HlO & Hadd & Hsub).
    { intros i Hi. destruct (good_factors_indexed h xs Hle Hg i Hi) as (f & Hf1 & _ & Hf2).
      exists f. auto. }
    destruct (IH fuel E (map next_x (firstn h xs)) ltac:(lia) HlE
                (even_part_canonical _ _ _ _ HE) Hnext)
      as (ce & Hce & Hlce & Hcce & Hice).
    destruct (IH fuel O (map next_x (firstn h xs)) ltac:(lia) HlO
                (odd_part_canonical _ _ _ _ _ HO) Hnext)
      as (co & Hco & Hlco & Hcco & Hico).
    assert (Hlz : length (zip_flatten ce co) = (2 * h)%nat)
      by (rewrite zip_flatten_length; congruence).
    exists (zip_flatten ce co). split; [ | split; [ | split]].
    + cbn [_fft_squaring_map_x]. cbv zeta.
      rewrite Hlen, double_is_not_one, half_of_double by assumption.
      rewrite HE. cbn [bind]. rewrite HO. cbn [bind]. rewrite Hce, Hco. reflexivity.
    + exact Hlz.
    + now apply zip_flatten_Forall.
    + cbn [_ifft_squaring_map_x]. cbv zeta.
      rewrite Hlz, double_is_not_one, half_of_double by assumption.
      rewrite stride_even_zip_flatten, stride_odd_zip_flatten by congruence.
      rewrite Hice, Hico. cbn [bind]. rewrite Hadd, Hsub. cbn [bind].
      now rewrite rev_involutive, firstn_skipn.
Qed.

Lemma quotient_layer_round_trip (k fuel : nat) (values : list FE) (D : list Point) :
  (k <= fuel)%nat ->
  length values = (2 ^ k)%nat ->
  Forall canonical values ->
  domain_ok k D = true ->
  exists c,
    _fft_quotient_map_y fuel values D = Ok c /\
    length c = (2 ^ k)%nat /\
    Forall canonical c /\
    _ifft_quotient_map_y fuel c D = Ok values.
Proof.
  intros Hf Hlen Hcan Hok. destruct k as [|k].
  - destruct values as [|v [|? ?]]; try discriminate Hlen.
    exists [v]. repeat split; assumption.
  - cbn [domain_ok] in Hok. rewrite !andb_true_iff in Hok.
    destruct Hok as ((Hle & Hg) & Hx). apply Nat.leb_le in Hle.
    rewrite Nat.pow_succ_r' in *. pose proof (pow2_pos k) as Hpos.
    remember (2 ^ k)%nat as h eqn:Eh.
    destruct (layer_round_trip h values (map CirclePoint.y (firstn h D))
                (map CirclePoint.y D) Hlen Hcan)
      as (E & O & HE & HO & HlE & HlO & Hadd & Hsub).
    { intros i Hi. rewrite <- firstn_map in *.
      apply good_factors_indexed; [rewrite length_map | | ]; assumption. }
    destruct (squaring_layers_round_trip k fuel E (firstn h (map CirclePoint.x D))
                ltac:(lia) ltac:(congruence) (even_part_canonical _ _ _ _ HE) Hx)
      as (ce & Hce & Hlce & Hcce & Hice).
    destruct (squaring_layers_round_trip k fuel O (firstn h (map CirclePoint.x D))
                ltac:(lia) ltac:(congruence) (odd_part_canonical _ _ _ _ _ HO) Hx)
      as (co & Hco & Hlco & Hcco & Hico).
    assert (Hlz : length (zip_flatten ce co) = (2 * h)%nat)
      by (rewrite zip_flatten_length; congruence).
    exists (zip_flatten ce co). split; [ | split; [ | split]].
    + unfold _fft_quotient_map_y.
      rewrite Hlen, double_is_not_one, half_of_double by assumption.
      rewrite HE. cbn [bind]. rewrite HO. cbn [bind]. rewrite Hce, Hco. reflexivity.
    + exact Hlz.
    + now apply zip_flatten_Forall.
    + unfold _ifft_quotient_map_y.
      rewrite Hlz, double_is_not_one, half_of_double by assumption.
      rewrite stride_even_zip_flatten, stride_odd_zip_flatten by congruence.
      rewrite Hice, Hico. cbn [bind]. rewrite Hadd, Hsub. cbn [bind].
      now rewrite rev_involutive, firstn_skipn.
Qed.

Lemma pow2_length_passes_guard {A B} (k : nat) (a : list A) (b : list B) :
  length a = (2 ^ k)%nat -> length b = (2 ^ k)%nat -> bad_length a b = false.
Proof.
  intros Ha Hb. apply bad_length_spec. split; [congruence | right].
  exists (Z.of_nat k). split; [lia | ]. rewrite Ha, Nat2Z.inj_pow. reflexivity.
Qed.

Lemma map_init_value (l : list FE) :
  Forall canonical l -> map FieldElement.init (map FieldElement.value l) = l.
Proof. induction 1; cbn; f_equal; [now apply init_value | assumption]. Qed.

Lemma map_value_init (v : list Z) :
  Forall in_field v -> map FieldElement.value (map FieldElement.init v) = v.
Proof.
  induction 1 as [|z v Hz _ IH]; cbn; f_equal; [now apply Z.mod_small | assumption].
Qed.

(** On a domain without a bad divisor the inverse transform undoes the
    forward transform, whatever the points of the domain are. *)
Lemma round_trip_on_good_domain (k fuel : nat) (v : list Z) (D : list Point) :
  (k <= fuel)%nat ->
  length v = (2 ^ k)%nat -> length D = (2 ^ k)%nat ->
  Forall in_field v ->
  domain_ok k D = true ->
  exists c, circle_fft fuel v D = Ok c /\ circle_ifft fuel c D = Ok v.
Proof.
  intros Hf Hv HD Hin Hok.
  destruct (quotient_layer_round_trip k fuel (map FieldElement.init v) D Hf
              ltac:(now rewrite length_map) (map_init_canonical v) Hok)
    as (c & Hc & Hlc & Hcc & Hic).
  exists (map FieldElement.value c). unfold circle_fft, circle_ifft.
  rewrite (pow2_length_passes_guard k v D Hv HD).
  rewrite (pow2_length_passes_guard k (map FieldElement.value c) D
             ltac:(now rewrite length_map) HD).
  rewrite Hc. cbn [bind]. split; [reflexivity | ].
  rewrite map_init_value by assumption. rewrite Hic. cbn [bind].
  now rewrite map_value_init.
Qed.

(** ** Standard position cosets as transform domains *)

Lemma coset_domain_check_all :
  forallb (fun Q => forallb (coset_domain_check Q) (range 0 6)) circle_points = true.
Proof. vm_compute. reflexivity. Qed.

(** C1, as the code has it: the round trip is exact on the standard position
    coset [Q * G_k] whenever the coset point [Q] lies outside [G_k] (or the
    domain is a single point); the entries of [v] are field elements, and
    [fuel] covers the [k] nested calls of the squaring-map layer. *)
Theorem circle_ifft_inverts_circle_fft
  (fuel : nat) (Q : Point) (k : Z) (G D : list Point) (v : list Z) :
  valid_point Q ->
  generate_subgroup k = Ok G ->
  generate_standard_position_coset Q G = Ok D ->
  k = 0 \/ ~ In Q G ->
  length v = length D ->
  Forall in_field v ->
  (Z.to_nat k <= fuel)%nat ->
  exists c, circle_fft fuel v D = Ok c /\ circle_ifft fuel c D = Ok v.
Proof.
  intros HQ HG HD Hout Hlen Hv Hf.
  pose proof (generate_subgroup_exponent k G HG) as Hk.
  pose proof coset_domain_check_all as Hall.
  rewrite forallb_forall in Hall.
  specialize (Hall Q (proj1 (valid_point_enumerated Q) HQ)).
  rewrite forallb_forall in Hall.
  specialize (Hall k (proj2 (range_In 0 6 k) ltac:(lia))).
  unfold coset_domain_check in Hall. rewrite HG, HD in Hall.
  apply andb_true_iff in Hall. destruct Hall as (HlD & Hok).
  apply Nat.eqb_eq in HlD.
  apply round_trip_on_good_domain with (k := Z.to_nat k); try assumption; [congruence | ].
  apply orb_true_iff in Hok. destruct Hok as [Hbad | Hok]; [exfalso | exact Hok].
  apply andb_true_iff in Hbad. destruct Hbad as (Hk0 & Hmem).
  rewrite negb_true_iff, Z.eqb_neq in Hk0. apply memb_In in Hmem.
  destruct Hout; contradiction.
Qed.

Lemma circle_ifft_inverts_circle_fft_witness :
  valid_point (pt 24 18) /\
  generate_subgroup 3 = Ok G3 /\
  generate_standard_position_coset (pt 24 18) G3 = Ok D_24_18 /\
  ~ In (pt 24 18) G3 /\
  exists c, circle_fft 3 [1; 2; 4; 8; 16; 1; 2; 4] D_24_18 = Ok c /\
            circle_ifft 3 c D_24_18 = Ok [1; 2; 4; 8; 16; 1; 2; 4].
Proof.
  assert (HQ : valid_point (pt 24 18)) by (apply pt_valid; reflexivity).
  assert (HG : generate_subgroup 3 = Ok G3) by reflexivity.
  assert (HD : generate_standard_position_coset (pt 24 18) G3 = Ok D_24_18) by reflexivity.
  assert (Hout : ~ In (pt 24 18) G3).
  { intros H. apply memb_In in H. vm_compute in H. discriminate H. }
  assert (Hv : Forall in_field [1; 2; 4; 8; 16; 1; 2; 4]).
  { repeat constructor; vm_compute; discriminate. }
  split; [exact HQ | split; [exact HG | split; [exact HD | split; [exact Hout | ]]]].
  apply (circle_ifft_inverts_circle_fft 3 (pt 24 18) 3 G3 D_24_18
           [1; 2; 4; 8; 16; 1; 2; 4] HQ HG HD (or_intror Hout) eq_refl Hv).
  apply Nat.leb_le. reflexivity.
Defined.

(** The claim fails when the coset point lies in the subgroup: the coset of
    the identity over [G_1] is [[(1,0); (30,0)]], whose first y-coordinate is
    zero, and the odd part of the top layer divides by it. *)
Lemma round_trip_fails_on_coset_of_identity :
  valid_point (pt 1 0) /\
  generate_subgroup 1 = Ok [pt 1 0; pt 30 0] /\
  generate_standard_position_coset (pt 1 0) [pt 1 0; pt 30 0] = Ok [pt 1 0; pt 30 0] /\
  forall fuel,
    circle_fft fuel [1; 2] [pt 1 0; pt 30 0] = Err ZeroDivisionError /\
    ~ exists c, circle_fft fuel [1; 2] [pt 1 0; pt 30 0] = Ok c /\
                circle_ifft fuel c [pt 1 0; pt 30 0] = Ok [1; 2].
Proof.
  split; [apply pt_valid; reflexivity | ].
  split; [reflexivity | split; [reflexivity | ]].
  intros fuel. split; [reflexivity | ].
  intros (c & Hc & _). discriminate Hc.
Qed.

(** ** Cosets of a point of the subgroup *)

Lemma mapM_first_error {A B} (f : A -> result B) (e : exn) (l : list A) :
  (forall a, In a l -> (exists b, f a = Ok b) \/ f a = Err e) ->
  (exists a, In a l /\ f a = Err e) ->
  mapM f l = Err e.
Proof.
  induction l as [|a l IH]; intros Hall (a0 & Hin & Ha0); [destruct Hin | ].
  cbn [mapM]. destruct (Hall a (or_introl eq_refl)) as [(b & Hb) | Hb];
    rewrite Hb; cbn [bind]; [ | reflexivity].
  rewrite IH; [reflexivity | | ].
  - intros a' Ha'. apply Hall. now right.
  - destruct Hin as [-> | Hin]; [congruence | eauto].
Qed.

Lemma truediv_by_bad_factor (a f : FE) :
  good_factor f = false ->
  FieldElement.truediv a (FieldElement.mul f two) = Err ZeroDivisionError.
Proof.
  unfold good_factor. rewrite negb_false_iff. intros H.
  unfold FieldElement.truediv, FieldElement.inv. now rewrite H.
Qed.

(** A bad divisor among the y-coordinates of the first half of the domain
    makes the forward transform raise, whatever the evaluations are. *)
Lemma bad_y_factor_raises (k fuel : nat) (v : list Z) (D : list Point) :
  length v = (2 ^ S k)%nat -> length D = (2 ^ S k)%nat ->
  forallb good_factor (map CirclePoint.y (firstn (2 ^ k) D)) = false ->
  circle_fft fuel v D = Err ZeroDivisionError.
Proof.
  intros Hv HD Hbad. unfold circle_fft.
  rewrite (pow2_length_passes_guard (S k) v D Hv HD).
  unfold _fft_quotient_map_y. rewrite length_map, Hv.
  rewrite Nat.pow_succ_r' in *. pose proof (pow2_pos k) as Hpos.
  remember (2 ^ k)%nat as h eqn:Eh.
  rewrite double_is_not_one, half_of_double by assumption.
  set (values := map FieldElement.init v).
  assert (Hlv : length values = (2 * h)%nat) by (subst values; now rewrite length_map).
  set (left := firstn h values). set (right := rev (skipn h values)).
  set (fs := map CirclePoint.y (firstn h D)) in *.
  assert (Hll : length left = h) by (subst left; rewrite firstn_length_le; lia).
  assert (Hlr : length right = h) by (subst right; rewrite length_rev, length_skipn; lia).
  assert (Hlf : length fs = h) by (subst fs; rewrite length_map, firstn_length_le; lia).
  set (d := FieldElement.zero).
  assert (HE : even_part left right h
               = Ok (map (fun i => even_of (nth i left d) (nth i right d)) (seq 0 h))).
  { apply mapM_seq_pure. intros i Hi.
    rewrite (getitem_nth left i d), (getitem_nth right i d) by lia. reflexivity. }
  rewrite HE. cbn [bind].
  assert (HO : odd_part left right fs h = Err ZeroDivisionError).
  { apply mapM_first_error.
    - intros i Hi. apply in_seq in Hi.
      rewrite (getitem_nth left i d), (getitem_nth right i d), (getitem_nth fs i d) by lia.
      cbn [bind]. destruct (good_factor (nth i fs d)) eqn:Eg.
      + left. eexists. now apply odd_of_ok.
      + right. now apply truediv_by_bad_factor.
    - apply not_true_iff_false in Hbad. rewrite forallb_forall in Hbad.
      destruct (forallb good_factor fs) eqn:Ef.
      { exfalso. apply Hbad. now apply forallb_forall. }
      clear Hbad. assert (Hex : exists i, (i < h)%nat /\ good_factor (nth i fs d) = false).
      { rewrite <- Hlf. clear -Ef. induction fs as [|f fs IH]; [discriminate | ].
        cbn in Ef. apply andb_false_iff in Ef. destruct Ef as [Ef | Ef].
        - exists 0%nat. split; [cbn; lia | exact Ef].
        - destruct (IH Ef) as (i & Hi & Hg). exists (S i). split; [cbn; lia | exact Hg]. }
      destruct Hex as (i & Hi & Hg). exists i. split; [apply in_seq; lia | ].
      rewrite (getitem_nth left i d), (getitem_nth right i d), (getitem_nth fs i d) by lia.
      cbn [bind]. now apply truediv_by_bad_factor. }
  rewrite HO. reflexivity.
Qed.

Lemma coset_in_subgroup_check_all :
  forallb (fun Q => forallb (coset_in_subgroup_check Q) (range 1 6)) circle_points = true.
Proof. vm_compute. reflexivity. Qed.

(** The condition on the coset point cannot be dropped from the round trip:
    on the coset of a point of [G_k], [k >= 1], the forward transform raises
    [ZeroDivisionError] for every evaluation vector. *)
Lemma circle_fft_raises_inside_subgroup
  (fuel : nat) (Q : Point) (k : Z) (G D : list Point) (v : list Z) :
  valid_point Q ->
  generate_subgroup k = Ok G ->
  generate_standard_position_coset Q G = Ok D ->
  1 <= k -> In Q G ->
  length v = length D ->
  circle_fft fuel v D = Err ZeroDivisionError.
Proof.
  intros HQ HG HD Hk1 HinG Hlen.
  pose proof (generate_subgroup_exponent k G HG) as Hk.
  pose proof coset_domain_check_all as Hdom.
  rewrite forallb_forall in Hdom.
  specialize (Hdom Q (proj1 (valid_point_enumerated Q) HQ)).
  rewrite forallb_forall in Hdom.
  specialize (Hdom k (proj2 (range_In 0 6 k) ltac:(lia))).
  unfold coset_domain_check in Hdom. rewrite HG, HD in Hdom.
  apply andb_true_iff in Hdom. destruct Hdom as (HlD%Nat.eqb_eq & _).
  pose proof coset_in_subgroup_check_all as Hall.
  rewrite forallb_forall in Hall.
  specialize (Hall Q (proj1 (valid_point_enumerated Q) HQ)).
  rewrite forallb_forall in Hall.
  specialize (Hall k (proj2 (range_In 1 6 k) ltac:(lia))).
  unfold coset_in_subgroup_check in Hall. rewrite HG, HD in Hall.
  apply memb_In in HinG. rewrite HinG in Hall. cbn [negb orb] in Hall.
  apply negb_true_iff in Hall.
  assert (Ek : Z.to_nat k = S (Z.to_nat k - 1)) by lia.
  apply bad_y_factor_raises with (k := (Z.to_nat k - 1)%nat);
    [rewrite <- Ek; congruence | rewrite <- Ek; exact HlD | exact Hall].
Qed.

(** ** What the decomposition returns, relative to the module-level point *)

Lemma mapM_total {A B} (f : A -> result B) (l : list A) :
  (forall a, In a l -> exists b, f a = Ok b) -> exists bs, mapM f l = Ok bs.
Proof.
  induction l as [|a l IH]; intros H; cbn [mapM]; [eauto | ].
  destruct (H a (or_introl eq_refl)) as (b & ->).
  destruct IH as (bs & ->); [intros a' Ha'; apply H; now right | ].
  cbn [bind]. eauto.
Qed.

Lemma mapM_nth_error {A B} (f : A -> result B) (l : list A) (bs : list B) :
  mapM f l = Ok bs ->
  forall i a, nth_error l i = Some a ->
    exists b, f a = Ok b /\ nth_error bs i = Some b.
Proof.
  revert bs. induction l as [|a0 l IH]; intros bs H i a Hi; [destruct i; discriminate | ].
  cbn [mapM] in H. destruct (f a0) as [b0|] eqn:E0; cbn [bind] in H; [|discriminate].
  destruct (mapM f l) as [bs0|]; cbn [bind] in H; [|discriminate].
  inversion H; subst bs. destruct i as [|i]; cbn in *.
  - inversion Hi; subst. eauto.
  - eapply IH; [reflexivity | exact Hi].
Qed.

Lemma range_length (lo hi : Z) : length (range lo hi) = Z.to_nat (hi - lo).
Proof. unfold range. now rewrite length_map, length_seq. Qed.

Lemma range_nth_error (lo hi i : Z) :
  0 <= i < hi - lo -> nth_error (range lo hi) (Z.to_nat i) = Some (lo + i).
Proof.
  intros H. unfold range. rewrite nth_error_map.
  rewrite nth_error_nth' with (d := 0%nat) by (rewrite length_seq; lia).
  rewrite seq_nth by lia. cbn. f_equal. lia.
Qed.

Lemma add_result_on_circle (P R W : Point) : CirclePoint.add P R = Ok W -> on_circle W.
Proof. unfold CirclePoint.add. intros H. now apply init_inv in H. Qed.

Lemma subgroup_loop_on_circle (g : Point) (idx : list Z) :
  forall p l, on_circle p -> subgroup_loop g p idx = Ok l ->
              Forall on_circle l /\ length l = length idx.
Proof.
  induction idx as [|i idx IH]; intros p l Hp H; cbn [subgroup_loop] in H.
  - inversion H. split; [constructor | reflexivity].
  - destruct (if negb (i =? 0) then CirclePoint.add p g else Ok p) as [p'|] eqn:Ep;
      cbn [bind] in H; [|discriminate].
    assert (Hp' : on_circle p').
    { destruct (negb (i =? 0)); [now apply add_result_on_circle in Ep | congruence]. }
    destruct (subgroup_loop g p' idx) as [tl|] eqn:Et; cbn [bind] in H; [|discriminate].
    inversion H. destruct (IH p' tl Hp' Et) as (Hf & Hl).
    split; [now constructor | cbn; now rewrite Hl].
Qed.

Lemma generate_subgroup_on_circle (k : Z) (G : list Point) :
  generate_subgroup k = Ok G ->
  Forall on_circle G /\ Z.of_nat (length G) = 2 ^ k.
Proof.
  intros HG. pose proof (generate_subgroup_exponent k G HG) as Hk.
  unfold generate_subgroup in HG.
  destruct (get_nth_generator k) as [g|]; cbn [bind] in HG; [|discriminate].
  rewrite identity_ok in HG. cbn [bind] in HG. unfold shl1 in HG.
  destruct (Z.ltb_spec k 0); [lia | ]. cbn [bind] in HG. rewrite Z.shiftl_1_l in HG.
  destruct (subgroup_loop_on_circle g _ _ _ identity_on_circle HG) as (Hf & Hl).
  split; [exact Hf | ]. rewrite Hl, range_length.
  pose proof (Z.pow_pos_nonneg 2 k). lia.
Qed.

Lemma generate_twin_coset_total (Q : Point) (G : list Point) :
  on_circle Q -> Forall on_circle G ->
  exists T, generate_twin_coset Q G = Ok T /\ length T = (2 * length G)%nat.
Proof.
  intros HQ HG. unfold generate_twin_coset.
  destruct (inverse_on_circle Q HQ) as (Qi & -> & HQi). cbn [bind].
  rewrite Forall_forall in HG.
  destruct (mapM_total (fun g => CirclePoint.add Q g) G) as (a & Ha).
  { intros g Hg. destruct (add_on_circle Q g HQ (HG g Hg)) as (W & -> & _). eauto. }
  destruct (mapM_total (fun g => CirclePoint.add Qi g) G) as (b & Hb).
  { intros g Hg. destruct (add_on_circle Qi g HQi (HG g Hg)) as (W & -> & _). eauto. }
  rewrite Ha. cbn [bind]. rewrite Hb. cbn [bind].
  exists (a ++ b). split; [reflexivity | ].
  rewrite length_app, (mapM_length _ _ _ Ha), (mapM_length _ _ _ Hb). lia.
Qed.

(** With [Q] the module-level point, the routine returns [2^(m-n)] twin cosets
    of size [2^n], the [k]-th being the twin coset of [Q^(4k+1)] over
    [G_(n-1)], for whatever list [D] of length [2^m] it is given. *)
Lemma decompose_relative_to_global (Q : Point) (D G : list Point) (n m : Z) :
  on_circle Q ->
  1 <= n <= m ->
  generate_subgroup (n - 1) = Ok G ->
  Z.of_nat (length D) = 2 ^ m ->
  exists tcs,
    decompose_to_twin_cosets Q D n m = Ok tcs /\
    Z.of_nat (length tcs) = 2 ^ (m - n) /\
    forall k, 0 <= k < 2 ^ (m - n) ->
      exists Q_k T,
        CirclePoint.power Q (4 * k + 1) = Ok Q_k /\
        generate_twin_coset Q_k G = Ok T /\
        nth_error tcs (Z.to_nat k) = Some T /\
        Z.of_nat (length T) = 2 ^ n.
Proof.
  intros HQ Hnm HG HD.
  destruct (generate_subgroup_on_circle _ _ HG) as (HGc & HGl).
  unfold decompose_to_twin_cosets, shl1.
  destruct (Z.ltb_spec m 0); [lia | ]. cbn [bind]. rewrite Z.shiftl_1_l.
  rewrite (proj2 (Z.eqb_eq _ _) HD). cbn [negb]. rewrite HG. cbn [bind].
  destruct (Z.ltb_spec n 0); [lia | ]. cbn [bind]. rewrite Z.shiftl_1_l.
  rewrite <- Z.pow_sub_r by lia.
  set (body := fun k => Q_k <- CirclePoint.power Q (4 * k + 1) ;; generate_twin_coset Q_k G).
  assert (Hbody : forall k, 0 <= k -> exists Q_k T,
             CirclePoint.power Q (4 * k + 1) = Ok Q_k /\
             generate_twin_coset Q_k G = Ok T /\ Z.of_nat (length T) = 2 ^ n).
  { intros k Hk. destruct (power_on_circle Q (4 * k + 1) HQ ltac:(lia)) as (Q_k & HQk & Hc).
    destruct (generate_twin_coset_total Q_k G Hc HGc) as (T & HT & Hl).
    exists Q_k, T. split; [exact HQk | split; [exact HT | ]].
    rewrite Hl, Nat2Z.inj_mul, HGl. change (Z.of_nat 2) with 2.
    rewrite <- Z.pow_succ_r by lia. f_equal. lia. }
  destruct (mapM_total body (range 0 (2 ^ (m - n)))) as (tcs & Htcs).
  { intros k Hk. apply range_In in Hk. destruct (Hbody k ltac:(lia)) as (Q_k & T & H1 & H2 & _).
    exists T. subst body. cbn beta. rewrite H1. exact H2. }
  exists tcs. split; [exact Htcs | split].
  - rewrite (mapM_length _ _ _ Htcs), range_length.
    pose proof (Z.pow_pos_nonneg 2 (m - n)). lia.
  - intros k Hk. destruct (Hbody k ltac:(lia)) as (Q_k & T & H1 & H2 & H3).
    exists Q_k, T. split; [exact H1 | split; [exact H2 | split; [ | exact H3]]].
    destruct (mapM_nth_error body _ _ Htcs (Z.to_nat k) (0 + k)
                (range_nth_error 0 (2 ^ (m - n)) k ltac:(lia))) as (T' & HT' & Hn).
    subst body. cbn beta in HT'. rewrite Z.add_0_l, H1 in HT'. cbn [bind] in HT'.
    congruence.
Qed.

(** * Further properties of the notebook's code *)

(** ** Field arithmetic *)

(** Proves an equation between field elements that holds as a polynomial
    identity on the representatives. *)
Ltac fe_ring :=
  apply canonical_cong_eq;
  [ first [apply init_canonical | assumption]
  | first [apply init_canonical | assumption]
  | push_value; unfold cong, eqm; f_equal; ring ].

(** [+], [-] and [*] obey the laws of a commutative ring; [zero] and [one] are
    neutral on canonical elements. *)
Theorem field_element_ring_laws (a b c : FE) :
  canonical a ->
  FieldElement.add a b = FieldElement.add b a /\
  FieldElement.add (FieldElement.add a b) c = FieldElement.add a (FieldElement.add b c) /\
  FieldElement.mul a b = FieldElement.mul b a /\
  FieldElement.mul (FieldElement.mul a b) c = FieldElement.mul a (FieldElement.mul b c) /\
  FieldElement.mul a (FieldElement.add b c)
    = FieldElement.add (FieldElement.mul a b) (FieldElement.mul a c) /\
  FieldElement.add a (FieldElement.neg a) = FieldElement.zero /\
  FieldElement.sub a b = FieldElement.add a (FieldElement.neg b) /\
  FieldElement.add a FieldElement.zero = a /\
  FieldElement.mul a FieldElement.one = a.
Proof.
  intros Ha. do 7 (split; [fe_ring | ]). split; fe_ring.
Qed.

Lemma field_element_ring_laws_witness :
  canonical (FieldElement.init 5) /\
  FieldElement.mul (FieldElement.init 5) (FieldElement.init 10) = FieldElement.init 19 /\
  FieldElement.mul (FieldElement.init 5) (FieldElement.init 10)
    = FieldElement.mul (FieldElement.init 10) (FieldElement.init 5).
Proof.
  assert (H : canonical (FieldElement.init 5)) by apply init_canonical.
  destruct (field_element_ring_laws (FieldElement.init 5) (FieldElement.init 10)
              (FieldElement.init 0) H) as (_ & _ & Hm & _).
  split; [exact H | split; [reflexivity | exact Hm]].
Defined.

(** Subtraction undoes addition and addition undoes subtraction. *)
Theorem add_sub_round_trip (a b : FE) :
  canonical a ->
  FieldElement.sub (FieldElement.add a b) b = a /\
  FieldElement.add (FieldElement.sub a b) b = a.
Proof.
  intros Ha. split; fe_ring.
Qed.

Lemma add_sub_round_trip_witness :
  canonical (FieldElement.init 5) /\
  FieldElement.sub (FieldElement.add (FieldElement.init 5) (FieldElement.init 30))
                   (FieldElement.init 30) = FieldElement.init 5.
Proof.
  assert (H : canonical (FieldElement.init 5)) by apply init_canonical.
  split; [exact H | exact (proj1 (add_sub_round_trip _ (FieldElement.init 30) H))].
Defined.

Lemma inv_of_zero (a : FE) :
  FieldElement.value a = 0 -> FieldElement.inv a = Err ZeroDivisionError.
Proof. intros E. unfold FieldElement.inv. now rewrite E. Qed.

(** [inv] raises exactly on the element zero, and otherwise returns the
    multiplicative inverse. *)
Theorem inv_is_the_multiplicative_inverse (a : FE) :
  canonical a ->
  match FieldElement.inv a with
  | Ok i => FieldElement.value a <> 0 /\ canonical i /\
            FieldElement.mul a i = FieldElement.one
  | Err e => e = ZeroDivisionError /\ a = FieldElement.zero
  end.
Proof.
  intros Ha. destruct (Z.eq_dec (FieldElement.value a) 0) as [E | N].
  - rewrite (inv_of_zero a E). split; [reflexivity | ].
    apply FE_eq. exact E.
  - destruct (inv_correct a Ha N) as (-> & Hi).
    split; [exact N | split; [apply init_canonical | ]].
    apply canonical_cong_eq; [apply init_canonical | apply init_canonical | ].
    push_value. exact Hi.
Qed.

Lemma inv_is_the_multiplicative_inverse_witness :
  canonical (FieldElement.init 5) /\
  FieldElement.inv (FieldElement.init 5) = Ok (FieldElement.init 25) /\
  FieldElement.mul (FieldElement.init 5) (FieldElement.init 25) = FieldElement.one.
Proof.
  assert (H : canonical (FieldElement.init 5)) by apply init_canonical.
  pose proof (inv_is_the_multiplicative_inverse (FieldElement.init 5) H) as Hi.
  change (FieldElement.inv (FieldElement.init 5)) with (Ok (FieldElement.init 25)) in Hi.
  split; [exact H | split; [reflexivity | exact (proj2 (proj2 Hi))]].
Defined.

Lemma mul_inverse_cancel (a b i : FE) :
  canonical a ->
  FieldElement.value b * FieldElement.value i ==m 1 ->
  FieldElement.mul (FieldElement.mul a i) b = a /\
  FieldElement.mul (FieldElement.mul a b) i = a.
Proof.
  intros Ha Hv.
  split; (apply canonical_cong_eq; [apply init_canonical | assumption | ]); push_value.
  - replace (FieldElement.value a * FieldElement.value i * FieldElement.value b)
      with (FieldElement.value a * (FieldElement.value b * FieldElement.value i)) by ring.
    rewrite Hv. now rewrite Z.mul_1_r.
  - replace (FieldElement.value a * FieldElement.value b * FieldElement.value i)
      with (FieldElement.value a * (FieldElement.value b * FieldElement.value i)) by ring.
    rewrite Hv. now rewrite Z.mul_1_r.
Qed.

(** Division raises exactly when the divisor is zero, and otherwise is undone
    by multiplication, in both orders. *)
Theorem truediv_mul_round_trip (a b : FE) :
  canonical a -> canonical b ->
  match FieldElement.truediv a b with
  | Ok q => FieldElement.value b <> 0 /\
            FieldElement.mul q b = a /\
            FieldElement.truediv (FieldElement.mul a b) b = Ok a
  | Err e => e = ZeroDivisionError /\ b = FieldElement.zero
  end.
Proof.
  intros Ha Hb. unfold FieldElement.truediv.
  destruct (Z.eq_dec (FieldElement.value b) 0) as [E | Hnz].
  { rewrite (inv_of_zero b E). cbn [bind]. split; [reflexivity | now apply FE_eq]. }
  destruct (inv_correct b Hb Hnz) as (Hi & Hv). rewrite Hi. cbn [bind].
  destruct (mul_inverse_cancel a b (inv_value b) Ha Hv) as (H1 & H2).
  split; [exact Hnz | split; [exact H1 | now rewrite H2]].
Qed.

Lemma truediv_mul_round_trip_witness :
  canonical (FieldElement.init 5) /\ canonical (FieldElement.init 10) /\
  FieldElement.truediv (FieldElement.init 5) (FieldElement.init 10)
    = Ok (FieldElement.init 16) /\
  FieldElement.mul (FieldElement.init 16) (FieldElement.init 10) = FieldElement.init 5.
Proof.
  assert (H5 : canonical (FieldElement.init 5)) by apply init_canonical.
  assert (H10 : canonical (FieldElement.init 10)) by apply init_canonical.
  pose proof (truediv_mul_round_trip _ _ H5 H10) as Hd.
  change (FieldElement.truediv (FieldElement.init 5) (FieldElement.init 10))
    with (Ok (FieldElement.init 16)) in Hd.
  split; [exact H5 | split; [exact H10 | split; [reflexivity | exact (proj1 (proj2 Hd))]]].
Defined.

Lemma cong_pow (a b n : Z) : a ==m b -> 0 <= n -> a ^ n ==m b ^ n.
Proof.
  intros Hab Hn. rewrite <- (Z2Nat.id n Hn).
  induction (Z.to_nat n) as [|k IH]; [reflexivity | ].
  rewrite Nat2Z.inj_succ, !Z.pow_succ_r by lia. rewrite IH, Hab. reflexivity.
Qed.

Lemma pow_loop_value (p : positive) :
  forall res base,
    FieldElement.value (FieldElement.pow_loop p res base)
    ==m FieldElement.value res * FieldElement.value base ^ Zpos p.
Proof.
  induction p as [q IH | q IH | ]; intros res base; cbn [FieldElement.pow_loop].
  - rewrite IH. push_value.
    rewrite (cong_pow _ _ (Zpos q) (value_square base)) by lia.
    rewrite Pos2Z.inj_xI, Z.pow_add_r, Z.pow_mul_r, Z.pow_2_r, Z.pow_1_r by lia.
    unfold cong, eqm. f_equal. ring.
  - rewrite IH.
    rewrite (cong_pow _ _ (Zpos q) (value_square base)) by lia.
    rewrite Pos2Z.inj_xO, Z.pow_mul_r, Z.pow_2_r by lia. reflexivity.
  - push_value. now rewrite Z.pow_1_r.
Qed.

Lemma pow_loop_canonical (p : positive) :
  forall res base, canonical (FieldElement.pow_loop p res base).
Proof.
  induction p as [q IH | q IH | ]; intros res base; cbn [FieldElement.pow_loop];
    [apply IH | apply IH | apply init_canonical].
Qed.

Lemma pow_nonnegative (a : FE) (e : Z) :
  0 <= e -> FieldElement.pow a e = Ok (FieldElement.init (FieldElement.value a ^ e)).
Proof.
  intros He. unfold FieldElement.pow. destruct (Z.ltb_spec e 0); [lia | ].
  destruct e as [ | p | p]; [reflexivity | | lia].
  f_equal. apply canonical_cong_eq; [apply pow_loop_canonical | apply init_canonical | ].
  rewrite pow_loop_value.
  change (FieldElement.value (FieldElement.init 1)) with 1.
  rewrite value_init, mod_cong. now rewrite Z.mul_1_l.
Qed.

(** [__pow__] raises on a negative exponent and otherwise computes the power
    of the representative, reduced modulo [MOD]; in particular the exponent 0
    gives one. *)
Theorem pow_computes_the_power (a : FE) (e : Z) :
  FieldElement.pow a e =
  if e <? 0 then Err (ValueError NegativeExponent)
  else Ok (FieldElement.init (FieldElement.value a ^ e)).
Proof.
  destruct (Z.ltb_spec e 0) as [Hneg | Hpos].
  - unfold FieldElement.pow. destruct (Z.ltb_spec e 0); [reflexivity | lia].
  - now apply pow_nonnegative.
Qed.

(** The square-and-multiply [__pow__] and the builtin modular power inside
    [inv] agree: [a ** (MOD - 2)] is [a.inv()], and [a ** (MOD - 1)] is one,
    for every non-zero [a]. *)
Theorem pow_agrees_with_inv (a : FE) :
  canonical a -> FieldElement.value a <> 0 ->
  FieldElement.pow a (MOD - 2) = FieldElement.inv a /\
  FieldElement.pow a (MOD - 1) = Ok FieldElement.one.
Proof.
  intros Ha Hnz. destruct (inv_correct a Ha Hnz) as (Hi & Hone).
  rewrite !pow_nonnegative by (unfold MOD; lia).
  split.
  - rewrite Hi. f_equal. unfold inv_value. apply init_cong. now rewrite mod_cong.
  - f_equal. apply canonical_cong_eq; [apply init_canonical | apply init_canonical | ].
    rewrite value_init, mod_cong, value_one.
    transitivity (FieldElement.value a * FieldElement.value (inv_value a));
      [ | exact Hone].
    unfold inv_value. rewrite value_init, !mod_cong.
    replace (MOD - 1) with (Z.succ (MOD - 2)) by lia.
    rewrite Z.pow_succ_r by (unfold MOD; lia). reflexivity.
Qed.

Lemma pow_agrees_with_inv_witness :
  canonical (FieldElement.init 5) /\ FieldElement.value (FieldElement.init 5) <> 0 /\
  FieldElement.pow (FieldElement.init 5) (MOD - 2) = FieldElement.inv (FieldElement.init 5) /\
  FieldElement.pow (FieldElement.init 5) (MOD - 1) = Ok FieldElement.one.
Proof.
  assert (H : canonical (FieldElement.init 5)) by apply init_canonical.
  assert (N : FieldElement.value (FieldElement.init 5) <> 0) by discriminate.
  split; [exact H | split; [exact N | exact (pow_agrees_with_inv _ H N)]].
Defined.

(** ** The circle group *)

Lemma point_eq (P R : Point) :
  CirclePoint.x P = CirclePoint.x R -> CirclePoint.y P = CirclePoint.y R -> P = R.
Proof. destruct P, R; cbn; congruence. Qed.

Lemma add_pt_on_circle (P R : Point) :
  on_circle P -> on_circle R -> on_circle (add_pt P R).
Proof.
  intros HP HR. apply on_circle_cong. apply on_circle_cong in HP, HR.
  cbn [CirclePoint.x CirclePoint.y add_pt]. push_value.
  set (x1 := FieldElement.value (CirclePoint.x P)) in *.
  set (y1 := FieldElement.value (CirclePoint.y P)) in *.
  set (x2 := FieldElement.value (CirclePoint.x R)) in *.
  set (y2 := FieldElement.value (CirclePoint.y R)) in *.
  replace ((x1 * x2 - y1 * y2) * (x1 * x2 - y1 * y2)
           + (x1 * y2 + x2 * y1) * (x1 * y2 + x2 * y1))
    with ((x1 * x1 + y1 * y1) * (x2 * x2 + y2 * y2)) by ring.
  rewrite HP, HR. reflexivity.
Qed.

Lemma add_is_add_pt (P R : Point) :
  on_circle P -> on_circle R ->
  CirclePoint.add P R = Ok (add_pt P R) /\ on_circle (add_pt P R).
Proof.
  intros HP HR. pose proof (add_pt_on_circle P R HP HR) as Hc.
  split; [ | exact Hc]. unfold CirclePoint.add, add_pt in *. now apply init_ok.
Qed.

Lemma neg_pt_on_circle (P : Point) : on_circle P -> on_circle (neg_pt P).
Proof.
  intros HP. apply on_circle_cong. apply on_circle_cong in HP.
  cbn [CirclePoint.x CirclePoint.y neg_pt]. push_value.
  rewrite Z.mul_opp_opp. exact HP.
Qed.

Lemma inverse_is_neg_pt (P : Point) :
  on_circle P -> CirclePoint.inverse P = Ok (neg_pt P) /\ on_circle (neg_pt P).
Proof.
  intros HP. pose proof (neg_pt_on_circle P HP) as Hc.
  split; [ | exact Hc]. unfold CirclePoint.inverse, neg_pt in *. now apply init_ok.
Qed.

Lemma double_coordinates (x y : FE) :
  FieldElement.value x * FieldElement.value x
  + FieldElement.value y * FieldElement.value y ==m 1 ->
  FieldElement.sub (FieldElement.double (FieldElement.square x)) FieldElement.one
    = FieldElement.sub (FieldElement.mul x x) (FieldElement.mul y y) /\
  FieldElement.mul (FieldElement.double x) y
    = FieldElement.add (FieldElement.mul x y) (FieldElement.mul x y).
Proof.
  intros H. split; [ | fe_ring].
  apply canonical_cong_eq; [apply init_canonical | apply init_canonical | ].
  push_value.
  set (a := FieldElement.value x) in *. set (b := FieldElement.value y) in *.
  replace (a * a - b * b) with (a * a + a * a - (a * a + b * b)) by ring.
  now rewrite H.
Qed.

Lemma double_is_add_pt (P : Point) :
  on_circle P -> CirclePoint.double P = Ok (add_pt P P).
Proof.
  intros HP. destruct (add_is_add_pt P P HP HP) as (_ & Hc).
  apply on_circle_cong in HP.
  destruct (double_coordinates _ _ HP) as (E1 & E2).
  unfold CirclePoint.double. rewrite E1, E2. now apply init_ok.
Qed.

Lemma add_pt_comm (P R : Point) : add_pt P R = add_pt R P.
Proof. apply point_eq; cbn [CirclePoint.x CirclePoint.y add_pt]; fe_ring. Qed.

Lemma add_pt_assoc (P R T : Point) : add_pt P (add_pt R T) = add_pt (add_pt P R) T.
Proof. apply point_eq; cbn [CirclePoint.x CirclePoint.y add_pt]; fe_ring. Qed.

Lemma pt_coordinates (a b : Z) :
  FieldElement.value (CirclePoint.x (pt a b)) = a mod MOD /\
  FieldElement.value (CirclePoint.y (pt a b)) = b mod MOD.
Proof. split; reflexivity. Qed.

Lemma add_pt_identity_r (P : Point) :
  canonical (CirclePoint.x P) -> canonical (CirclePoint.y P) -> add_pt P (pt 1 0) = P.
Proof.
  intros Hx Hy. apply point_eq; cbn [CirclePoint.x CirclePoint.y add_pt pt];
    change (FieldElement.init 1) with FieldElement.one;
    change (FieldElement.init 0) with FieldElement.zero; fe_ring.
Qed.

Lemma add_pt_identity_l (P : Point) :
  canonical (CirclePoint.x P) -> canonical (CirclePoint.y P) -> add_pt (pt 1 0) P = P.
Proof. intros Hx Hy. rewrite add_pt_comm. now apply add_pt_identity_r. Qed.

Lemma add_pt_canonical (P R : Point) :
  canonical (CirclePoint.x (add_pt P R)) /\ canonical (CirclePoint.y (add_pt P R)).
Proof. split; apply init_canonical. Qed.

Lemma add_pt_neg_pt (P : Point) : on_circle P -> add_pt P (neg_pt P) = pt 1 0.
Proof.
  intros HP. apply on_circle_cong in HP.
  apply point_eq; cbn [CirclePoint.x CirclePoint.y add_pt neg_pt pt];
    (apply canonical_cong_eq; [apply init_canonical | apply init_canonical | ]);
    push_value; rewrite value_init, mod_cong.
  - rewrite <- HP. unfold cong, eqm. f_equal. ring.
  - unfold cong, eqm. f_equal. ring.
Qed.

(** The circle points form an abelian group under [add], with [identity] as
    neutral element and [inverse] as inverse. *)
Theorem circle_group_laws (P R T : Point) :
  valid_point P -> on_circle R -> on_circle T ->
  (I <- CirclePoint.identity ;; CirclePoint.add I P) = Ok P /\
  (I <- CirclePoint.identity ;; CirclePoint.add P I) = Ok P /\
  (P' <- CirclePoint.inverse P ;; CirclePoint.add P P') = CirclePoint.identity /\
  (P' <- CirclePoint.inverse P ;; CirclePoint.inverse P') = Ok P /\
  CirclePoint.add P R = CirclePoint.add R P /\
  (PR <- CirclePoint.add P R ;; CirclePoint.add PR T)
    = (RT <- CirclePoint.add R T ;; CirclePoint.add P RT).
Proof.
  intros (Hx & Hy & HP) HR HT. rewrite identity_ok. cbn [bind].
  destruct (inverse_is_neg_pt P HP) as (-> & HPn). cbn [bind].
  destruct (add_is_add_pt _ _ identity_on_circle HP) as (-> & _).
  destruct (add_is_add_pt _ _ HP identity_on_circle) as (-> & _).
  destruct (add_is_add_pt _ _ HP HPn) as (-> & _).
  destruct (inverse_is_neg_pt _ HPn) as (-> & _).
  destruct (add_is_add_pt _ _ HP HR) as (-> & HPR).
  destruct (add_is_add_pt _ _ HR HP) as (-> & _).
  destruct (add_is_add_pt _ _ HR HT) as (-> & HRT). cbn [bind].
  destruct (add_is_add_pt _ _ HPR HT) as (-> & _).
  destruct (add_is_add_pt _ _ HP HRT) as (-> & _).
  split; [now rewrite add_pt_identity_l | ].
  split; [now rewrite add_pt_identity_r | ].
  split; [now rewrite add_pt_neg_pt | ].
  split; [ | split; [now rewrite add_pt_comm | now rewrite add_pt_assoc]].
  f_equal. apply point_eq; cbn [CirclePoint.x CirclePoint.y neg_pt]; [reflexivity | ].
  fe_ring.
Qed.

Lemma circle_group_laws_witness :
  valid_point (pt 13 7) /\ on_circle (pt 30 0) /\ on_circle (pt 2 11) /\
  CirclePoint.add (pt 13 7) (pt 30 0) = Ok (pt 18 24) /\
  CirclePoint.add (pt 13 7) (pt 30 0) = CirclePoint.add (pt 30 0) (pt 13 7).
Proof.
  assert (H2 : on_circle (pt 30 0)) by reflexivity.
  assert (H3 : on_circle (pt 2 11)) by reflexivity.
  destruct (circle_group_laws (pt 13 7) (pt 30 0) (pt 2 11) valid_13_7 H2 H3)
    as (_ & _ & _ & _ & Hc & _).
  split; [exact valid_13_7 | split; [exact H2 | split; [exact H3 | ]]].
  split; [reflexivity | exact Hc].
Defined.

(** ** Powers of a circle point *)

Lemma iter_op_on_circle (p : positive) :
  forall P, on_circle P -> on_circle (Pos.iter_op add_pt p P).
Proof.
  induction p as [q IH | q IH | ]; intros P HP; cbn [Pos.iter_op].
  - apply add_pt_on_circle; [assumption | ]. apply IH. now apply add_pt_on_circle.
  - apply IH. now apply add_pt_on_circle.
  - assumption.
Qed.

Lemma power_loop_is_iter_op (p : positive) :
  forall out base, on_circle out -> on_circle base ->
    CirclePoint.power_loop p out base = Ok (add_pt out (Pos.iter_op add_pt p base)).
Proof.
  induction p as [q IH | q IH | ]; intros out base Ho Hb;
    cbn [CirclePoint.power_loop Pos.iter_op];
    destruct (add_is_add_pt out base Ho Hb) as (Ea & Hab);
    pose proof (double_is_add_pt base Hb) as Ed;
    pose proof (add_pt_on_circle base base Hb Hb) as Hbb.
  - rewrite Ea, Ed. cbn [bind]. rewrite IH by assumption. now rewrite add_pt_assoc.
  - rewrite Ed. cbn [bind]. now apply IH.
  - rewrite Ea, Ed. reflexivity.
Qed.

Lemma pow_pt_succ (P : Point) (n : Z) :
  0 <= n -> pow_pt P (Z.succ n) = add_pt (pow_pt P n) P.
Proof. intros Hn. unfold pow_pt. rewrite Z2Nat.inj_succ by assumption. reflexivity. Qed.

Lemma pow_pt_on_circle (P : Point) (n : Z) : on_circle P -> on_circle (pow_pt P n).
Proof.
  intros HP. unfold pow_pt. induction (Z.to_nat n) as [|k IH]; cbn [Nat.iter];
    [exact identity_on_circle | now apply add_pt_on_circle].
Qed.

Lemma pow_pt_canonical (P : Point) (n : Z) :
  canonical (CirclePoint.x (pow_pt P n)) /\ canonical (CirclePoint.y (pow_pt P n)).
Proof.
  unfold pow_pt. destruct (Z.to_nat n) as [|k]; cbn [Nat.iter];
    [split; apply init_canonical | apply add_pt_canonical].
Qed.

Lemma iter_op_is_pow_pt (p : positive) (P : Point) :
  add_pt (pt 1 0) (Pos.iter_op add_pt p P) = pow_pt P (Zpos p).
Proof.
  induction p as [ | p IH] using Pos.peano_ind; [reflexivity | ].
  rewrite Pos.iter_op_succ by (intros; apply add_pt_assoc).
  rewrite Pos2Z.inj_succ, pow_pt_succ, <- IH by lia.
  now rewrite (add_pt_comm P), add_pt_assoc.
Qed.

Lemma power_is_pow_pt (P : Point) (n : Z) :
  on_circle P -> 0 <= n -> CirclePoint.power P n = Ok (pow_pt P n).
Proof.
  intros HP Hn. unfold CirclePoint.power.
  destruct (Z.ltb_spec n 0); [lia | ]. rewrite identity_ok. cbn [bind].
  rewrite init_ok by (destruct P; exact HP). cbn [bind].
  destruct n as [ | p | p]; [reflexivity | | lia].
  rewrite power_loop_is_iter_op by (try exact identity_on_circle; destruct P; exact HP).
  destruct P. now rewrite iter_op_is_pow_pt.
Qed.

Lemma pow_pt_add (P : Point) (n m : Z) :
  0 <= n -> 0 <= m -> pow_pt P (n + m) = add_pt (pow_pt P n) (pow_pt P m).
Proof.
  intros Hn Hm. rewrite <- (Z2Nat.id m Hm).
  induction (Z.to_nat m) as [|k IH].
  - rewrite Z.add_0_r. symmetry. apply add_pt_identity_r; apply pow_pt_canonical.
  - rewrite Nat2Z.inj_succ, Z.add_succ_r, !pow_pt_succ, IH by lia.
    now rewrite add_pt_assoc.
Qed.

Lemma pow_pt_mul (P : Point) (n m : Z) :
  0 <= n -> 0 <= m -> pow_pt P (n * m) = pow_pt (pow_pt P n) m.
Proof.
  intros Hn Hm. rewrite <- (Z2Nat.id m Hm).
  induction (Z.to_nat m) as [|k IH].
  - rewrite Z.mul_0_r. reflexivity.
  - rewrite Nat2Z.inj_succ, Z.mul_succ_r, pow_pt_add, pow_pt_succ, IH by lia.
    reflexivity.
Qed.

(** [power] raises on a negative exponent and otherwise returns the
    [n]-fold product of the point with itself, starting from the identity. *)
Theorem power_is_repeated_addition (P : Point) (n : Z) :
  on_circle P ->
  CirclePoint.power P n =
  if n <? 0 then Err (ValueError NegativeExponent) else Ok (pow_pt P n).
Proof.
  intros HP. destruct (Z.ltb_spec n 0) as [Hneg | Hpos].
  - unfold CirclePoint.power. destruct (Z.ltb_spec n 0); [reflexivity | lia].
  - now apply power_is_pow_pt.
Qed.

Lemma power_is_repeated_addition_witness :
  on_circle (pt 13 7) /\
  CirclePoint.power (pt 13 7) 3 = Ok (pt 7 13) /\
  pow_pt (pt 13 7) 3 = add_pt (add_pt (add_pt (pt 1 0) (pt 13 7)) (pt 13 7)) (pt 13 7).
Proof.
  assert (H : on_circle (pt 13 7)) by reflexivity.
  pose proof (power_is_repeated_addition (pt 13 7) 3 H) as E.
  split; [exact H | split; [ | reflexivity]].
  rewrite E. reflexivity.
Defined.



(** ** Orders, generators and nested subgroups *)

Lemma result_eqb_eq (a b : result Point) : result_eqb a b = true -> a = b.
Proof.
  destruct a as [P|], b as [R|]; cbn; try discriminate.
  intros H. apply point_eqb_eq in H. now subst.
Qed.

Lemma Ok_inj {A} (a b : A) : Ok a = Ok b -> a = b.
Proof. intros H. now inversion H. Qed.




Lemma on_circle_b_spec (P : Point) : on_circle_b P = true <-> on_circle P.
Proof. unfold on_circle_b, on_circle. apply Z.eqb_eq. Qed.

Lemma generator_check_holds : generator_check = true.
Proof. vm_compute. reflexivity. Qed.

(** The brute-force search returns [(2, 11)], and this point generates the
    whole circle group: every circle point is one of its first 32 powers. *)
Theorem find_generator_generates_the_circle :
  find_generator = Ok (pt 2 11) /\
  on_circle (pt 2 11) /\
  forall P, valid_point P ->
    exists i, 0 <= i < MOD + 1 /\ CirclePoint.power (pt 2 11) i = Ok P.
Proof.
  split; [reflexivity | split; [reflexivity | ]].
  intros P HP. pose proof generator_check_holds as H. unfold generator_check in H.
  change find_generator with (Ok (pt 2 11)) in H.
  apply andb_true_iff in H. destruct H as (_ & H).
  rewrite forallb_forall in H.
  specialize (H P (proj1 (valid_point_enumerated P) HP)).
  apply existsb_exists in H. destruct H as (i & Hi%range_In & E%result_eqb_eq).
  exists i. split; [lia | exact E].
Qed.

Lemma nth_generator_check_all : forallb nth_generator_check (range 0 6) = true.
Proof. vm_compute. reflexivity. Qed.

(** For [0 <= k <= 5], [get_nth_generator k] returns a circle point of order
    exactly [2^k]. *)
Theorem get_nth_generator_has_order_2k (k : Z) :
  0 <= k <= 5 ->
  exists g,
    get_nth_generator k = Ok g /\
    on_circle g /\
    CirclePoint.power g (2 ^ k) = CirclePoint.identity /\
    forall j, 0 <= j < k -> CirclePoint.power g (2 ^ j) <> CirclePoint.identity.
Proof.
  intros Hk. pose proof nth_generator_check_all as Hall.
  rewrite forallb_forall in Hall.
  specialize (Hall k (proj2 (range_In 0 6 k) ltac:(lia))).
  unfold nth_generator_check in Hall.
  destruct (get_nth_generator k) as [g|]; [ | discriminate].
  rewrite !andb_true_iff in Hall. destruct Hall as ((Hc & Ho) & Hj).
  exists g. split; [reflexivity | split; [now apply on_circle_b_spec | split]].
  - now apply result_eqb_eq.
  - intros j Hjk E. rewrite forallb_forall in Hj.
    specialize (Hj j (proj2 (range_In 0 k j) Hjk)).
    rewrite E in Hj. discriminate Hj.
Qed.

Lemma get_nth_generator_has_order_2k_witness :
  exists g,
    get_nth_generator 3 = Ok g /\
    on_circle g /\
    CirclePoint.power g (2 ^ 3) = CirclePoint.identity /\
    forall j, 0 <= j < 3 -> CirclePoint.power g (2 ^ j) <> CirclePoint.identity.
Proof. apply (get_nth_generator_has_order_2k 3). lia. Defined.

(** A subgroup size that does not divide [MOD + 1 = 32] is refused: a negative
    [k] raises the interpreter's error for a negative shift count, and
    [k > 5] raises the "Cannot generate subgroup" [ValueError], from both
    [get_nth_generator] and [generate_subgroup]. *)
Theorem subgroup_size_is_checked (k : Z) :
  k < 0 \/ 5 < k ->
  let e := ValueError (if k <? 0 then NegativeShift else SubgroupSize) in
  get_nth_generator k = Err e /\ generate_subgroup k = Err e.
Proof.
  intros Hk e. subst e.
  assert (H : get_nth_generator k
              = Err (ValueError (if k <? 0 then NegativeShift else SubgroupSize))).
  { unfold get_nth_generator, shl1.
    destruct (Z.ltb_spec k 0) as [Hneg | Hpos]; [reflexivity | cbn [bind]].
    rewrite Z.shiftl_1_l.
    destruct (Z.eqb_spec ((MOD + 1) mod 2 ^ k) 0) as [Hd | Hd]; [ | reflexivity].
    pose proof (subgroup_exponent_bound k Hpos Hd). lia. }
  split; [exact H | ]. unfold generate_subgroup. now rewrite H.
Qed.

Lemma subgroup_size_is_checked_witness :
  get_nth_generator 6 = Err (ValueError SubgroupSize) /\
  generate_subgroup 6 = Err (ValueError SubgroupSize) /\
  generate_subgroup (-1) = Err (ValueError NegativeShift).
Proof.
  assert (Hbig : 6 < 0 \/ 5 < 6) by (right; lia).
  assert (Hneg : -1 < 0 \/ 5 < -1) by (left; lia).
  destruct (subgroup_size_is_checked 6 Hbig) as (H1 & H2).
  destruct (subgroup_size_is_checked (-1) Hneg) as (_ & H3).
  split; [exact H1 | split; [exact H2 | exact H3]].
Defined.

Lemma nested_check_all : forallb nested_check (range 0 5) = true.
Proof. vm_compute. reflexivity. Qed.

(** The subgroups are nested: [G_k] consists of the entries of [G_(k+1)] at
    the even indices, in the same order, and the generator of [G_k] is the
    square of the generator of [G_(k+1)]. *)
Theorem subgroups_are_nested (k : Z) :
  0 <= k < 5 ->
  exists G G' g',
    generate_subgroup k = Ok G /\
    generate_subgroup (k + 1) = Ok G' /\
    G = stride_even G' /\
    get_nth_generator (k + 1) = Ok g' /\
    get_nth_generator k = CirclePoint.double g'.
Proof.
  intros Hk. pose proof nested_check_all as Hall.
  rewrite forallb_forall in Hall.
  specialize (Hall k (proj2 (range_In 0 5 k) Hk)).
  unfold nested_check in Hall.
  destruct (generate_subgroup k) as [G|]; [ | discriminate].
  destruct (generate_subgroup (k + 1)) as [G'|]; [ | discriminate].
  apply andb_true_iff in Hall. destruct Hall as (HG%list_eqb_eq & Hg).
  destruct (get_nth_generator (k + 1)) as [g'|].
  - apply result_eqb_eq in Hg. exists G, G', g'. repeat split; assumption.
  - destruct (get_nth_generator k); discriminate Hg.
Qed.

Lemma subgroups_are_nested_witness :
  exists G G' g',
    generate_subgroup 2 = Ok G /\
    generate_subgroup (2 + 1) = Ok G' /\
    G = stride_even G' /\
    get_nth_generator (2 + 1) = Ok g' /\
    get_nth_generator 2 = CirclePoint.double g'.
Proof. apply (subgroups_are_nested 2). lia. Defined.

(** ** Cosets as translates *)

Lemma mapM_add_is_map (Q : Point) (G : list Point) :
  on_circle Q -> Forall on_circle G ->
  mapM (fun g => CirclePoint.add Q g) G = Ok (map (add_pt Q) G).
Proof.
  intros HQ HG. induction HG as [|g G Hg _ IH]; [reflexivity | ].
  cbn [mapM map]. destruct (add_is_add_pt Q g HQ Hg) as (-> & _).
  cbn [bind]. now rewrite IH.
Qed.

Lemma add_pt_cancel (Q g : Point) :
  on_circle Q -> canonical (CirclePoint.x g) -> canonical (CirclePoint.y g) ->
  add_pt (neg_pt Q) (add_pt Q g) = g.
Proof.
  intros HQ Hx Hy.
  rewrite add_pt_assoc, (add_pt_comm (neg_pt Q) Q), add_pt_neg_pt by assumption.
  now apply add_pt_identity_l.
Qed.

Lemma NoDup_map_injective {A B} (f : A -> B) (l : list A) :
  (forall a b, In a l -> In b l -> f a = f b -> a = b) ->
  NoDup l -> NoDup (map f l).
Proof.
  intros Hinj Hnd. induction Hnd as [|a l Hnotin Hnd IH]; cbn; constructor.
  - intros Hin. apply in_map_iff in Hin. destruct Hin as (b & Hb & Hbl).
    apply Hnotin. rewrite (Hinj a b); [assumption | now left | now right | now symmetry].
  - apply IH. intros a' b' Ha' Hb'. apply Hinj; now right.
Qed.

(** On circle points the coset builders never raise: the standard position
    coset is the list of translates [Q * g], the twin coset appends the
    translates by the inverse of [Q]; translation keeps the points on the
    circle and keeps distinct points distinct. *)
Theorem cosets_are_translates (Q : Point) (G : list Point) :
  on_circle Q -> Forall valid_point G ->
  generate_standard_position_coset Q G = Ok (map (add_pt Q) G) /\
  generate_twin_coset Q G = Ok (map (add_pt Q) G ++ map (add_pt (neg_pt Q)) G) /\
  Forall valid_point (map (add_pt Q) G) /\
  (NoDup G -> NoDup (map (add_pt Q) G)).
Proof.
  intros HQ HG.
  assert (HGc : Forall on_circle G).
  { eapply Forall_impl; [ | exact HG]. intros g (_ & _ & Hg). exact Hg. }
  destruct (inverse_is_neg_pt Q HQ) as (Hinv & HQn).
  split; [now apply mapM_add_is_map | ].
  split.
  { unfold generate_twin_coset. rewrite Hinv. cbn [bind].
    rewrite !mapM_add_is_map by assumption. reflexivity. }
  split.
  { apply Forall_map. eapply Forall_impl; [ | exact HGc]. intros g Hg.
    split; [apply init_canonical | split; [apply init_canonical | ]].
    now apply add_pt_on_circle. }
  apply NoDup_map_injective. intros a b Ha Hb E.
  rewrite Forall_forall in HG.
  destruct (HG a Ha) as (Hax & Hay & _). destruct (HG b Hb) as (Hbx & Hby & _).
  rewrite <- (add_pt_cancel Q a), <- (add_pt_cancel Q b) by assumption. now rewrite E.
Qed.

Lemma cosets_are_translates_witness :
  on_circle (pt 13 7) /\ Forall valid_point [pt 1 0; pt 30 0] /\
  generate_standard_position_coset (pt 13 7) [pt 1 0; pt 30 0]
    = Ok [pt 13 7; pt 18 24] /\
  generate_twin_coset (pt 13 7) [pt 1 0; pt 30 0]
    = Ok [pt 13 7; pt 18 24; pt 13 24; pt 18 7].
Proof.
  assert (HQ : on_circle (pt 13 7)) by reflexivity.
  assert (HG : Forall valid_point [pt 1 0; pt 30 0]).
  { repeat constructor; apply pt_valid; reflexivity. }
  destruct (cosets_are_translates (pt 13 7) _ HQ HG) as (H1 & H2 & _).
  split; [exact HQ | split; [exact HG | split; [exact H1 | exact H2]]].
Defined.

(** ** Symmetry of a standard position coset *)

Lemma conjugate_symmetric_spec (D : list Point) :
  conjugate_symmetric D = true <->
  forall i P, nth_error D i = Some P ->
    exists R, nth_error D (length D - 1 - i) = Some R /\ CirclePoint.inverse P = Ok R.
Proof.
  unfold conjugate_symmetric. rewrite forallb_forall. split.
  - intros H i P Hi.
    assert (Hlt : (i < length D)%nat) by (apply nth_error_Some; congruence).
    assert (Hin : In i (seq 0 (length D))) by (apply in_seq; lia).
    specialize (H i Hin). rewrite Hi in H.
    destruct (nth_error D (length D - 1 - i)) as [R|]; [ | discriminate].
    exists R. split; [reflexivity | now apply result_eqb_eq].
  - intros H i Hi. apply in_seq in Hi.
    destruct (nth_error D i) as [P|] eqn:EP;
      [ | apply nth_error_None in EP; lia].
    destruct (H i P EP) as (R & -> & E). rewrite E. cbn. now apply point_eqb_eq.
Qed.

Lemma result_eqb_spec (a b : result Point) :
  result_eqb a b = true <-> (a = b /\ exists P, a = Ok P).
Proof.
  split.
  - intros H. split; [now apply result_eqb_eq | ].
    destruct a as [P|]; [eauto | destruct b; discriminate].
  - intros (-> & (P & ->)). cbn. now apply point_eqb_eq.
Qed.

Lemma symmetry_check_all :
  forallb (fun Q => forallb (symmetry_check Q) (range 0 6)) circle_points = true.
Proof. vm_compute. reflexivity. Qed.

(** The pairing the top transform layer relies on: in the standard position
    coset [Q * G_k], the entry at index [N-1-i] is the inverse [(x, -y)] of the
    entry at index [i] for every [i] exactly when the square of the coset
    point is the generator of [G_k]. *)
Theorem standard_coset_conjugate_symmetry (Q : Point) (k : Z) (D : list Point) :
  valid_point Q ->
  standard_coset_of Q k = Ok D ->
  (forall i P, nth_error D i = Some P ->
     exists R, nth_error D (length D - 1 - i) = Some R /\ CirclePoint.inverse P = Ok R)
  <-> CirclePoint.double Q = get_nth_generator k.
Proof.
  intros HQ HD.
  assert (Hk : 0 <= k <= 5).
  { unfold standard_coset_of in HD.
    destruct (generate_subgroup k) as [G|] eqn:EG; [ | discriminate].
    now apply generate_subgroup_exponent in EG. }
  pose proof symmetry_check_all as Hall. rewrite forallb_forall in Hall.
  specialize (Hall Q (proj1 (valid_point_enumerated Q) HQ)).
  rewrite forallb_forall in Hall.
  specialize (Hall k (proj2 (range_In 0 6 k) ltac:(lia))).
  unfold symmetry_check in Hall. rewrite HD in Hall. apply Bool.eqb_prop in Hall.
  rewrite <- conjugate_symmetric_spec, Hall, result_eqb_spec.
  split; [now intros (E & _) | intros E; split; [exact E | ]].
  destruct HQ as (_ & _ & HQ). destruct (double_on_circle Q HQ) as (W & HW & _). eauto.
Qed.

Lemma standard_coset_conjugate_symmetry_witness :
  valid_point (pt 24 18) /\
  standard_coset_of (pt 24 18) 3 = Ok D_24_18 /\
  CirclePoint.double (pt 24 18) = get_nth_generator 3 /\
  forall i P, nth_error D_24_18 i = Some P ->
     exists R, nth_error D_24_18 (length D_24_18 - 1 - i) = Some R /\
               CirclePoint.inverse P = Ok R.
Proof.
  assert (HQ : valid_point (pt 24 18)) by (apply pt_valid; reflexivity).
  assert (HD : standard_coset_of (pt 24 18) 3 = Ok D_24_18) by reflexivity.
  assert (Hg : CirclePoint.double (pt 24 18) = get_nth_generator 3) by reflexivity.
  split; [exact HQ | split; [exact HD | split; [exact Hg | ]]].
  apply (proj2 (standard_coset_conjugate_symmetry (pt 24 18) 3 D_24_18 HQ HD)). exact Hg.
Defined.

(** ** Twin cosets inside a standard position coset *)

Lemma NoDup_distinct (l : list Point) : NoDup l -> distinct l = true.
Proof.
  induction 1 as [|P l Hnotin _ IH]; [reflexivity | ].
  cbn [distinct]. rewrite IH, andb_true_r. apply negb_true_iff.
  apply not_true_iff_false. now rewrite memb_In.
Qed.

Lemma partition_check_all :
  forallb (fun Q =>
     forallb (fun m => forallb (fun n => partition_check Q n m) (range 1 (m + 1)))
             (range 1 6))
    circle_points = true.
Proof. vm_compute. reflexivity. Qed.

(** When the module-level [Q] is the coset point of [D = Q * G_m], the twin
    cosets returned by the decomposition split [D] - every point of [D] in
    exactly one place of their concatenation - exactly when [Q] has order
    [2^(m+1)]. *)
Theorem twin_cosets_partition_the_coset (Q : Point) (n m : Z) (D : list Point) :
  valid_point Q -> 1 <= n <= m ->
  standard_coset_of Q m = Ok D ->
  exists tcs,
    decompose_to_twin_cosets Q D n m = Ok tcs /\
    ((NoDup (concat tcs) /\ forall P, In P (concat tcs) <-> In P D)
     <-> CirclePoint.power Q (2 ^ m) = Ok (pt (-1) 0)).
Proof.
  intros HQ Hnm HD.
  assert (Hm : 0 <= m <= 5).
  { unfold standard_coset_of in HD.
    destruct (generate_subgroup m) as [G|] eqn:EG; [ | discriminate].
    now apply generate_subgroup_exponent in EG. }
  pose proof partition_check_all as Hall. rewrite forallb_forall in Hall.
  specialize (Hall Q (proj1 (valid_point_enumerated Q) HQ)).
  rewrite forallb_forall in Hall.
  specialize (Hall m (proj2 (range_In 1 6 m) ltac:(lia))).
  rewrite forallb_forall in Hall.
  specialize (Hall n (proj2 (range_In 1 (m + 1) n) ltac:(lia))).
  unfold partition_check in Hall. rewrite HD in Hall.
  destruct (decompose_to_twin_cosets Q D n m) as [tcs|]; [ | discriminate].
  apply Bool.eqb_prop in Hall. exists tcs. split; [reflexivity | ].
  rewrite <- same_set_spec. split.
  - intros (Hnd & Hs). apply result_eqb_eq. rewrite <- Hall, Hs. now apply NoDup_distinct.
  - intros E. rewrite E in Hall. cbn in Hall.
    apply andb_true_iff in Hall. destruct Hall as (Hs & Hd).
    split; [now apply distinct_NoDup | exact Hs].
Qed.

Lemma twin_cosets_partition_the_coset_witness :
  valid_point (pt 13 7) /\
  standard_coset_of (pt 13 7) 3 = Ok D_13_7 /\
  exists tcs,
    decompose_to_twin_cosets (pt 13 7) D_13_7 2 3 = Ok tcs /\
    ((NoDup (concat tcs) /\ forall P, In P (concat tcs) <-> In P D_13_7)
     <-> CirclePoint.power (pt 13 7) (2 ^ 3) = Ok (pt (-1) 0)).
Proof.
  assert (HD : standard_coset_of (pt 13 7) 3 = Ok D_13_7) by reflexivity.
  split; [exact valid_13_7 | split; [exact HD | ]].
  apply (twin_cosets_partition_the_coset (pt 13 7) 2 3 D_13_7 valid_13_7); [lia | exact HD].
Defined.

(** ** Halving *)

Lemma halved_coset_check_all :
  forallb (fun Q => forallb (halved_coset_check Q) (range 1 6)) circle_points = true.
Proof. vm_compute. reflexivity. Qed.

(** Halving the standard position coset [Q * G_n] gives, as a set, the
    standard position coset of the squared coset point over the next smaller
    subgroup, [Q^2 * G_(n-1)]. *)
Theorem halved_coset_is_coset_of_the_square (Q : Point) (n : Z) (D : list Point) :
  valid_point Q -> 1 <= n ->
  standard_coset_of Q n = Ok D ->
  exists Q2 H D',
    CirclePoint.double Q = Ok Q2 /\
    halve_standard_position_coset_by_squaring_map D = Ok H /\
    standard_coset_of Q2 (n - 1) = Ok D' /\
    forall P, In P H <-> In P D'.
Proof.
  intros HQ Hn HD.
  assert (Hk : 0 <= n <= 5).
  { unfold standard_coset_of in HD.
    destruct (generate_subgroup n) as [G|] eqn:EG; [ | discriminate].
    now apply generate_subgroup_exponent in EG. }
  pose proof halved_coset_check_all as Hall. rewrite forallb_forall in Hall.
  specialize (Hall Q (proj1 (valid_point_enumerated Q) HQ)).
  rewrite forallb_forall in Hall.
  specialize (Hall n (proj2 (range_In 1 6 n) ltac:(lia))).
  unfold halved_coset_check in Hall. rewrite HD in Hall.
  destruct (CirclePoint.double Q) as [Q2|] eqn:E2; [ | discriminate].
  destruct (halve_standard_position_coset_by_squaring_map D) as [H|] eqn:EH;
    [ | discriminate].
  destruct (standard_coset_of Q2 (n - 1)) as [D'|] eqn:ED'; [ | discriminate].
  exists Q2, H, D'.
  split; [reflexivity | split; [reflexivity | split; [exact ED' | ]]].
  now apply same_set_spec.
Qed.

Lemma halved_coset_is_coset_of_the_square_witness :
  valid_point (pt 13 7) /\
  standard_coset_of (pt 13 7) 3 = Ok D_13_7 /\
  exists Q2 H D',
    CirclePoint.double (pt 13 7) = Ok Q2 /\
    halve_standard_position_coset_by_squaring_map D_13_7 = Ok H /\
    standard_coset_of Q2 (3 - 1) = Ok D' /\
    forall P, In P H <-> In P D'.
Proof.
  assert (HD : standard_coset_of (pt 13 7) 3 = Ok D_13_7) by reflexivity.
  split; [exact valid_13_7 | split; [exact HD | ]].
  apply (halved_coset_is_coset_of_the_square (pt 13 7) 3 D_13_7 valid_13_7); [lia | exact HD].
Defined.

Lemma key_eqb_eq (a b : Z * Z) : key_eqb a b = true <-> a = b.
Proof.
  unfold key_eqb. rewrite andb_true_iff, !Z.eqb_eq. destruct a, b; cbn.
  split; [intros (-> & ->); reflexivity | intros E; inversion E; auto].
Qed.

Lemma point_key_injective (P R : Point) : point_key P = point_key R -> P = R.
Proof.
  destruct P as [[a] [b]], R as [[c] [d]]. unfold point_key; cbn.
  intros E; inversion E; reflexivity.
Qed.

Lemma dict_set_values (d : list (Z * Z * Point)) (p : Point) :
  keyed d ->
  keyed (dict_set d (point_key p) p) /\
  map snd (dict_set d (point_key p) p)
    = if memb p (map snd d) then map snd d else map snd d ++ [p].
Proof.
  induction d as [|[k v] d IH]; intros Hk.
  - split; [ | reflexivity]. intros k v [E | []]. now inversion E.
  - assert (Hkv : k = point_key v) by (apply Hk; now left).
    assert (Hd : keyed d) by (intros k' v' H; apply Hk; now right).
    destruct (IH Hd) as (IHk & IHv). cbn [dict_set].
    destruct (key_eqb (point_key p) k) eqn:E.
    + apply key_eqb_eq in E. assert (p = v) by (apply point_key_injective; congruence).
      subst v. split.
      * intros k' v' [E' | Hin]; [congruence | apply Hk; now right].
      * cbn [map snd memb existsb]. now rewrite (proj2 (point_eqb_eq p p) eq_refl).
    + split.
      * intros k' v' [E' | Hin]; [congruence | now apply IHk].
      * cbn [map snd memb existsb]. rewrite IHv.
        assert (Hne : CirclePoint.eqb p v = false).
        { apply not_true_iff_false. rewrite point_eqb_eq. intros ->.
          rewrite Hkv in E. now rewrite (proj2 (key_eqb_eq _ _) eq_refl) in E. }
        rewrite Hne. cbn [orb]. unfold memb. now destruct (existsb _ _).
Qed.

Lemma unique_values (ps : list Point) :
  forall d, keyed d -> NoDup (map snd d) ->
    let d' := fold_left (fun d p => dict_set d (point_key p) p) ps d in
    NoDup (map snd d') /\
    forall P, In P (map snd d') <-> In P (map snd d) \/ In P ps.
Proof.
  induction ps as [|p ps IH]; intros d Hk Hnd; cbn [fold_left].
  - split; [assumption | intros P; cbn; tauto].
  - destruct (dict_set_values d p Hk) as (Hk' & Hv).
    assert (Hnd' : NoDup (map snd (dict_set d (point_key p) p))).
    { rewrite Hv. destruct (memb p (map snd d)) eqn:E; [assumption | ].
      apply NoDup_app; [assumption | repeat constructor; intros [] | ].
      intros a Ha [<- | []]. apply memb_In in Ha. congruence. }
    destruct (IH _ Hk' Hnd') as (H1 & H2). split; [exact H1 | ].
    intros P. rewrite H2, Hv.
    destruct (memb p (map snd d)) eqn:E.
    + apply memb_In in E. cbn. intuition (subst; auto).
    + rewrite in_app_iff. cbn. tauto.
Qed.

Lemma insert_by_key_In (p : Point) (l : list Point) (P : Point) :
  In P (insert_by_key p l) <-> P = p \/ In P l.
Proof.
  induction l as [|q l IH]; cbn [insert_by_key].
  - cbn. intuition.
  - destruct (key_leb _ _); cbn; [intuition | rewrite IH; cbn; intuition].
Qed.

Lemma insert_by_key_NoDup (p : Point) (l : list Point) :
  ~ In p l -> NoDup l -> NoDup (insert_by_key p l).
Proof.
  induction l as [|q l IH]; intros Hnotin Hnd; cbn [insert_by_key].
  - repeat constructor. intros [].
  - destruct (key_leb _ _); [now constructor | ].
    inversion Hnd; subst. constructor.
    + rewrite insert_by_key_In. intros [-> | Hin]; [apply Hnotin; now left | contradiction].
    + apply IH; [intros Hin; apply Hnotin; now right | assumption].
Qed.

Lemma sort_by_key_In (l : list Point) (P : Point) : In P (sort_by_key l) <-> In P l.
Proof.
  induction l as [|p l IH]; cbn [sort_by_key]; [reflexivity | ].
  rewrite insert_by_key_In, IH. cbn. intuition.
Qed.

Lemma sort_by_key_NoDup (l : list Point) : NoDup l -> NoDup (sort_by_key l).
Proof.
  induction 1 as [|p l Hnotin Hnd IH]; cbn [sort_by_key]; [constructor | ].
  apply insert_by_key_NoDup; [now rewrite sort_by_key_In | assumption].
Qed.

Lemma mapM_double_is_map (L : list Point) :
  Forall on_circle L ->
  mapM CirclePoint.double L = Ok (map (fun R => add_pt R R) L).
Proof.
  induction 1 as [|R L HR _ IH]; [reflexivity | ].
  cbn [mapM map]. rewrite (double_is_add_pt R HR). cbn [bind]. now rewrite IH.
Qed.

(** For any list of circle points - a coset or not, with or without
    repetitions - halving succeeds and returns the set of their doubles:
    without duplicates, in ascending order of [(x.value, y.value)]. *)
Theorem halving_returns_the_sorted_set_of_doubles (L : list Point) :
  Forall on_circle L ->
  exists H,
    halve_standard_position_coset_by_squaring_map L = Ok H /\
    NoDup H /\ ascending H /\
    (length H <= length L)%nat /\
    forall P, In P H <-> exists R, In R L /\ CirclePoint.double R = Ok P.
Proof.
  intros HL. unfold halve_standard_position_coset_by_squaring_map.
  rewrite (mapM_double_is_map L HL). cbn [bind].
  set (new_points := map (fun R => add_pt R R) L).
  destruct (unique_values new_points [] ltac:(intros k v []) ltac:(constructor))
    as (Hnd & Hin).
  cbv zeta in Hnd, Hin.
  eexists. split; [reflexivity | ].
  split; [now apply sort_by_key_NoDup | ].
  split; [apply sort_by_key_ascending | ].
  assert (Hmem : forall P, In P (sort_by_key (map snd
             (fold_left (fun d p => dict_set d (point_key p) p) new_points [])))
             <-> In P new_points).
  { intros P. rewrite sort_by_key_In, Hin. cbn. tauto. }
  split.
  - replace (length L) with (length new_points) by (subst new_points; apply length_map).
    apply NoDup_incl_length; [now apply sort_by_key_NoDup | ].
    intros P HP. now apply Hmem.
  - intros P. rewrite Hmem. subst new_points. rewrite in_map_iff.
    rewrite Forall_forall in HL. split.
    + intros (R & <- & HR). exists R. split; [assumption | ].
      now apply double_is_add_pt, HL.
    + intros (R & HR & E). exists R. split; [ | assumption].
      rewrite (double_is_add_pt R (HL R HR)) in E. now apply Ok_inj in E.
Qed.

Lemma halving_returns_the_sorted_set_of_doubles_witness :
  Forall on_circle [pt 13 7; pt 13 7; pt 18 24; pt 2 11] /\
  exists H,
    halve_standard_position_coset_by_squaring_map [pt 13 7; pt 13 7; pt 18 24; pt 2 11]
      = Ok H /\
    NoDup H /\ ascending H /\
    (length H <= 4)%nat /\
    forall P, In P H <->
      exists R, In R [pt 13 7; pt 13 7; pt 18 24; pt 2 11] /\ CirclePoint.double R = Ok P.
Proof.
  assert (HL : Forall on_circle [pt 13 7; pt 13 7; pt 18 24; pt 2 11]).
  { repeat constructor. }
  split; [exact HL | ].
  apply (halving_returns_the_sorted_set_of_doubles _ HL).
Defined.

(** ** Outcomes of the transforms *)

Lemma stride_lengths {A} (h : nat) :
  forall l : list A, length l = (2 * h)%nat ->
    length (stride_even l) = h /\ length (stride_odd l) = h.
Proof.
  induction h as [|h IH]; intros l Hl.
  - destruct l; [split; reflexivity | discriminate].
  - destruct l as [|a [|b l]]; try (cbn in Hl; lia).
    destruct (IH l ltac:(cbn in Hl; lia)) as (He & Ho).
    split; [cbn; now rewrite He | ].
    unfold stride_odd in *. destruct l as [|c l]; cbn in *; [lia | ].
    now rewrite Ho.
Qed.

Lemma zip_flatten_strides {A} (h : nat) :
  forall l : list A, length l = (2 * h)%nat ->
    zip_flatten (stride_even l) (stride_odd l) = l.
Proof.
  induction h as [|h IH]; intros l Hl.
  - destruct l; [reflexivity | discriminate].
  - destruct l as [|a [|b l]]; try (cbn in Hl; lia).
    specialize (IH l ltac:(cbn in Hl; lia)).
    unfold stride_odd in *. destruct l as [|c l]; [reflexivity | ].
    cbn in *. unfold zip_flatten in *. cbn. now rewrite IH.
Qed.

Lemma rebuild_is_rebuilt (sign : FE -> FE -> FE) (E O fs : list FE) (h : nat) :
  (h <= length E)%nat -> (h <= length O)%nat -> (h <= length fs)%nat ->
  rebuild sign E O fs h = Ok (rebuilt sign E O fs h).
Proof.
  intros HE HO Hf. apply mapM_seq_pure. intros i Hi.
  rewrite (getitem_nth E i FieldElement.zero), (getitem_nth fs i FieldElement.zero),
    (getitem_nth O i FieldElement.zero) by lia.
  reflexivity.
Qed.

Lemma rebuilt_length (sign : FE -> FE -> FE) (E O fs : list FE) (h : nat) :
  length (rebuilt sign E O fs h) = h.
Proof. unfold rebuilt. now rewrite length_map, length_seq. Qed.

Lemma firstn_factors (h i : nat) (xs : list FE) :
  (i < h)%nat -> nth i (firstn h xs) FieldElement.zero = nth i xs FieldElement.zero.
Proof.
  intros Hi. destruct (Nat.lt_ge_cases i (length xs)) as [Hl | Hl].
  - rewrite <- (firstn_skipn h xs) at 2. rewrite app_nth1; [reflexivity | ].
    rewrite length_firstn. lia.
  - rewrite !nth_overflow; [reflexivity | lia | rewrite length_firstn; lia].
Qed.

Lemma rebuilt_firstn (sign : FE -> FE -> FE) (E O xs : list FE) (h : nat) :
  rebuilt sign E O (firstn h xs) h = rebuilt sign E O xs h.
Proof.
  unfold rebuilt. apply map_ext_in. intros i Hi. apply in_seq in Hi.
  now rewrite firstn_factors by lia.
Qed.

(** One inverse layer of size [2 * h], given the results of the two
    recursive calls. *)
Lemma ifft_squaring_map_step (fuel h : nat) (c xs E O : list FE) :
  (0 < h)%nat -> length c = (2 * h)%nat -> (h <= length xs)%nat ->
  _ifft_squaring_map_x fuel (stride_even c) (map next_x (firstn h xs)) = Ok E ->
  _ifft_squaring_map_x fuel (stride_odd c) (map next_x (firstn h xs)) = Ok O ->
  length E = h -> length O = h ->
  _ifft_squaring_map_x (S fuel) c xs
  = Ok (rebuilt FieldElement.add E O xs h ++ rev (rebuilt FieldElement.sub E O xs h)).
Proof.
  intros Hh Hc Hx HE HO HlE HlO. cbn [_ifft_squaring_map_x]. cbv zeta.
  rewrite Hc, double_is_not_one, half_of_double by assumption.
  rewrite HE, HO. cbn [bind].
  rewrite !rebuild_is_rebuilt by (rewrite ?firstn_length_le; lia). cbn [bind].
  now rewrite !rebuilt_firstn.
Qed.

Lemma ifft_quotient_map_step (fuel h : nat) (c : list FE) (D : list Point) (E O : list FE) :
  (0 < h)%nat -> length c = (2 * h)%nat -> (h <= length D)%nat ->
  _ifft_squaring_map_x fuel (stride_even c) (firstn h (map CirclePoint.x D)) = Ok E ->
  _ifft_squaring_map_x fuel (stride_odd c) (firstn h (map CirclePoint.x D)) = Ok O ->
  length E = h -> length O = h ->
  _ifft_quotient_map_y fuel c D
  = Ok (rebuilt FieldElement.add E O (map CirclePoint.y D) h
        ++ rev (rebuilt FieldElement.sub E O (map CirclePoint.y D) h)).
Proof.
  intros Hh Hc Hx HE HO HlE HlO. unfold _ifft_quotient_map_y.
  rewrite Hc, double_is_not_one, half_of_double by assumption.
  rewrite HE, HO. cbn [bind].
  rewrite !rebuild_is_rebuilt by (rewrite ?length_map; lia). reflexivity.
Qed.

Lemma long_enough_next (k : nat) (xs : list FE) :
  (2 ^ k <= length xs)%nat -> long_enough k (map next_x (firstn (2 ^ k) xs)).
Proof.
  intros H. destruct k as [|k]; [exact I | ]. cbn [long_enough].
  rewrite length_map, firstn_length_le by assumption.
  rewrite Nat.pow_succ_r'. lia.
Qed.

Lemma singleton_layer (l : list FE) :
  length l = 1%nat -> exists a, l = [a].
Proof. destruct l as [|a [|? ?]]; try discriminate. eauto. Qed.

Lemma ifft_squaring_map_total (k : nat) :
  forall fuel c xs,
    (k < fuel)%nat -> length c = (2 ^ k)%nat -> long_enough k xs ->
    exists v, _ifft_squaring_map_x fuel c xs = Ok v /\ length v = (2 ^ k)%nat.
Proof.
  induction k as [|k IH]; intros fuel c xs Hf Hc Hx;
    (destruct fuel as [|fuel]; [lia | ]).
  - destruct (singleton_layer c Hc) as (a & ->). exists [a]. split; reflexivity.
  - cbn [long_enough] in Hx. rewrite Nat.pow_succ_r' in *.
    pose proof (pow2_pos k) as Hpos.
    pose proof (long_enough_next k xs Hx) as Hnext.
    remember (2 ^ k)%nat as h eqn:Eh.
    destruct (stride_lengths h c Hc) as (Hle & Hlo).
    destruct (IH fuel (stride_even c) _ ltac:(lia) Hle Hnext) as (E & HE & HlE).
    destruct (IH fuel (stride_odd c) _ ltac:(lia) Hlo Hnext) as (O & HO & HlO).
    rewrite (ifft_squaring_map_step fuel h c xs E O) by assumption.
    eexists. split; [reflexivity | ].
    rewrite length_app, length_rev, !rebuilt_length. lia.
Qed.

(** The inverse transform divides by nothing: on every coefficient vector and
    every domain of the same power-of-two length it returns a vector of that
    length, given fuel for the [k] nested calls. *)
Theorem circle_ifft_always_succeeds (k fuel : nat) (c : list Z) (D : list Point) :
  (k <= fuel)%nat ->
  length c = (2 ^ k)%nat -> length D = (2 ^ k)%nat ->
  exists v, circle_ifft fuel c D = Ok v /\ length v = (2 ^ k)%nat /\ Forall in_field v.
Proof.
  intros Hf Hc HD. unfold circle_ifft.
  rewrite (pow2_length_passes_guard k c D Hc HD).
  set (arr := map FieldElement.init c).
  assert (Harr : length arr = (2 ^ k)%nat) by (subst arr; now rewrite length_map).
  assert (Hex : exists v, _ifft_quotient_map_y fuel arr D = Ok v /\ length v = (2 ^ k)%nat).
  { destruct k as [|k].
    - destruct (singleton_layer arr Harr) as (a & ->). exists [a]. split; reflexivity.
    - rewrite Nat.pow_succ_r' in *. pose proof (pow2_pos k) as Hpos.
      assert (Hxs : (2 ^ k <= length (map CirclePoint.x D))%nat)
        by (rewrite length_map; lia).
      assert (Hlong : long_enough k (firstn (2 ^ k) (map CirclePoint.x D))).
      { destruct k as [|k]; [exact I | ]. cbn [long_enough].
        rewrite firstn_length_le by assumption. rewrite Nat.pow_succ_r'. lia. }
      remember (2 ^ k)%nat as h eqn:Eh.
      destruct (stride_lengths h arr Harr) as (Hle & Hlo).
      destruct (ifft_squaring_map_total k fuel (stride_even arr) _ ltac:(lia)
                  ltac:(congruence) Hlong) as (E & HE & HlE).
      destruct (ifft_squaring_map_total k fuel (stride_odd arr) _ ltac:(lia)
                  ltac:(congruence) Hlong) as (O & HO & HlO).
      rewrite (ifft_quotient_map_step fuel h arr D E O) by (try assumption; lia).
      eexists. split; [reflexivity | ].
      rewrite length_app, length_rev, !rebuilt_length. lia. }
  destruct Hex as (v & Hv & Hlv). rewrite Hv. cbn [bind].
  exists (map FieldElement.value v). split; [reflexivity | split].
  - now rewrite length_map.
  - apply map_value_in_field.
    eapply ifft_quotient_map_canonical; [ | exact Hv]. apply map_init_canonical.
Qed.

Lemma circle_ifft_always_succeeds_witness :
  exists v, circle_ifft 1 [5; 7] [pt 1 0; pt 30 0] = Ok v /\
            length v = (2 ^ 1)%nat /\ Forall in_field v.
Proof.
  apply (circle_ifft_always_succeeds 1 1 [5; 7] [pt 1 0; pt 30 0]);
    [apply Nat.leb_le; reflexivity | reflexivity | reflexivity].
Defined.

Lemma mapM_ok_or_error {A B} (f : A -> result B) (e : exn) (l : list A) :
  (forall a, In a l -> (exists b, f a = Ok b) \/ f a = Err e) ->
  (exists bs, mapM f l = Ok bs) \/ mapM f l = Err e.
Proof.
  induction l as [|a l IH]; intros H; [left; eexists; reflexivity | ].
  cbn [mapM]. destruct (H a (or_introl eq_refl)) as [(b & ->) | ->];
    cbn [bind]; [ | now right].
  destruct IH as [(bs & ->) | ->]; cbn [bind];
    [intros a' Ha'; apply H; now right | left; eexists; reflexivity | now right].
Qed.

Lemma even_part_is_map (left right : list FE) (h : nat) :
  (h <= length left)%nat -> (h <= length right)%nat ->
  even_part left right h
  = Ok (map (fun i => even_of (nth i left FieldElement.zero) (nth i right FieldElement.zero))
            (seq 0 h)).
Proof.
  intros Hl Hr. apply mapM_seq_pure. intros i Hi.
  rewrite (getitem_nth left i FieldElement.zero), (getitem_nth right i FieldElement.zero)
    by lia.
  reflexivity.
Qed.

Lemma odd_part_outcome (left right fs : list FE) (h : nat) :
  (h <= length left)%nat -> (h <= length right)%nat -> (h <= length fs)%nat ->
  (exists O, odd_part left right fs h = Ok O /\ length O = h) \/
  odd_part left right fs h = Err ZeroDivisionError.
Proof.
  intros Hl Hr Hf.
  destruct (mapM_ok_or_error
              (fun i => l <- getitem left i ;; r <- getitem right i ;;
                        f <- getitem fs i ;;
                        FieldElement.truediv (FieldElement.sub l r) (FieldElement.mul f two))
              ZeroDivisionError (seq 0 h)) as [(O & HO) | HO].
  - intros i Hi. apply in_seq in Hi.
    rewrite (getitem_nth left i FieldElement.zero), (getitem_nth right i FieldElement.zero),
      (getitem_nth fs i FieldElement.zero) by lia.
    cbn [bind]. destruct (good_factor (nth i fs FieldElement.zero)) eqn:Eg.
    + left. eexists. now apply odd_of_ok.
    + right. now apply truediv_by_bad_factor.
  - left. exists O. split; [exact HO | ].
    rewrite (mapM_length _ _ _ HO). apply length_seq.
  - now right.
Qed.

Lemma forward_halves_lengths (h : nat) (values : list FE) :
  length values = (2 * h)%nat ->
  length (firstn h values) = h /\ length (rev (skipn h values)) = h.
Proof.
  intros H. split; [rewrite firstn_length_le; lia | rewrite length_rev, length_skipn; lia].
Qed.

Lemma fft_squaring_map_outcome (k : nat) :
  forall fuel values xs,
    (k < fuel)%nat -> length values = (2 ^ k)%nat -> long_enough k xs ->
    (exists c, _fft_squaring_map_x fuel values xs = Ok c /\ length c = (2 ^ k)%nat) \/
    _fft_squaring_map_x fuel values xs = Err ZeroDivisionError.
Proof.
  induction k as [|k IH]; intros fuel values xs Hf Hv Hx;
    (destruct fuel as [|fuel]; [lia | ]).
  - destruct (singleton_layer values Hv) as (a & ->). left. exists [a]. split; reflexivity.
  - cbn [long_enough] in Hx. rewrite Nat.pow_succ_r' in *.
    pose proof (pow2_pos k) as Hpos.
    pose proof (long_enough_next k xs Hx) as Hnext.
    remember (2 ^ k)%nat as h eqn:Eh.
    destruct (forward_halves_lengths h values Hv) as (Hll & Hlr).
    cbn [_fft_squaring_map_x]. cbv zeta.
    rewrite Hv, double_is_not_one, half_of_double by assumption.
    rewrite even_part_is_map by lia. cbn [bind].
    destruct (odd_part_outcome (firstn h values) (rev (skipn h values)) (firstn h xs) h)
      as [(O & -> & HlO) | ->]; try (rewrite ?firstn_length_le; lia); [ | now right].
    cbn [bind].
    destruct (IH fuel (map (fun i => even_of (nth i (firstn h values) FieldElement.zero)
                                            (nth i (rev (skipn h values)) FieldElement.zero))
                           (seq 0 h)) (map next_x (firstn h xs)))
      as [(ce & -> & Hlce) | ->];
      [lia | now rewrite length_map, length_seq | assumption | | now right].
    cbn [bind].
    destruct (IH fuel O (map next_x (firstn h xs))) as [(co & -> & Hlco) | ->];
      [lia | assumption | assumption | | now right].
    left. eexists. split; [reflexivity | ].
    rewrite zip_flatten_length; lia.
Qed.

(** With matching power-of-two lengths and fuel for the [k] nested calls, the
    forward transform has two possible outcomes: a coefficient vector of the
    same length with entries in [[0, MOD)], or [ZeroDivisionError]; it raises
    nothing else. *)
Theorem circle_fft_outcomes (k fuel : nat) (v : list Z) (D : list Point) :
  (k <= fuel)%nat ->
  length v = (2 ^ k)%nat -> length D = (2 ^ k)%nat ->
  (exists c, circle_fft fuel v D = Ok c /\ length c = (2 ^ k)%nat /\ Forall in_field c) \/
  circle_fft fuel v D = Err ZeroDivisionError.
Proof.
  intros Hf Hv HD. unfold circle_fft.
  rewrite (pow2_length_passes_guard k v D Hv HD).
  set (arr := map FieldElement.init v).
  assert (Harr : length arr = (2 ^ k)%nat) by (subst arr; now rewrite length_map).
  assert (Hout : (exists c, _fft_quotient_map_y fuel arr D = Ok c /\ length c = (2 ^ k)%nat)
                 \/ _fft_quotient_map_y fuel arr D = Err ZeroDivisionError).
  { destruct k as [|k].
    - destruct (singleton_layer arr Harr) as (a & ->). left. exists [a]. split; reflexivity.
    - rewrite Nat.pow_succ_r' in *. pose proof (pow2_pos k) as Hpos.
      assert (Hlong : long_enough k (firstn (2 ^ k) (map CirclePoint.x D))).
      { destruct k as [|k]; [exact I | ]. cbn [long_enough].
        rewrite firstn_length_le by (rewrite length_map; lia).
        rewrite Nat.pow_succ_r'. lia. }
      remember (2 ^ k)%nat as h eqn:Eh.
      destruct (forward_halves_lengths h arr Harr) as (Hll & Hlr).
      unfold _fft_quotient_map_y.
      rewrite Harr, double_is_not_one, half_of_double by assumption.
      rewrite even_part_is_map by lia. cbn [bind].
      destruct (odd_part_outcome (firstn h arr) (rev (skipn h arr))
                  (map CirclePoint.y (firstn h D)) h)
        as [(O & -> & HlO) | ->];
        try (rewrite ?length_map, ?firstn_length_le; lia); [ | now right].
      cbn [bind].
      destruct (fft_squaring_map_outcome k fuel
                  (map (fun i => even_of (nth i (firstn h arr) FieldElement.zero)
                                         (nth i (rev (skipn h arr)) FieldElement.zero))
                       (seq 0 h)) (firstn h (map CirclePoint.x D)))
        as [(ce & -> & Hlce) | ->];
        [lia | rewrite length_map, length_seq; congruence | assumption | | now right].
      cbn [bind].
      destruct (fft_squaring_map_outcome k fuel O (firstn h (map CirclePoint.x D)))
        as [(co & -> & Hlco) | ->];
        [lia | congruence | assumption | | now right].
      left. eexists. split; [reflexivity | ].
      rewrite zip_flatten_length; lia. }
  destruct Hout as [(c & Hc & Hlc) | ->]; [ | now right].
  rewrite Hc. cbn [bind]. left.
  exists (map FieldElement.value c). split; [reflexivity | split].
  - now rewrite length_map.
  - apply map_value_in_field.
    eapply fft_quotient_map_canonical; [ | exact Hc]. apply map_init_canonical.
Qed.

Lemma circle_fft_outcomes_witness :
  (exists c, circle_fft 1 [5; 7] [pt 13 7; pt 18 24] = Ok c /\
             length c = (2 ^ 1)%nat /\ Forall in_field c) \/
  circle_fft 1 [5; 7] [pt 13 7; pt 18 24] = Err ZeroDivisionError.
Proof.
  apply (circle_fft_outcomes 1 1 [5; 7] [pt 13 7; pt 18 24]);
    [apply Nat.leb_le; reflexivity | reflexivity | reflexivity].
Defined.

(** ** The forward transform undoes the inverse transform *)

Lemma butterfly_inverse_cong (e o f i2 id : Z) :
  2 * i2 ==m 1 -> f * 2 * id ==m 1 ->
  (e + f * o + (e - f * o)) * i2 ==m e /\
  (e + f * o - (e - f * o)) * id ==m o.
Proof.
  intros H2 Hd. split.
  - replace ((e + f * o + (e - f * o)) * i2) with (e * (2 * i2)) by ring.
    rewrite H2. now rewrite Z.mul_1_r.
  - replace ((e + f * o - (e - f * o)) * id) with (o * (f * 2 * id)) by ring.
    rewrite Hd. now rewrite Z.mul_1_r.
Qed.

Lemma butterfly_inverse (e o f : FE) :
  canonical e -> canonical o -> good_factor f = true ->
  even_of (FieldElement.add e (FieldElement.mul f o))
          (FieldElement.sub e (FieldElement.mul f o)) = e /\
  odd_of (FieldElement.add e (FieldElement.mul f o))
         (FieldElement.sub e (FieldElement.mul f o)) f = o.
Proof.
  intros He Ho Hf.
  destruct (inv_correct two (init_canonical 2) ltac:(discriminate)) as (_ & H2).
  unfold good_factor in Hf. rewrite negb_true_iff, Z.eqb_neq in Hf.
  destruct (inv_correct (FieldElement.mul f two) (mul_canonical _ _) Hf) as (_ & Hd).
  rewrite value_mul in Hd. change (FieldElement.value two) with 2 in H2, Hd.
  destruct (butterfly_inverse_cong (FieldElement.value e) (FieldElement.value o) _ _ _ H2 Hd)
    as (Ha & Hs).
  unfold even_of, odd_of.
  split; (apply canonical_cong_eq; [apply mul_canonical | assumption | ]);
    push_value; assumption.
Qed.

Lemma nth_rebuilt (sign : FE -> FE -> FE) (E O fs : list FE) (h i : nat) :
  (i < h)%nat ->
  nth i (rebuilt sign E O fs h) FieldElement.zero
  = sign (nth i E FieldElement.zero)
         (FieldElement.mul (nth i fs FieldElement.zero) (nth i O FieldElement.zero)).
Proof.
  intros Hi. unfold rebuilt.
  rewrite nth_indep with (d' := sign (nth 0 E FieldElement.zero)
       (FieldElement.mul (nth 0 fs FieldElement.zero) (nth 0 O FieldElement.zero)))
    by (now rewrite length_map, length_seq).
  rewrite (map_nth (fun i => sign (nth i E FieldElement.zero)
       (FieldElement.mul (nth i fs FieldElement.zero) (nth i O FieldElement.zero)))
     (seq 0 h) 0%nat i).
  now rewrite seq_nth.
Qed.

Lemma halves_of_app {A} (a b : list A) :
  firstn (length a) (a ++ b) = a /\ skipn (length a) (a ++ b) = b.
Proof.
  split.
  - rewrite firstn_app, Nat.sub_diag, firstn_all. cbn. apply app_nil_r.
  - rewrite skipn_app, Nat.sub_diag, skipn_all. reflexivity.
Qed.

(** The forward layer applied to what the inverse layer rebuilt gives back
    the two vectors the inverse layer started from. *)
Lemma layer_inverse (h : nat) (E O xs fs : list FE) :
  length E = h -> length O = h ->
  Forall canonical E -> Forall canonical O ->
  (h <= length fs)%nat ->
  (forall i, (i < h)%nat ->
     nth i fs FieldElement.zero = nth i xs FieldElement.zero /\
     good_factor (nth i xs FieldElement.zero) = true) ->
  let values := rebuilt FieldElement.add E O xs h
                ++ rev (rebuilt FieldElement.sub E O xs h) in
  even_part (firstn h values) (rev (skipn h values)) h = Ok E /\
  odd_part (firstn h values) (rev (skipn h values)) fs h = Ok O.
Proof.
  intros HlE HlO HcE HcO Hlf Hfs values.
  pose proof (halves_of_app (rebuilt FieldElement.add E O xs h)
                            (rev (rebuilt FieldElement.sub E O xs h))) as (Hfst & Hskp).
  rewrite rebuilt_length in Hfst, Hskp. fold values in Hfst, Hskp.
  rewrite Hfst, Hskp, rev_involutive.
  assert (Hbf : forall i, (i < h)%nat ->
            even_of (nth i (rebuilt FieldElement.add E O xs h) FieldElement.zero)
                    (nth i (rebuilt FieldElement.sub E O xs h) FieldElement.zero)
            = nth i E FieldElement.zero /\
            odd_of (nth i (rebuilt FieldElement.add E O xs h) FieldElement.zero)
                   (nth i (rebuilt FieldElement.sub E O xs h) FieldElement.zero)
                   (nth i xs FieldElement.zero)
            = nth i O FieldElement.zero).
  { intros i Hi. rewrite !nth_rebuilt by assumption.
    apply butterfly_inverse; [ | | apply Hfs; assumption];
      apply Forall_nth_in; (assumption || lia). }
  split.
  - rewrite even_part_is_map by (rewrite rebuilt_length; lia).
    f_equal. etransitivity; [ | exact (map_nth_seq E FieldElement.zero)].
    rewrite HlE. apply map_ext_in. intros i Hi%in_seq. apply Hbf. lia.
  - replace (Ok O) with (Ok (map (fun i => nth i O FieldElement.zero) (seq 0 h)))
      by (f_equal; rewrite <- HlO; apply map_nth_seq).
    apply mapM_seq_pure. intros i Hi.
    rewrite !(getitem_nth _ i FieldElement.zero) by (rewrite ?rebuilt_length; lia).
    cbn [bind]. destruct (Hfs i ltac:(lia)) as (-> & Hg).
    rewrite odd_of_ok by assumption. f_equal. apply Hbf. lia.
Qed.

Lemma Forall_strides {A} (P : A -> Prop) (h : nat) :
  forall l : list A, length l = (2 * h)%nat -> Forall P l ->
    Forall P (stride_even l) /\ Forall P (stride_odd l).
Proof.
  intros l Hl HP. rewrite <- (zip_flatten_strides h l Hl) in HP.
  destruct (stride_lengths h l Hl) as (He & Ho).
  revert HP. generalize (stride_even l) (stride_odd l) He Ho. clear.
  induction h as [|h IH]; intros [|a e] [|b o] He Ho HP; try discriminate;
    [split; constructor | ].
  cbn in HP. inversion HP as [|? ? Ha HP']; subst. inversion HP' as [|? ? Hb HP'']; subst.
  destruct (IH e o ltac:(cbn in He; lia) ltac:(cbn in Ho; lia) HP'').
  split; now constructor.
Qed.

Lemma rebuilt_canonical (sign : FE -> FE -> FE) (E O fs : list FE) (h : nat) :
  (forall a b, canonical (sign a b)) -> Forall canonical (rebuilt sign E O fs h).
Proof.
  intros Hs. unfold rebuilt. apply Forall_map. apply Forall_forall. intros i _. apply Hs.
Qed.

Lemma good_factors_nth (h : nat) (xs : list FE) :
  forallb good_factor (firstn h xs) = true -> (h <= length xs)%nat ->
  forall i, (i < h)%nat ->
    nth i (firstn h xs) FieldElement.zero = nth i xs FieldElement.zero /\
    good_factor (nth i xs FieldElement.zero) = true.
Proof.
  intros Hg Hle i Hi. rewrite forallb_forall in Hg.
  pose proof (firstn_factors h i xs Hi) as E. split; [exact E | ].
  rewrite <- E. apply Hg. apply nth_In. rewrite firstn_length_le; lia.
Qed.

Lemma squaring_layers_inverse_round_trip (k : nat) :
  forall fuel c xs,
    (k < fuel)%nat ->
    length c = (2 ^ k)%nat ->
    Forall canonical c ->
    x_domain_ok k xs = true ->
    exists v,
      _ifft_squaring_map_x fuel c xs = Ok v /\
      length v = (2 ^ k)%nat /\
      Forall canonical v /\
      _fft_squaring_map_x fuel v xs = Ok c.
Proof.
  induction k as [|k IH]; intros fuel c xs Hf Hlen Hcan Hok;
    (destruct fuel as [|fuel]; [lia | ]).
  - destruct (singleton_layer c Hlen) as (a & ->).
    exists [a]. repeat split; assumption.
  - cbn [x_domain_ok] in Hok. rewrite !andb_true_iff in Hok.
    destruct Hok as ((Hle & Hg) & Hnext). apply Nat.leb_le in Hle.
    rewrite Nat.pow_succ_r' in *. pose proof (pow2_pos k) as Hpos.
    remember (2 ^ k)%nat as h eqn:Eh.
    destruct (stride_lengths h c Hlen) as (Hlse & Hlso).
    destruct (Forall_strides canonical h c Hlen Hcan) as (Hcse & Hcso).
    destruct (IH fuel (stride_even c) _ ltac:(lia) Hlse Hcse Hnext)
      as (E & HE & HlE & HcE & HfE).
    destruct (IH fuel (stride_odd c) _ ltac:(lia) Hlso Hcso Hnext)
      as (O & HO & HlO & HcO & HfO).
    rewrite (ifft_squaring_map_step fuel h c xs E O) by assumption.
    eexists. split; [reflexivity | ].
    assert (Hlv : length (rebuilt FieldElement.add E O xs h
                          ++ rev (rebuilt FieldElement.sub E O xs h)) = (2 * h)%nat)
      by (rewrite length_app, length_rev, !rebuilt_length; lia).
    split; [exact Hlv | split].
    + apply Forall_app. split; [ | apply Forall_rev];
        apply rebuilt_canonical; [apply add_canonical | apply sub_canonical].
    + destruct (layer_inverse h E O xs (firstn h xs) HlE HlO HcE HcO
                  ltac:(rewrite firstn_length_le; lia)
                  (good_factors_nth h xs Hg Hle)) as (Hev & Hod).
      cbn [_fft_squaring_map_x]. cbv zeta.
      rewrite Hlv, double_is_not_one, half_of_double by assumption.
      rewrite Hev. cbn [bind]. rewrite Hod. cbn [bind]. rewrite HfE, HfO. cbn [bind].
      now rewrite (zip_flatten_strides h c Hlen).
Qed.

Lemma quotient_layer_inverse_round_trip (k fuel : nat) (c : list FE) (D : list Point) :
  (k <= fuel)%nat ->
  length c = (2 ^ k)%nat ->
  Forall canonical c ->
  domain_ok k D = true ->
  exists v,
    _ifft_quotient_map_y fuel c D = Ok v /\
    length v = (2 ^ k)%nat /\
    Forall canonical v /\
    _fft_quotient_map_y fuel v D = Ok c.
Proof.
  intros Hf Hlen Hcan Hok. destruct k as [|k].
  - destruct (singleton_layer c Hlen) as (a & ->).
    exists [a]. repeat split; assumption.
  - cbn [domain_ok] in Hok. rewrite !andb_true_iff in Hok.
    destruct Hok as ((Hle & Hg) & Hx). apply Nat.leb_le in Hle.
    rewrite Nat.pow_succ_r' in *. pose proof (pow2_pos k) as Hpos.
    remember (2 ^ k)%nat as h eqn:Eh.
    destruct (stride_lengths h c Hlen) as (Hlse & Hlso).
    destruct (Forall_strides canonical h c Hlen Hcan) as (Hcse & Hcso).
    destruct (squaring_layers_inverse_round_trip k fuel (stride_even c) _
                ltac:(lia) ltac:(congruence) Hcse Hx) as (E & HE & HlE & HcE & HfE).
    destruct (squaring_layers_inverse_round_trip k fuel (stride_odd c) _
                ltac:(lia) ltac:(congruence) Hcso Hx) as (O & HO & HlO & HcO & HfO).
    rewrite (ifft_quotient_map_step fuel h c D E O) by (try assumption; congruence).
    eexists. split; [reflexivity | ].
    set (ys := map CirclePoint.y D) in *.
    assert (Hlv : length (rebuilt FieldElement.add E O ys h
                          ++ rev (rebuilt FieldElement.sub E O ys h)) = (2 * h)%nat)
      by (rewrite length_app, length_rev, !rebuilt_length; lia).
    split; [exact Hlv | split].
    + apply Forall_app. split; [ | apply Forall_rev];
        apply rebuilt_canonical; [apply add_canonical | apply sub_canonical].
    + rewrite <- firstn_map in Hg. fold ys in Hg.
      assert (Hlys : (h <= length ys)%nat) by (subst ys; now rewrite length_map).
      destruct (layer_inverse h E O ys (firstn h ys) ltac:(congruence) ltac:(congruence)
                  HcE HcO ltac:(rewrite firstn_length_le; lia)
                  (good_factors_nth h ys Hg Hlys)) as (Hev & Hod).
      unfold _fft_quotient_map_y.
      rewrite Hlv, double_is_not_one, half_of_double by assumption.
      rewrite <- firstn_map. fold ys.
      rewrite Hev. cbn [bind]. rewrite Hod. cbn [bind]. rewrite HfE, HfO. cbn [bind].
      now rewrite (zip_flatten_strides h c Hlen).
Qed.

Lemma inverse_round_trip_on_good_domain (k fuel : nat) (c : list Z) (D : list Point) :
  (k <= fuel)%nat ->
  length c = (2 ^ k)%nat -> length D = (2 ^ k)%nat ->
  Forall in_field c ->
  domain_ok k D = true ->
  exists v, circle_ifft fuel c D = Ok v /\ circle_fft fuel v D = Ok c.
Proof.
  intros Hf Hc HD Hin Hok.
  destruct (quotient_layer_inverse_round_trip k fuel (map FieldElement.init c) D Hf
              ltac:(now rewrite length_map) (map_init_canonical c) Hok)
    as (v & Hv & Hlv & Hcv & Hfv).
  exists (map FieldElement.value v). unfold circle_fft, circle_ifft.
  rewrite (pow2_length_passes_guard k c D Hc HD).
  rewrite (pow2_length_passes_guard k (map FieldElement.value v) D
             ltac:(now rewrite length_map) HD).
  rewrite Hv. cbn [bind]. split; [reflexivity | ].
  rewrite map_init_value by assumption. rewrite Hfv. cbn [bind].
  now rewrite map_value_init.
Qed.

Lemma coset_outside_subgroup_is_good (Q : Point) (k : Z) (G D : list Point) :
  valid_point Q ->
  generate_subgroup k = Ok G ->
  generate_standard_position_coset Q G = Ok D ->
  k = 0 \/ ~ In Q G ->
  length D = (2 ^ Z.to_nat k)%nat /\ domain_ok (Z.to_nat k) D = true.
Proof.
  intros HQ HG HD Hout.
  pose proof (generate_subgroup_exponent k G HG) as Hk.
  pose proof coset_domain_check_all as Hall.
  rewrite forallb_forall in Hall.
  specialize (Hall Q (proj1 (valid_point_enumerated Q) HQ)).
  rewrite forallb_forall in Hall.
  specialize (Hall k (proj2 (range_In 0 6 k) ltac:(lia))).
  unfold coset_domain_check in Hall. rewrite HG, HD in Hall.
  apply andb_true_iff in Hall. destruct Hall as (HlD%Nat.eqb_eq & Hok).
  split; [exact HlD | ].
  apply orb_true_iff in Hok. destruct Hok as [Hbad | Hok]; [exfalso | exact Hok].
  apply andb_true_iff in Hbad. destruct Hbad as (Hk0 & Hmem).
  rewrite negb_true_iff, Z.eqb_neq in Hk0. apply memb_In in Hmem.
  destruct Hout; contradiction.
Qed.

(** The round trip in the other order: on the standard position coset of a
    point outside the subgroup, the forward transform of the inverse
    transform of a coefficient vector is that vector; the two transforms are
    mutually inverse bijections on vectors of field elements. *)
Theorem circle_fft_inverts_circle_ifft
  (fuel : nat) (Q : Point) (k : Z) (G D : list Point) (c : list Z) :
  valid_point Q ->
  generate_subgroup k = Ok G ->
  generate_standard_position_coset Q G = Ok D ->
  k = 0 \/ ~ In Q G ->
  length c = length D ->
  Forall in_field c ->
  (Z.to_nat k <= fuel)%nat ->
  exists v, circle_ifft fuel c D = Ok v /\ circle_fft fuel v D = Ok c.
Proof.
  intros HQ HG HD Hout Hlen Hc Hf.
  destruct (coset_outside_subgroup_is_good Q k G D HQ HG HD Hout) as (HlD & Hok).
  apply inverse_round_trip_on_good_domain with (k := Z.to_nat k);
    (assumption || congruence).
Qed.

Lemma circle_fft_inverts_circle_ifft_witness :
  valid_point (pt 24 18) /\
  generate_subgroup 3 = Ok G3 /\
  generate_standard_position_coset (pt 24 18) G3 = Ok D_24_18 /\
  ~ In (pt 24 18) G3 /\
  exists v, circle_ifft 3 [28; 16; 16; 27; 20; 12; 28; 27] D_24_18 = Ok v /\
            circle_fft 3 v D_24_18 = Ok [28; 16; 16; 27; 20; 12; 28; 27].
Proof.
  assert (HQ : valid_point (pt 24 18)) by (apply pt_valid; reflexivity).
  assert (HG : generate_subgroup 3 = Ok G3) by reflexivity.
  assert (HD : generate_standard_position_coset (pt 24 18) G3 = Ok D_24_18) by reflexivity.
  assert (Hout : ~ In (pt 24 18) G3).
  { intros H. apply memb_In in H. vm_compute in H. discriminate H. }
  assert (Hv : Forall in_field [28; 16; 16; 27; 20; 12; 28; 27]).
  { repeat constructor; vm_compute; discriminate. }
  split; [exact HQ | split; [exact HG | split; [exact HD | split; [exact Hout | ]]]].
  apply (circle_fft_inverts_circle_ifft 3 (pt 24 18) 3 G3 D_24_18
           [28; 16; 16; 27; 20; 12; 28; 27] HQ HG HD (or_intror Hout) eq_refl Hv).
  apply Nat.leb_le. reflexivity.
Defined.

(** ** Linearity of the inverse transform *)

Lemma combine_app_same {A B} (a b : list A) (a' b' : list B) :
  length a = length a' ->
  combine (a ++ b) (a' ++ b') = combine a a' ++ combine b b'.
Proof.
  revert a'. induction a as [|x a IH]; intros [|y a'] H; try discriminate;
    [reflexivity | ].
  cbn. f_equal. apply IH. cbn in H. lia.
Qed.

Lemma combine_rev_same {A B} (a : list A) (a' : list B) :
  length a = length a' -> combine (rev a) (rev a') = rev (combine a a').
Proof.
  revert a'. induction a as [|x a IH]; intros [|y a'] H; try discriminate;
    [reflexivity | ].
  cbn. rewrite combine_app_same by (rewrite !length_rev; cbn in H; lia).
  rewrite IH by (cbn in H; lia). reflexivity.
Qed.

Lemma combine_map_same {A B C} (f : A -> B) (g : A -> C) (l : list A) :
  combine (map f l) (map g l) = map (fun x => (f x, g x)) l.
Proof. induction l as [|x l IH]; cbn; [reflexivity | now rewrite IH]. Qed.

Lemma combine_strides {A B} (h : nat) :
  forall (l : list A) (l' : list B),
    length l = (2 * h)%nat -> length l' = (2 * h)%nat ->
    stride_even (combine l l') = combine (stride_even l) (stride_even l') /\
    stride_odd (combine l l') = combine (stride_odd l) (stride_odd l').
Proof.
  induction h as [|h IH]; intros l l' Hl Hl'.
  - destruct l, l'; try discriminate. split; reflexivity.
  - destruct l as [|a [|b l]]; try (cbn in Hl; lia).
    destruct l' as [|a' [|b' l']]; try (cbn in Hl'; lia).
    destruct (IH l l' ltac:(cbn in Hl; lia) ltac:(cbn in Hl'; lia)) as (He & Ho).
    split; [cbn; now rewrite He | ].
    unfold stride_odd in *. cbn [combine].
    destruct l as [|c l], l' as [|c' l']; try (cbn in Hl, Hl'; lia); [reflexivity | ].
    cbn in *. now rewrite Ho.
Qed.

Lemma map_strides {A B} (f : A -> B) (l : list A) :
  stride_even (map f l) = map f (stride_even l) /\
  stride_odd (map f l) = map f (stride_odd l).
Proof.
  assert (He : forall l : list A, stride_even (map f l) = map f (stride_even l)).
  { fix IH 1. intros [|a [|b l']]; [reflexivity | reflexivity | ].
    cbn. now rewrite IH. }
  split; [apply He | ]. destruct l as [|a l]; [reflexivity | apply He].
Qed.

Lemma lin_strides (a b : FE) (h : nat) (c c' : list FE) :
  length c = (2 * h)%nat -> length c' = (2 * h)%nat ->
  stride_even (lin a b c c') = lin a b (stride_even c) (stride_even c') /\
  stride_odd (lin a b c c') = lin a b (stride_odd c) (stride_odd c').
Proof.
  intros Hc Hc'. unfold lin.
  destruct (map_strides (fun p => FieldElement.add (FieldElement.mul a (fst p))
                                                   (FieldElement.mul b (snd p)))
                        (combine c c')) as (-> & ->).
  destruct (combine_strides h c c' Hc Hc') as (-> & ->). split; reflexivity.
Qed.

Lemma lin_length (a b : FE) (c c' : list FE) :
  length c = length c' -> length (lin a b c c') = length c.
Proof. intros H. unfold lin. rewrite length_map, length_combine. lia. Qed.

Lemma lin_app (a b : FE) (c d c' d' : list FE) :
  length c = length c' ->
  lin a b (c ++ d) (c' ++ d') = lin a b c c' ++ lin a b d d'.
Proof. intros H. unfold lin. now rewrite combine_app_same, map_app. Qed.

Lemma lin_rev (a b : FE) (c c' : list FE) :
  length c = length c' -> lin a b (rev c) (rev c') = rev (lin a b c c').
Proof. intros H. unfold lin. now rewrite combine_rev_same, map_rev. Qed.

Lemma nth_lin (a b : FE) (c c' : list FE) (i : nat) :
  length c = length c' -> (i < length c)%nat ->
  nth i (lin a b c c') FieldElement.zero
  = FieldElement.add (FieldElement.mul a (nth i c FieldElement.zero))
                     (FieldElement.mul b (nth i c' FieldElement.zero)).
Proof.
  intros Hl Hi. unfold lin.
  set (f := fun p : FE * FE =>
              FieldElement.add (FieldElement.mul a (fst p)) (FieldElement.mul b (snd p))).
  rewrite nth_indep with (d' := f (FieldElement.zero, FieldElement.zero))
    by (rewrite length_map, length_combine; lia).
  rewrite (map_nth f), combine_nth by assumption. reflexivity.
Qed.

Lemma rebuilt_lin (sign : FE -> FE -> FE) (a b : FE) (E1 O1 E2 O2 xs : list FE) (h : nat) :
  (forall e1 o1 e2 o2 x,
     sign (FieldElement.add (FieldElement.mul a e1) (FieldElement.mul b e2))
          (FieldElement.mul x (FieldElement.add (FieldElement.mul a o1)
                                                (FieldElement.mul b o2)))
     = FieldElement.add (FieldElement.mul a (sign e1 (FieldElement.mul x o1)))
                        (FieldElement.mul b (sign e2 (FieldElement.mul x o2)))) ->
  length E1 = h -> length O1 = h -> length E2 = h -> length O2 = h ->
  rebuilt sign (lin a b E1 E2) (lin a b O1 O2) xs h
  = lin a b (rebuilt sign E1 O1 xs h) (rebuilt sign E2 O2 xs h).
Proof.
  intros Hsign HE1 HO1 HE2 HO2. unfold rebuilt at 2 3. unfold lin at 3.
  rewrite combine_map_same, map_map. unfold rebuilt.
  apply map_ext_in. intros i Hi%in_seq. cbn [fst snd].
  rewrite !nth_lin by lia. apply Hsign.
Qed.

Lemma add_is_linear (a b e1 o1 e2 o2 x : FE) :
  FieldElement.add (FieldElement.add (FieldElement.mul a e1) (FieldElement.mul b e2))
       (FieldElement.mul x (FieldElement.add (FieldElement.mul a o1) (FieldElement.mul b o2)))
  = FieldElement.add
      (FieldElement.mul a (FieldElement.add e1 (FieldElement.mul x o1)))
      (FieldElement.mul b (FieldElement.add e2 (FieldElement.mul x o2))).
Proof. fe_ring. Qed.

Lemma sub_is_linear (a b e1 o1 e2 o2 x : FE) :
  FieldElement.sub (FieldElement.add (FieldElement.mul a e1) (FieldElement.mul b e2))
       (FieldElement.mul x (FieldElement.add (FieldElement.mul a o1) (FieldElement.mul b o2)))
  = FieldElement.add
      (FieldElement.mul a (FieldElement.sub e1 (FieldElement.mul x o1)))
      (FieldElement.mul b (FieldElement.sub e2 (FieldElement.mul x o2))).
Proof. fe_ring. Qed.

Lemma rebuilt_halves_lin (a b : FE) (E1 O1 E2 O2 xs : list FE) (h : nat) :
  length E1 = h -> length O1 = h -> length E2 = h -> length O2 = h ->
  rebuilt FieldElement.add (lin a b E1 E2) (lin a b O1 O2) xs h
  ++ rev (rebuilt FieldElement.sub (lin a b E1 E2) (lin a b O1 O2) xs h)
  = lin a b
      (rebuilt FieldElement.add E1 O1 xs h ++ rev (rebuilt FieldElement.sub E1 O1 xs h))
      (rebuilt FieldElement.add E2 O2 xs h ++ rev (rebuilt FieldElement.sub E2 O2 xs h)).
Proof.
  intros HE1 HO1 HE2 HO2.
  rewrite lin_app, lin_rev by (now rewrite !rebuilt_length).
  rewrite !rebuilt_lin by (assumption || intros; (apply add_is_linear || apply sub_is_linear)).
  reflexivity.
Qed.

Lemma ifft_squaring_map_linear (a b : FE) (k : nat) :
  forall fuel c c' xs,
    (k < fuel)%nat -> length c = (2 ^ k)%nat -> length c' = (2 ^ k)%nat ->
    long_enough k xs ->
    exists v v',
      _ifft_squaring_map_x fuel c xs = Ok v /\
      _ifft_squaring_map_x fuel c' xs = Ok v' /\
      length v = (2 ^ k)%nat /\ length v' = (2 ^ k)%nat /\
      _ifft_squaring_map_x fuel (lin a b c c') xs = Ok (lin a b v v').
Proof.
  induction k as [|k IH]; intros fuel c c' xs Hf Hc Hc' Hx;
    (destruct fuel as [|fuel]; [lia | ]).
  - destruct (singleton_layer c Hc) as (x & ->).
    destruct (singleton_layer c' Hc') as (y & ->).
    exists [x], [y]. repeat split; reflexivity.
  - cbn [long_enough] in Hx. rewrite Nat.pow_succ_r' in *.
    pose proof (pow2_pos k) as Hpos.
    pose proof (long_enough_next k xs Hx) as Hnext.
    remember (2 ^ k)%nat as h eqn:Eh.
    destruct (stride_lengths h c Hc) as (Hle & Hlo).
    destruct (stride_lengths h c' Hc') as (Hle' & Hlo').
    destruct (IH fuel (stride_even c) (stride_even c') _ ltac:(lia) Hle Hle' Hnext)
      as (E1 & E2 & HE1 & HE2 & HlE1 & HlE2 & HEl).
    destruct (IH fuel (stride_odd c) (stride_odd c') _ ltac:(lia) Hlo Hlo' Hnext)
      as (O1 & O2 & HO1 & HO2 & HlO1 & HlO2 & HOl).
    destruct (lin_strides a b h c c' Hc Hc') as (Hse & Hso).
    rewrite (ifft_squaring_map_step fuel h c xs E1 O1) by assumption.
    rewrite (ifft_squaring_map_step fuel h c' xs E2 O2) by assumption.
    rewrite (ifft_squaring_map_step fuel h (lin a b c c') xs (lin a b E1 E2) (lin a b O1 O2))
      by (rewrite ?Hse, ?Hso, ?lin_length; (assumption || congruence)).
    do 2 eexists. split; [reflexivity | split; [reflexivity | ]].
    split; [ | split]; try (rewrite length_app, length_rev, !rebuilt_length; lia).
    f_equal. now apply rebuilt_halves_lin.
Qed.

Lemma ifft_quotient_map_linear (a b : FE) (k fuel : nat) (c c' : list FE) (D : list Point) :
  (k <= fuel)%nat -> length c = (2 ^ k)%nat -> length c' = (2 ^ k)%nat ->
  length D = (2 ^ k)%nat ->
  exists v v',
    _ifft_quotient_map_y fuel c D = Ok v /\
    _ifft_quotient_map_y fuel c' D = Ok v' /\
    length v = (2 ^ k)%nat /\ length v' = (2 ^ k)%nat /\
    _ifft_quotient_map_y fuel (lin a b c c') D = Ok (lin a b v v').
Proof.
  intros Hf Hc Hc' HD. destruct k as [|k].
  - destruct (singleton_layer c Hc) as (x & ->).
    destruct (singleton_layer c' Hc') as (y & ->).
    exists [x], [y]. repeat split; reflexivity.
  - rewrite Nat.pow_succ_r' in *. pose proof (pow2_pos k) as Hpos.
    assert (Hlong : long_enough k (firstn (2 ^ k) (map CirclePoint.x D))).
    { destruct k as [|k]; [exact I | ]. cbn [long_enough].
      rewrite firstn_length_le by (rewrite length_map; lia).
      rewrite Nat.pow_succ_r'. lia. }
    remember (2 ^ k)%nat as h eqn:Eh.
    destruct (stride_lengths h c Hc) as (Hle & Hlo).
    destruct (stride_lengths h c' Hc') as (Hle' & Hlo').
    destruct (ifft_squaring_map_linear a b k fuel (stride_even c) (stride_even c') _
                ltac:(lia) ltac:(congruence) ltac:(congruence) Hlong)
      as (E1 & E2 & HE1 & HE2 & HlE1 & HlE2 & HEl).
    destruct (ifft_squaring_map_linear a b k fuel (stride_odd c) (stride_odd c') _
                ltac:(lia) ltac:(congruence) ltac:(congruence) Hlong)
      as (O1 & O2 & HO1 & HO2 & HlO1 & HlO2 & HOl).
    destruct (lin_strides a b h c c' Hc Hc') as (Hse & Hso).
    rewrite (ifft_quotient_map_step fuel h c D E1 O1) by (assumption || congruence || lia).
    rewrite (ifft_quotient_map_step fuel h c' D E2 O2) by (assumption || congruence || lia).
    rewrite (ifft_quotient_map_step fuel h (lin a b c c') D (lin a b E1 E2) (lin a b O1 O2))
      by (rewrite ?Hse, ?Hso, ?lin_length; (assumption || congruence || lia)).
    do 2 eexists. split; [reflexivity | split; [reflexivity | ]].
    split; [ | split]; try (rewrite length_app, length_rev, !rebuilt_length; lia).
    f_equal. apply rebuilt_halves_lin; congruence.
Qed.

Lemma canonical_value_mod (X : FE) (e : Z) :
  canonical X -> FieldElement.value X ==m e -> FieldElement.value X = e mod MOD.
Proof.
  intros Hc He. unfold cong, eqm in He. rewrite <- He. symmetry. now apply Z.mod_small.
Qed.

Lemma map_init_lin_comb (a b : Z) (c c' : list Z) :
  map FieldElement.init (lin_comb a b c c')
  = lin (FieldElement.init a) (FieldElement.init b)
        (map FieldElement.init c) (map FieldElement.init c').
Proof.
  unfold lin_comb, lin. revert c'. induction c as [|x c IH]; intros [|y c']; try reflexivity.
  cbn [combine map]. f_equal; [ | apply IH].
  cbn [fst snd]. apply canonical_cong_eq; [apply init_canonical | apply init_canonical | ].
  push_value. rewrite !value_init, !mod_cong. reflexivity.
Qed.

Lemma map_value_lin (a b : Z) (v v' : list FE) :
  map FieldElement.value (lin (FieldElement.init a) (FieldElement.init b) v v')
  = lin_comb a b (map FieldElement.value v) (map FieldElement.value v').
Proof.
  unfold lin_comb, lin. revert v'. induction v as [|x v IH]; intros [|y v']; try reflexivity.
  cbn [combine map]. f_equal; [ | apply IH].
  cbn [fst snd]. apply canonical_value_mod; [apply init_canonical | ].
  push_value. rewrite !value_init, !mod_cong. reflexivity.
Qed.

Lemma circle_ifft_linear_combination
  (k fuel : nat) (a b : Z) (c c' : list Z) (D : list Point) :
  (k <= fuel)%nat ->
  length c = (2 ^ k)%nat -> length c' = (2 ^ k)%nat -> length D = (2 ^ k)%nat ->
  exists v v',
    circle_ifft fuel c D = Ok v /\
    circle_ifft fuel c' D = Ok v' /\
    circle_ifft fuel (lin_comb a b c c') D = Ok (lin_comb a b v v').
Proof.
  intros Hf Hc Hc' HD.
  destruct (ifft_quotient_map_linear (FieldElement.init a) (FieldElement.init b) k fuel
              (map FieldElement.init c) (map FieldElement.init c') D Hf
              ltac:(now rewrite length_map) ltac:(now rewrite length_map) HD)
    as (v & v' & Hv & Hv' & Hlv & Hlv' & Hl).
  exists (map FieldElement.value v), (map FieldElement.value v').
  unfold circle_ifft.
  rewrite (pow2_length_passes_guard k c D Hc HD).
  rewrite (pow2_length_passes_guard k c' D Hc' HD).
  rewrite (pow2_length_passes_guard k (lin_comb a b c c') D) by
    (try assumption; unfold lin_comb; rewrite length_map, length_combine; lia).
  rewrite Hv, Hv', map_init_lin_comb, Hl. cbn [bind].
  split; [reflexivity | split; [reflexivity | ]]. now rewrite map_value_lin.
Qed.

(** The inverse transform is linear over the field, on any domain: the
    transform of [a * c + b * c'] (entrywise, modulo [MOD]) is the same
    combination of the transforms of [c] and [c']. *)
Theorem circle_ifft_is_linear
  (k fuel : nat) (a b : Z) (c c' : list Z) (D : list Point) :
  (k <= fuel)%nat ->
  length c = (2 ^ k)%nat -> length c' = (2 ^ k)%nat -> length D = (2 ^ k)%nat ->
  exists v v',
    circle_ifft fuel c D = Ok v /\
    circle_ifft fuel c' D = Ok v' /\
    circle_ifft fuel (lin_comb a b c c') D = Ok (lin_comb a b v v').
Proof. apply circle_ifft_linear_combination. Qed.

Lemma circle_ifft_is_linear_witness :
  exists v v',
    circle_ifft 1 [5; 7] [pt 13 7; pt 18 24] = Ok v /\
    circle_ifft 1 [1; 30] [pt 13 7; pt 18 24] = Ok v' /\
    circle_ifft 1 (lin_comb 3 4 [5; 7] [1; 30]) [pt 13 7; pt 18 24]
      = Ok (lin_comb 3 4 v v').
Proof.
  apply (circle_ifft_is_linear 1 1 3 4 [5; 7] [1; 30] [pt 13 7; pt 18 24]);
    [apply Nat.leb_le; reflexivity | reflexivity | reflexivity | reflexivity].
Defined.

(** ** Linearity of the forward transform *)

Lemma lin_comb_in_field (a b : Z) (c c' : list Z) : Forall in_field (lin_comb a b c c').
Proof.
  unfold lin_comb. apply Forall_map. apply Forall_forall. intros p _.
  apply Z.mod_pos_bound. reflexivity.
Qed.

(** On the standard position coset of a point outside the subgroup the
    forward transform is linear over the field as well. *)
Theorem circle_fft_is_linear
  (fuel : nat) (Q : Point) (k : Z) (G D : list Point) (a b : Z) (v w : list Z) :
  valid_point Q ->
  generate_subgroup k = Ok G ->
  generate_standard_position_coset Q G = Ok D ->
  k = 0 \/ ~ In Q G ->
  length v = length D -> length w = length D ->
  Forall in_field v -> Forall in_field w ->
  (Z.to_nat k <= fuel)%nat ->
  exists c c',
    circle_fft fuel v D = Ok c /\
    circle_fft fuel w D = Ok c' /\
    circle_fft fuel (lin_comb a b v w) D = Ok (lin_comb a b c c').
Proof.
  intros HQ HG HD Hout Hlv Hlw Hv Hw Hf.
  destruct (coset_outside_subgroup_is_good Q k G D HQ HG HD Hout) as (HlD & Hok).
  set (n := Z.to_nat k) in *.
  destruct (round_trip_on_good_domain n fuel v D Hf ltac:(congruence) HlD Hv Hok)
    as (c & Hc & Hic).
  destruct (round_trip_on_good_domain n fuel w D Hf ltac:(congruence) HlD Hw Hok)
    as (c' & Hc' & Hic').
  assert (Hlc : length c = (2 ^ n)%nat).
  { unfold circle_ifft in Hic. destruct (bad_length c D) eqn:Eb; [discriminate | ].
    apply bad_length_spec in Eb. destruct Eb as (Eb & _). congruence. }
  assert (Hlc' : length c' = (2 ^ n)%nat).
  { unfold circle_ifft in Hic'. destruct (bad_length c' D) eqn:Eb; [discriminate | ].
    apply bad_length_spec in Eb. destruct Eb as (Eb & _). congruence. }
  destruct (circle_ifft_linear_combination n fuel a b c c' D Hf Hlc Hlc' HlD)
    as (v0 & w0 & Hv0 & Hw0 & Hlin).
  rewrite Hic in Hv0. rewrite Hic' in Hw0.
  apply Ok_inj in Hv0. apply Ok_inj in Hw0. subst v0 w0.
  destruct (inverse_round_trip_on_good_domain n fuel (lin_comb a b c c') D Hf
              ltac:(unfold lin_comb; rewrite length_map, length_combine; lia) HlD
              (lin_comb_in_field a b c c') Hok) as (u & Hu & Hfu).
  rewrite Hlin in Hu. apply Ok_inj in Hu. subst u.
  exists c, c'. split; [exact Hc | split; [exact Hc' | exact Hfu]].
Qed.

Lemma circle_fft_is_linear_witness :
  valid_point (pt 24 18) /\
  generate_subgroup 3 = Ok G3 /\
  generate_standard_position_coset (pt 24 18) G3 = Ok D_24_18 /\
  ~ In (pt 24 18) G3 /\
  exists c c',
    circle_fft 3 [1; 2; 4; 8; 16; 1; 2; 4] D_24_18 = Ok c /\
    circle_fft 3 [0; 1; 0; 0; 0; 0; 0; 30] D_24_18 = Ok c' /\
    circle_fft 3 (lin_comb 3 4 [1; 2; 4; 8; 16; 1; 2; 4] [0; 1; 0; 0; 0; 0; 0; 30]) D_24_18
      = Ok (lin_comb 3 4 c c').
Proof.
  assert (HQ : valid_point (pt 24 18)) by (apply pt_valid; reflexivity).
  assert (HG : generate_subgroup 3 = Ok G3) by reflexivity.
  assert (HD : generate_standard_position_coset (pt 24 18) G3 = Ok D_24_18) by reflexivity.
  assert (Hout : ~ In (pt 24 18) G3).
  { intros H. apply memb_In in H. vm_compute in H. discriminate H. }
  assert (Hv : Forall in_field [1; 2; 4; 8; 16; 1; 2; 4]).
  { repeat constructor; vm_compute; discriminate. }
  assert (Hw : Forall in_field [0; 1; 0; 0; 0; 0; 0; 30]).
  { repeat constructor; vm_compute; discriminate. }
  split; [exact HQ | split; [exact HG | split; [exact HD | split; [exact Hout | ]]]].
  apply (circle_fft_is_linear 3 (pt 24 18) 3 G3 D_24_18 3 4
           [1; 2; 4; 8; 16; 1; 2; 4] [0; 1; 0; 0; 0; 0; 0; 30] HQ HG HD
           (or_intror Hout) eq_refl eq_refl Hv Hw).
  apply Nat.leb_le. reflexivity.
Defined.

(** ** The inverse transform evaluates the basis *)

Lemma check_with_basis_is_basis_eval (coefs : list Z) (D : list Point) :
  check_with_basis coefs D
  = map (fun pt => FieldElement.value (basis_eval (map FieldElement.init coefs) pt)) D.
Proof. reflexivity. Qed.

Lemma basis_sum_linear (a b : FE) (pt : Point) (idx : list Z) :
  forall (c c' : list FE) (acc acc' : FE),
    length c = length c' ->
    fold_left (fun acc ic =>
                 FieldElement.add acc (FieldElement.mul (snd ic) (basis_func pt (fst ic))))
              (combine idx (lin a b c c'))
              (FieldElement.add (FieldElement.mul a acc) (FieldElement.mul b acc'))
    = FieldElement.add
        (FieldElement.mul a
           (fold_left (fun acc ic =>
                 FieldElement.add acc (FieldElement.mul (snd ic) (basis_func pt (fst ic))))
              (combine idx c) acc))
        (FieldElement.mul b
           (fold_left (fun acc ic =>
                 FieldElement.add acc (FieldElement.mul (snd ic) (basis_func pt (fst ic))))
              (combine idx c') acc')).
Proof.
  induction idx as [|i idx IH]; intros c c' acc acc' Hl; [reflexivity | ].
  destruct c as [|x c], c' as [|y c']; try discriminate; [reflexivity | ].
  unfold lin. cbn [combine map fold_left fst snd]. fold (lin a b c c').
  rewrite <- IH by (cbn in Hl; lia). f_equal. fe_ring.
Qed.

Lemma basis_eval_linear (a b : FE) (pt : Point) (c c' : list FE) :
  length c = length c' ->
  basis_eval (lin a b c c') pt
  = FieldElement.add (FieldElement.mul a (basis_eval c pt))
                     (FieldElement.mul b (basis_eval c' pt)).
Proof.
  intros Hl. unfold basis_eval, enumerate.
  rewrite lin_length by assumption. rewrite <- Hl.
  rewrite <- basis_sum_linear by assumption. f_equal.
  change (FieldElement.init 0) with FieldElement.zero. fe_ring.
Qed.

Lemma check_with_basis_linear (a b : Z) (c c' : list Z) (D : list Point) :
  length c = length c' ->
  check_with_basis (lin_comb a b c c') D
  = lin_comb a b (check_with_basis c D) (check_with_basis c' D).
Proof.
  intros Hl. rewrite !check_with_basis_is_basis_eval. unfold lin_comb at 2.
  rewrite combine_map_same, map_map. apply map_ext. intros pt. cbn [fst snd].
  rewrite map_init_lin_comb, basis_eval_linear by (now rewrite !length_map).
  apply canonical_value_mod; [apply init_canonical | ].
  push_value. rewrite !value_init, !mod_cong. reflexivity.
Qed.

Lemma check_with_basis_congruent (c c' : list Z) (D : list Point) :
  Forall2 (fun a b => a mod MOD = b mod MOD) c c' ->
  check_with_basis c D = check_with_basis c' D.
Proof.
  intros H. rewrite !check_with_basis_is_basis_eval.
  now rewrite (map_init_congruent c c' H).
Qed.

Lemma circle_ifft_congruent (fuel : nat) (c c' : list Z) (D : list Point) :
  Forall2 (fun a b => a mod MOD = b mod MOD) c c' ->
  circle_ifft fuel c D = circle_ifft fuel c' D.
Proof.
  intros H. unfold circle_ifft.
  rewrite (map_init_congruent c c' H). unfold bad_length.
  now rewrite (Forall2_length H).
Qed.

Lemma lin_comb_seq (a b : Z) (f g : nat -> Z) (n : nat) :
  lin_comb a b (map f (seq 0 n)) (map g (seq 0 n))
  = map (fun j => (a * f j + b * g j) mod MOD) (seq 0 n).
Proof. unfold lin_comb. now rewrite combine_map_same, map_map. Qed.

Lemma head_part_zero (n : nat) (c : list Z) :
  head_part n 0 c = lin_comb 0 0 (unit_vec n 0) (unit_vec n 0).
Proof.
  unfold head_part, unit_vec. rewrite lin_comb_seq. apply map_ext. intros j.
  cbn [Nat.ltb Nat.leb]. now rewrite !Z.mul_0_l.
Qed.

Lemma head_part_succ (n m : nat) (c : list Z) :
  head_part n (S m) c = lin_comb 1 (nth m c 0) (head_part n m c) (unit_vec n m).
Proof.
  unfold head_part, unit_vec. rewrite lin_comb_seq. apply map_ext. intros j.
  destruct (Nat.ltb_spec j (S m)), (Nat.ltb_spec j m), (Nat.eqb_spec j m); try lia.
  - rewrite Z.mul_0_r, Z.add_0_r, Z.mul_1_l. now rewrite Z.mod_mod by apply MOD_nz.
  - subst j. now rewrite Z.mul_0_r, Z.add_0_l, Z.mul_1_r.
  - now rewrite !Z.mul_0_r.
Qed.

Lemma head_part_all (c : list Z) :
  head_part (length c) (length c) c = map (fun z => z mod MOD) c.
Proof.
  unfold head_part.
  transitivity (map (fun z => z mod MOD) (map (fun j => nth j c 0) (seq 0 (length c))));
    [ | now rewrite map_nth_seq].
  rewrite map_map. apply map_ext_in. intros j Hj%in_seq.
  destruct (Nat.ltb_spec j (length c)); [reflexivity | lia].
Qed.

Lemma head_part_length (n m : nat) (c : list Z) : length (head_part n m c) = n.
Proof. unfold head_part. now rewrite length_map, length_seq. Qed.

Lemma unit_vec_length (n i : nat) : length (unit_vec n i) = n.
Proof. unfold unit_vec. now rewrite length_map, length_seq. Qed.

Lemma zlist_eqb_eq (a b : list Z) : zlist_eqb a b = true -> a = b.
Proof.
  unfold zlist_eqb. rewrite andb_true_iff, Nat.eqb_eq. revert b.
  induction a as [|x a IH]; intros [|y b] (Hl & H); try discriminate; [reflexivity | ].
  cbn in H. apply andb_true_iff in H. destruct H as (E%Z.eqb_eq & H).
  f_equal; [exact E | apply IH]. split; [cbn in Hl; lia | exact H].
Qed.

Lemma zlist_eqb_refl (a : list Z) : zlist_eqb a a = true.
Proof.
  unfold zlist_eqb. rewrite Nat.eqb_refl. cbn.
  induction a as [|x a IH]; cbn; [reflexivity | now rewrite Z.eqb_refl].
Qed.

(** Two linear maps that agree on the unit vectors agree everywhere. *)
Lemma agreement_extends (k fuel : nat) (D : list Point) :
  (k <= fuel)%nat -> length D = (2 ^ k)%nat ->
  (forall i, (i < 2 ^ k)%nat ->
     circle_ifft fuel (unit_vec (2 ^ k) i) D
     = Ok (check_with_basis (unit_vec (2 ^ k) i) D)) ->
  forall c, length c = (2 ^ k)%nat ->
    circle_ifft fuel c D = Ok (check_with_basis c D).
Proof.
  intros Hf HD Hunit c Hc.
  assert (Hlin : forall a b u w,
             length u = (2 ^ k)%nat -> length w = (2 ^ k)%nat ->
             circle_ifft fuel u D = Ok (check_with_basis u D) ->
             circle_ifft fuel w D = Ok (check_with_basis w D) ->
             circle_ifft fuel (lin_comb a b u w) D
             = Ok (check_with_basis (lin_comb a b u w) D)).
  { intros a b u w Hu Hw Au Aw.
    destruct (circle_ifft_linear_combination k fuel a b u w D Hf Hu Hw HD)
      as (v & v' & Hv & Hv' & Hl).
    rewrite Au in Hv. rewrite Aw in Hv'. apply Ok_inj in Hv. apply Ok_inj in Hv'.
    subst v v'. rewrite Hl. f_equal. symmetry. apply check_with_basis_linear. congruence. }
  pose proof (pow2_pos k) as Hpos.
  assert (Hhead : forall m, (m <= 2 ^ k)%nat ->
             circle_ifft fuel (head_part (2 ^ k) m c) D
             = Ok (check_with_basis (head_part (2 ^ k) m c) D)).
  { induction m as [|m IH]; intros Hm.
    - rewrite head_part_zero.
      apply Hlin; try apply unit_vec_length; apply Hunit; lia.
    - rewrite head_part_succ.
      apply Hlin; [apply head_part_length | apply unit_vec_length | apply IH; lia
                  | apply Hunit; lia]. }
  specialize (Hhead (2 ^ k)%nat (Nat.le_refl _)).
  rewrite <- Hc in Hhead. rewrite head_part_all in Hhead.
  assert (Hcong : Forall2 (fun a b => a mod MOD = b mod MOD) c (map (fun z => z mod MOD) c)).
  { clear. induction c as [|z c IH]; cbn; constructor; [ | exact IH].
    symmetry. apply Z.mod_mod. apply MOD_nz. }
  rewrite (circle_ifft_congruent fuel _ _ D Hcong).
  rewrite (check_with_basis_congruent _ _ D Hcong). exact Hhead.
Qed.

Lemma basis_check_all (extra : nat) :
  forallb (fun Q => forallb (basis_check extra Q) (range 0 6)) circle_points = true.
Proof. vm_compute. reflexivity. Qed.

Lemma ifft_basis_agreement
  (fuel : nat) (Q : Point) (k : Z) (G D : list Point) :
  valid_point Q ->
  generate_subgroup k = Ok G ->
  generate_standard_position_coset Q G = Ok D ->
  (Z.to_nat k <= fuel)%nat ->
  (forall c, length c = length D -> circle_ifft fuel c D = Ok (check_with_basis c D))
  <-> (k <= 1 \/ CirclePoint.double Q = get_nth_generator k).
Proof.
  intros HQ HG HD Hf.
  pose proof (generate_subgroup_exponent k G HG) as Hk.
  assert (HlD : length D = (2 ^ Z.to_nat k)%nat).
  { destruct (generate_subgroup_on_circle k G HG) as (_ & HlG).
    unfold generate_standard_position_coset in HD.
    apply mapM_length in HD. apply Nat2Z.inj.
    rewrite HD, HlG, Nat2Z.inj_pow, Z2Nat.id by lia. reflexivity. }
  pose proof (basis_check_all (fuel - Z.to_nat k)) as Hall.
  rewrite forallb_forall in Hall.
  specialize (Hall Q (proj1 (valid_point_enumerated Q) HQ)).
  rewrite forallb_forall in Hall.
  specialize (Hall k (proj2 (range_In 0 6 k) ltac:(lia))).
  unfold basis_check, standard_coset_of in Hall. rewrite HG in Hall. cbn [bind] in Hall.
  rewrite HD in Hall.
  replace (Z.to_nat k + (fuel - Z.to_nat k))%nat with fuel in Hall by lia.
  apply Bool.eqb_prop in Hall.
  assert (Hcond : (k <=? 1) || result_eqb (CirclePoint.double Q) (get_nth_generator k) = true
                  <-> (k <= 1 \/ CirclePoint.double Q = get_nth_generator k)).
  { rewrite orb_true_iff, Z.leb_le, result_eqb_spec.
    destruct HQ as (_ & _ & HQ). destruct (double_on_circle Q HQ) as (W & HW & _).
    split; intros [H | H]; auto; right; [apply H | split; [exact H | eauto]]. }
  rewrite <- Hcond, <- Hall, forallb_forall. split.
  - intros H i Hi. rewrite H by apply unit_vec_length. apply zlist_eqb_refl.
  - intros H. rewrite HlD in *.
    apply agreement_extends; [exact Hf | exact HlD | ].
    intros i Hi. specialize (H i (proj2 (in_seq _ _ _) (conj (Nat.le_0_l _) Hi))).
    destruct (circle_ifft fuel (unit_vec (2 ^ Z.to_nat k) i) D) as [v|]; [ | discriminate].
    f_equal. now apply zlist_eqb_eq.
Qed.

(** What the inverse transform computes: on the standard position coset
    [Q * G_k] the inverse transform of every coefficient vector is its
    re-evaluation in the basis [B_k] at the domain points, as
    [check_with_basis] computes it, exactly when the domain has at most two
    points or the square of the coset point is the generator of [G_k]. *)
Theorem circle_ifft_evaluates_the_basis
  (fuel : nat) (Q : Point) (k : Z) (G D : list Point) :
  valid_point Q ->
  generate_subgroup k = Ok G ->
  generate_standard_position_coset Q G = Ok D ->
  (Z.to_nat k <= fuel)%nat ->
  (forall c, length c = length D -> circle_ifft fuel c D = Ok (check_with_basis c D))
  <-> (k <= 1 \/ CirclePoint.double Q = get_nth_generator k).
Proof. apply ifft_basis_agreement. Qed.

Lemma circle_ifft_evaluates_the_basis_witness :
  valid_point (pt 24 18) /\
  generate_subgroup 3 = Ok G3 /\
  generate_standard_position_coset (pt 24 18) G3 = Ok D_24_18 /\
  CirclePoint.double (pt 24 18) = get_nth_generator 3 /\
  circle_ifft 3 [28; 16; 16; 27; 20; 12; 28; 27] D_24_18
    = Ok (check_with_basis [28; 16; 16; 27; 20; 12; 28; 27] D_24_18).
Proof.
  assert (HQ : valid_point (pt 24 18)) by (apply pt_valid; reflexivity).
  assert (HG : generate_subgroup 3 = Ok G3) by reflexivity.
  assert (HD : generate_standard_position_coset (pt 24 18) G3 = Ok D_24_18) by reflexivity.
  assert (Hg : CirclePoint.double (pt 24 18) = get_nth_generator 3) by reflexivity.
  assert (Hf : (Z.to_nat 3 <= 3)%nat) by (apply Nat.leb_le; reflexivity).
  split; [exact HQ | split; [exact HG | split; [exact HD | split; [exact Hg | ]]]].
  apply (proj2 (circle_ifft_evaluates_the_basis 3 (pt 24 18) 3 G3 D_24_18 HQ HG HD Hf)
           (or_intror Hg)).
  reflexivity.
Defined.

Lemma symmetric_outside_check_all :
  forallb (fun Q => forallb (symmetric_outside_check Q) (range 0 6)) circle_points = true.
Proof. vm_compute. reflexivity. Qed.

(** The notebook's cross-check holds in general: when the square of the coset
    point is the generator of [G_k], re-evaluating the coefficients returned
    by the forward transform in the basis gives the evaluations back. *)
Theorem basis_cross_check
  (fuel : nat) (Q : Point) (k : Z) (G D : list Point) (v : list Z) :
  valid_point Q ->
  generate_subgroup k = Ok G ->
  generate_standard_position_coset Q G = Ok D ->
  CirclePoint.double Q = get_nth_generator k ->
  length v = length D ->
  Forall in_field v ->
  (Z.to_nat k <= fuel)%nat ->
  exists c, circle_fft fuel v D = Ok c /\ check_with_basis c D = v.
Proof.
  intros HQ HG HD Hsym Hlen Hv Hf.
  pose proof (generate_subgroup_exponent k G HG) as Hk.
  assert (Hout : k = 0 \/ ~ In Q G).
  { pose proof symmetric_outside_check_all as Hall. rewrite forallb_forall in Hall.
    specialize (Hall Q (proj1 (valid_point_enumerated Q) HQ)).
    rewrite forallb_forall in Hall.
    specialize (Hall k (proj2 (range_In 0 6 k) ltac:(lia))).
    unfold symmetric_outside_check in Hall. rewrite HG in Hall.
    assert (Hs : result_eqb (CirclePoint.double Q) (get_nth_generator k) = true).
    { apply result_eqb_spec. split; [exact Hsym | ].
      destruct HQ as (_ & _ & HQ). destruct (double_on_circle Q HQ) as (W & HW & _). eauto. }
    rewrite Hs in Hall. cbn [negb orb] in Hall. apply orb_true_iff in Hall.
    destruct Hall as [E%Z.eqb_eq | Hn]; [now left | right].
    apply negb_true_iff in Hn. intros Hin. apply memb_In in Hin. congruence. }
  destruct (coset_outside_subgroup_is_good Q k G D HQ HG HD Hout) as (HlD & Hok).
  destruct (round_trip_on_good_domain (Z.to_nat k) fuel v D Hf ltac:(congruence) HlD Hv Hok)
    as (c & Hc & Hic).
  exists c. split; [exact Hc | ].
  assert (Hlc : length c = length D).
  { unfold circle_ifft in Hic. destruct (bad_length c D) eqn:Eb; [discriminate | ].
    apply bad_length_spec in Eb. now destruct Eb. }
  pose proof (proj2 (ifft_basis_agreement fuel Q k G D HQ HG HD Hf) (or_intror Hsym) c Hlc)
    as Hb.
  rewrite Hic in Hb. now apply Ok_inj in Hb.
Qed.

Lemma basis_cross_check_witness :
  valid_point (pt 24 18) /\
  generate_subgroup 3 = Ok G3 /\
  generate_standard_position_coset (pt 24 18) G3 = Ok D_24_18 /\
  CirclePoint.double (pt 24 18) = get_nth_generator 3 /\
  exists c, circle_fft 3 [1; 2; 4; 8; 16; 1; 2; 4] D_24_18 = Ok c /\
            check_with_basis c D_24_18 = [1; 2; 4; 8; 16; 1; 2; 4].
Proof.
  assert (HQ : valid_point (pt 24 18)) by (apply pt_valid; reflexivity).
  assert (HG : generate_subgroup 3 = Ok G3) by reflexivity.
  assert (HD : generate_standard_position_coset (pt 24 18) G3 = Ok D_24_18) by reflexivity.
  assert (Hg : CirclePoint.double (pt 24 18) = get_nth_generator 3) by reflexivity.
  assert (Hv : Forall in_field [1; 2; 4; 8; 16; 1; 2; 4]).
  { repeat constructor; vm_compute; discriminate. }
  split; [exact HQ | split; [exact HG | split; [exact HD | split; [exact Hg | ]]]].
  apply (basis_cross_check 3 (pt 24 18) 3 G3 D_24_18 [1; 2; 4; 8; 16; 1; 2; 4]
           HQ HG HD Hg eq_refl Hv).
  apply Nat.leb_le. reflexivity.
Defined.

(** ** The x-coordinate under repeated doubling *)

Lemma range_snoc (n : Z) : 0 <= n -> range 0 (n + 1) = range 0 n ++ [n].
Proof.
  intros Hn. unfold range. rewrite !Z.sub_0_r.
  replace (Z.to_nat (n + 1)) with (Z.to_nat n + 1)%nat by lia.
  rewrite seq_app, map_app. cbn. f_equal. f_equal. lia.
Qed.

Lemma repeated_vn_succ (x : FE) (k : Z) :
  1 <= k -> repeated_vn x (k + 1) = next_x (repeated_vn x k).
Proof.
  intros Hk. unfold repeated_vn.
  replace (k + 1 - 1) with (k - 1 + 1) by lia.
  rewrite range_snoc by lia. now rewrite fold_left_app.
Qed.

Lemma add_pt_self_x (R : Point) :
  on_circle R -> CirclePoint.x (add_pt R R) = next_x (CirclePoint.x R).
Proof.
  intros HR. apply on_circle_cong in HR.
  destruct (double_coordinates _ _ HR) as (E & _).
  unfold next_x. rewrite E. reflexivity.
Qed.

Lemma pow_pt_two (R : Point) :
  canonical (CirclePoint.x R) -> canonical (CirclePoint.y R) ->
  pow_pt R 2 = add_pt R R.
Proof.
  intros Hx Hy. change (pow_pt R 2) with (add_pt (add_pt (pt 1 0) R) R).
  now rewrite add_pt_identity_l.
Qed.

Lemma pow_pt_one (R : Point) :
  canonical (CirclePoint.x R) -> canonical (CirclePoint.y R) -> pow_pt R 1 = R.
Proof.
  intros Hx Hy. change (pow_pt R 1) with (add_pt (pt 1 0) R).
  now apply add_pt_identity_l.
Qed.

(** [repeated_vn(x, k)] follows the x-coordinate through [k - 1] doublings:
    it is the x-coordinate of the [2^(k-1)]-th power of any circle point with
    x-coordinate [x]; for [k <= 1] it is [x] itself. *)
Theorem repeated_vn_is_x_of_power (P : Point) (k : Z) :
  valid_point P ->
  (k <= 1 -> repeated_vn (CirclePoint.x P) k = CirclePoint.x P) /\
  (1 <= k ->
   exists R, CirclePoint.power P (2 ^ (k - 1)) = Ok R /\
             CirclePoint.x R = repeated_vn (CirclePoint.x P) k).
Proof.
  intros (Hx & Hy & HP). split.
  - intros Hk. unfold repeated_vn, range.
    replace (Z.to_nat (k - 1 - 0)) with 0%nat by lia. reflexivity.
  - intros Hk. exists (pow_pt P (2 ^ (k - 1))).
    split; [apply power_is_pow_pt; [exact HP | apply Z.pow_nonneg; lia] | ].
    replace k with (Z.of_nat (Z.to_nat (k - 1)) + 1) by lia.
    rewrite Z.add_simpl_r.
    induction (Z.to_nat (k - 1)) as [|n IH].
    + cbn [Z.of_nat Z.pow]. now rewrite pow_pt_one.
    + rewrite Nat2Z.inj_succ, Z.pow_succ_r by lia.
      rewrite Z.mul_comm, pow_pt_mul by (try apply Z.pow_nonneg; lia).
      rewrite pow_pt_two by apply pow_pt_canonical.
      rewrite add_pt_self_x by now apply pow_pt_on_circle.
      rewrite IH. rewrite <- repeated_vn_succ by lia. f_equal; lia.
Qed.

Lemma repeated_vn_is_x_of_power_witness :
  valid_point (pt 13 7) /\
  exists R, CirclePoint.power (pt 13 7) (2 ^ (3 - 1)) = Ok R /\
            CirclePoint.x R = repeated_vn (CirclePoint.x (pt 13 7)) 3.
Proof.
  split; [exact valid_13_7 | ].
  apply (proj2 (repeated_vn_is_x_of_power (pt 13 7) 3 valid_13_7)). lia.
Defined.

(** ** Witnesses for the guard, the failing cosets and the decomposition *)

Lemma size_mismatch_raised_witness :
  circle_fft 3 [1; 2; 3] [pt 1 0; pt 30 0; pt 0 1]
    = Err (ValueError LengthMismatch) /\
  circle_ifft 3 [1; 2; 3] [pt 1 0; pt 30 0; pt 0 1]
    = Err (ValueError LengthMismatch).
Proof.
  apply (size_mismatch_raised 3 [1; 2; 3] [pt 1 0; pt 30 0; pt 0 1]).
  right. split; [discriminate | ].
  intros (k & Hk & E). cbn in E.
  assert (Hcases : k = 0 \/ k = 1 \/ 2 <= k) by lia.
  destruct Hcases as [-> | [-> | H2]]; try discriminate E.
  assert (H4 : 2 ^ 2 <= 2 ^ k) by (apply Z.pow_le_mono_r; lia).
  change (2 ^ 2) with 4 in H4. lia.
Defined.

Lemma circle_fft_raises_inside_subgroup_witness :
  valid_point (pt 0 1) /\
  generate_subgroup 3 = Ok G3 /\
  In (pt 0 1) G3 /\
  exists D,
    generate_standard_position_coset (pt 0 1) G3 = Ok D /\
    circle_fft 3 [1; 2; 4; 8; 16; 1; 2; 4] D = Err ZeroDivisionError.
Proof.
  assert (HQ : valid_point (pt 0 1)) by (apply pt_valid; reflexivity).
  assert (HG : generate_subgroup 3 = Ok G3) by reflexivity.
  assert (Hin : In (pt 0 1) G3) by (apply memb_In; reflexivity).
  split; [exact HQ | split; [exact HG | split; [exact Hin | ]]].
  eexists. split; [reflexivity | ].
  apply (circle_fft_raises_inside_subgroup 3 (pt 0 1) 3 G3 _ [1; 2; 4; 8; 16; 1; 2; 4]
           HQ HG eq_refl); [lia | exact Hin | reflexivity].
Defined.

Lemma decompose_relative_to_global_witness :
  on_circle (pt 2 11) /\
  generate_subgroup (2 - 1) = Ok [pt 1 0; pt 30 0] /\
  exists tcs,
    decompose_to_twin_cosets (pt 2 11) D_13_7 2 3 = Ok tcs /\
    Z.of_nat (length tcs) = 2 ^ (3 - 2) /\
    forall k, 0 <= k < 2 ^ (3 - 2) ->
      exists Q_k T,
        CirclePoint.power (pt 2 11) (4 * k + 1) = Ok Q_k /\
        generate_twin_coset Q_k [pt 1 0; pt 30 0] = Ok T /\
        nth_error tcs (Z.to_nat k) = Some T /\
        Z.of_nat (length T) = 2 ^ 2.
Proof.
  assert (HQ : on_circle (pt 2 11)) by reflexivity.
  assert (HG : generate_subgroup (2 - 1) = Ok [pt 1 0; pt 30 0]) by reflexivity.
  split; [exact HQ | split; [exact HG | ]].
  apply (decompose_relative_to_global (pt 2 11) D_13_7 [pt 1 0; pt 30 0] 2 3 HQ);
    [lia | exact HG | reflexivity].
Defined.

